(** * QOI codec (Zyl9393/qoi): a shallow embedding and its verified properties

    The development follows the Go sources:
    - the byte-buffer codec ([Decode], [Encode], [DecodeHeader] over [[]byte]),
      embedded in [Module Qoi];
    - the image-based codec ([Decode], [decodeBody], [DecodeIntoBuffer],
      [Encode] over [image.Image], with [image.go] and [util.go]), embedded in
      [Module QoiImage];
    - the parts the two share verbatim (constants, hash, header codec, the
      per-pixel encoder step and the per-iteration decoder step), which come
      first.
    [DecodeConfig], the methods of [Image] and the tests of [qoi_test.go]
    follow the derived notions; the older codec kept next to them (QOI_RUN_8,
    QOI_DIFF_16, ...) is another format, embedded last in [Module Legacy].

    Conventions.  A Go [byte]/[uint8] is a [Z] in [0,256) and every byte
    operation is followed by its wrap-around [u8]; [uint32] wraps with [u32],
    [int8] with [i8], and [int] is the 64-bit [int] of the usual Go targets,
    wrapping with [i64].  An [io.Reader] is the list of bytes it still has to
    deliver; the writers are in-memory and never fail.  A run-time panic
    (slice or index out of range) is the outcome [Panicked]. *)

From Stdlib Require Import ZArith List Lia Bool.
From coqutil Require Import Z.bitblast.
Import ListNotations.
Local Open Scope Z_scope.

(** ** Machine integers *)

Definition u8 (z : Z) : Z := z mod 256.
Definition u32 (z : Z) : Z := z mod 2 ^ 32.
Definition i8 (z : Z) : Z := (z + 128) mod 256 - 128.
Definition i64 (z : Z) : Z := (z + 2 ^ 63) mod 2 ^ 64 - 2 ^ 63.

(** Arithmetic on [byte] operands. *)
Definition badd (a b : Z) : Z := u8 (a + b).
Definition bsub (a b : Z) : Z := u8 (a - b).
Definition bmul (a b : Z) : Z := u8 (a * b).

Definition is_byte (z : Z) : Prop := 0 <= z < 256.
Definition is_byteb (z : Z) : bool := (0 <=? z) && (z <? 256).

(** ** Constants *)

Definition qoi_INDEX : Z := 0.    (* 0b00_000000 *)
Definition qoi_DIFF : Z := 64.    (* 0b01_000000 *)
Definition qoi_LUMA : Z := 128.   (* 0b10_000000 *)
Definition qoi_RUN : Z := 192.    (* 0b11_000000 *)
Definition qoi_RGB : Z := 254.    (* 0b1111_1110 *)
Definition qoi_RGBA : Z := 255.   (* 0b1111_1111 *)
Definition qoi_MASK_2 : Z := 192. (* 0b11_000000 *)

Definition qoiMagic : list Z := [113; 111; 105; 102]. (* "qoif" *)
Definition qoiPixelsMax : Z := 400000000.

(** ** Pixels and the pixel history cache *)

Record pixel : Type := mkpx { px0 : Z; px1 : Z; px2 : Z; px3 : Z }.

Definition pixel_eqb (p q : pixel) : bool :=
  (px0 p =? px0 q) && (px1 p =? px1 q) && (px2 p =? px2 q) && (px3 p =? px3 q).

Definition px_bytes (p : pixel) : list Z := [px0 p; px1 p; px2 p; px3 p].

Definition zero_pixel : pixel := mkpx 0 0 0 0.
Definition start_pixel : pixel := mkpx 0 0 0 255.

Definition wf_pixel (p : pixel) : Prop :=
  is_byte (px0 p) /\ is_byte (px1 p) /\ is_byte (px2 p) /\ is_byte (px3 p).

Definition qoi_COLOR_HASH (r g b a : Z) : Z :=
  badd (badd (badd (bmul r 3) (bmul g 5)) (bmul b 7)) (bmul a 11).

(** [hash(px) & 0b111111], the cache slot of a pixel. *)
Definition slot (p : pixel) : Z :=
  Z.land (qoi_COLOR_HASH (px0 p) (px1 p) (px2 p) (px3 p)) 63.

(** [var index [64]pixel]: 64 zero pixels. *)
Definition index_t : Type := list pixel.
Definition new_index : index_t := repeat zero_pixel 64.

Definition index_get (ix : index_t) (i : Z) : pixel := nth (Z.to_nat i) ix zero_pixel.

Fixpoint list_set {A : Type} (l : list A) (n : nat) (v : A) : list A :=
  match l, n with
  | [], _ => []
  | _ :: t, O => v :: t
  | h :: t, S n' => h :: list_set t n' v
  end.

Definition index_set (ix : index_t) (i : Z) (v : pixel) : index_t :=
  list_set ix (Z.to_nat i) v.

(** ** Readers and errors *)

Inductive io_error : Type :=
| EOF               (* io.EOF *)
| ErrUnexpectedEOF. (* io.ErrUnexpectedEOF *)

(** [io.ReadFull(r, buf)] with [len(buf) = n]: all [n] bytes or an error,
    [io.EOF] when nothing could be read and [io.ErrUnexpectedEOF] when the
    reader ran dry part-way. *)
Definition ReadFull (n : nat) (rd : list Z) : io_error + (list Z * list Z) :=
  if (length rd <? n)%nat then
    match rd with
    | [] => inl EOF
    | _ :: _ => inl ErrUnexpectedEOF
    end
  else inr (firstn n rd, skipn n rd).

(** [binary.BigEndian.Uint32]. *)
Definition be_uint32 (b : list Z) : Z :=
  match b with
  | [b0; b1; b2; b3] =>
      Z.lor (Z.lor (Z.lor b3 (Z.shiftl b2 8)) (Z.shiftl b1 16)) (Z.shiftl b0 24)
  | _ => 0
  end.

(** [binary.BigEndian.PutUint32]. *)
Definition be_put_uint32 (v : Z) : list Z :=
  [u8 (Z.shiftr v 24); u8 (Z.shiftr v 16); u8 (Z.shiftr v 8); u8 v].

(** ** Header codec *)

Record Header : Type := mkHeader {
  magic : list Z;
  width : Z;
  height : Z;
  channels : Z;
  colorspace : Z
}.

Inductive header_error : Type :=
| ErrReadMagic (e : io_error)       (* "could not read header magic: %w" *)
| ErrReadWidth (e : io_error)       (* "could not read width: %w" *)
| ErrReadHeight (e : io_error)      (* "could not read height: %w" *)
| ErrReadChannels (e : io_error)    (* "could not read channels: %w" *)
| ErrReadColorspace (e : io_error)  (* "could not read colorspace: %w" *)
| ErrBadMagic                       (* "bad magic" *)
| ErrInvalidChannels (c : Z)        (* "invalid amount of channels %d" *)
| ErrInvalidColorspace (c : Z).     (* "invalid colorspace %d" *)

Definition list_eqb (a b : list Z) : bool :=
  if list_eq_dec Z.eq_dec a b then true else false.

(** [DecodeHeader]: five [binary.Read]s, then the three validity checks.
    On success the reader is returned where the header ends. *)
Definition DecodeHeader (r : list Z) : header_error + (Header * list Z) :=
  match ReadFull 4 r with
  | inl e => inl (ErrReadMagic e)
  | inr (m, r1) =>
    match ReadFull 4 r1 with
    | inl e => inl (ErrReadWidth e)
    | inr (w, r2) =>
      match ReadFull 4 r2 with
      | inl e => inl (ErrReadHeight e)
      | inr (h, r3) =>
        match ReadFull 1 r3 with
        | inl e => inl (ErrReadChannels e)
        | inr (c, r4) =>
          match ReadFull 1 r4 with
          | inl e => inl (ErrReadColorspace e)
          | inr (cs, r5) =>
            let header :=
              mkHeader m (be_uint32 w) (be_uint32 h) (hd 0 c) (hd 0 cs) in
            if negb (list_eqb (magic header) qoiMagic) then inl ErrBadMagic
            else if (channels header <? 3) || (channels header >? 4)
              then inl (ErrInvalidChannels (channels header))
            else if negb (colorspace header =? 0) && negb (colorspace header =? 1)
              then inl (ErrInvalidColorspace (colorspace header))
            else inr (header, r5)
          end
        end
      end
    end
  end.

(** ** Outcomes: a call returns, or the Go run time panics *)

Inductive outcome (A : Type) : Type :=
| Returned (a : A)
| Panicked.
Arguments Returned {A} a.
Arguments Panicked {A}.

(** [s[i]] on a slice: a panic outside [0, len(s)). *)
Definition slice_get (s : list Z) (i : Z) : option Z :=
  if i <? 0 then None else nth_error s (Z.to_nat i).

(** ** The encoder's per-pixel step (the body of the two raster loops)

    A chunk is the list of bytes written for it; the stream is the
    concatenation of the chunks, in order. *)

Definition chunk : Type := list Z.

Record enc_state : Type := mkEnc {
  e_index : index_t;
  e_prev : pixel;   (* px_prev *)
  e_run : Z         (* run *)
}.

Definition enc_init : enc_state := mkEnc new_index start_pixel 0.

(** [out.WriteByte(qoi_RUN | byte(run-1))] *)
Definition run_chunk (run : Z) : chunk := [Z.lor qoi_RUN (u8 (run - 1))].

Definition encode_pixel (st : enc_state) (px : pixel) (last_pixel : bool)
  : list chunk * enc_state :=
  let index := e_index st in
  let px_prev := e_prev st in
  let run := e_run st in
  if pixel_eqb px px_prev then
    let run := run + 1 in
    if (run =? 62) || last_pixel
    then ([run_chunk run], mkEnc index px 0)
    else ([], mkEnc index px run)
  else
    let flushed := if run >? 0 then [run_chunk run] else [] in
    let run := if run >? 0 then 0 else run in
    let index_pos := Z.land (qoi_COLOR_HASH (px0 px) (px1 px) (px2 px) (px3 px)) 63 in
    if pixel_eqb (index_get index index_pos) px then
      (flushed ++ [[Z.lor qoi_INDEX index_pos]], mkEnc index px run)
    else
      let index := index_set index index_pos px in
      if px3 px =? px3 px_prev then
        let vr := i8 (px0 px - px0 px_prev) in
        let vg := i8 (px1 px - px1 px_prev) in
        let vb := i8 (px2 px - px2 px_prev) in
        let vg_r := i8 (vr - vg) in
        let vg_b := i8 (vb - vg) in
        if (vr >? -3) && (vr <? 2) && (vg >? -3) && (vg <? 2) && (vb >? -3) && (vb <? 2) then
          (flushed ++
           [[Z.lor qoi_DIFF
               (u8 (Z.lor (Z.lor (i8 (Z.shiftl (i8 (vr + 2)) 4))
                                 (i8 (Z.shiftl (i8 (vg + 2)) 2)))
                          (i8 (vb + 2))))]],
           mkEnc index px run)
        else if (vg_r >? -9) && (vg_r <? 8) && (vg >? -33) && (vg <? 32)
                && (vg_b >? -9) && (vg_b <? 8) then
          (flushed ++
           [[Z.lor qoi_LUMA (u8 (i8 (vg + 32)));
             Z.lor (u8 (i8 (Z.shiftl (i8 (vg_r + 8)) 4))) (u8 (i8 (vg_b + 8)))]],
           mkEnc index px run)
        else
          (flushed ++ [[qoi_RGB; px0 px; px1 px; px2 px]], mkEnc index px run)
      else
        (flushed ++ [[qoi_RGBA; px0 px; px1 px; px2 px; px3 px]], mkEnc index px run).

(** The raster loops [for y ... { for x ... { body } }].  [fetch x y] is the
    pixel read at the top of the body ([None]: the read panics); [x] starts at
    [x0] in every row and a row has [cols] iterations. *)
Section Raster.
Variable fetch : Z -> Z -> option pixel.
Variables widthMinusOne heightMinusOne : Z.

Fixpoint encode_row (cols : nat) (x y : Z) (st : enc_state) (out : list chunk)
  : option (enc_state * list chunk) :=
  match cols with
  | O => Some (st, out)
  | S cols' =>
      match fetch x y with
      | None => None
      | Some px =>
          let last_pixel := (x =? widthMinusOne) && (y =? heightMinusOne) in
          let '(cs, st') := encode_pixel st px last_pixel in
          encode_row cols' (x + 1) y st' (out ++ cs)
      end
  end.

Fixpoint encode_rows (rows : nat) (y : Z) (x0 : Z) (cols : nat)
    (st : enc_state) (out : list chunk) : option (enc_state * list chunk) :=
  match rows with
  | O => Some (st, out)
  | S rows' =>
      match encode_row cols x0 y st out with
      | None => None
      | Some (st', out') => encode_rows rows' (y + 1) x0 cols st' out'
      end
  end.
End Raster.

(** The 14 header bytes and the 8 padding bytes the encoders write. *)
Definition header_bytes (w h bytesPerPixel : Z) : list Z :=
  qoiMagic ++ be_put_uint32 (u32 w) ++ be_put_uint32 (u32 h) ++ [bytesPerPixel] ++ [u8 0].

Definition padding : list Z := be_put_uint32 (u32 0) ++ be_put_uint32 (u32 1).

Inductive encode_error : Type :=
| ErrBadImageSize0    (* "bad image size 0" *)
| ErrTooManyPixels    (* "image must have less than %d pixels total" *)
| ErrNeither3Nor4.    (* "len(src) / (width * height) is neither 3 nor 4" *)

(** ** The decoder's per-iteration step (the body of the decode loops, up to
    the copy into [dest]) *)

Record dec_state : Type := mkDec {
  d_rd : list Z;       (* what the buffered reader still has to deliver *)
  d_index : index_t;
  d_px : pixel;
  d_run : Z
}.

Definition dec_init (rd : list Z) : dec_state := mkDec rd new_index start_pixel 0.

Inductive step_result : Type :=
| StepEOF                  (* the tag's ReadByte met io.EOF *)
| StepErr (e : io_error)   (* a later read of the chunk failed *)
| StepOk (st : dec_state).

(** The [switch] on the tag byte [b1]: the reader, pixel and run after it. *)
Definition dispatch (b1 : Z) (rd : list Z) (index : index_t) (px : pixel) (run : Z)
  : io_error + (list Z * pixel * Z) :=
  if b1 =? qoi_RGB then
    match ReadFull 3 rd with
    | inl e => inl e
    | inr (bs, rd') => inr (rd', mkpx (nth 0 bs 0) (nth 1 bs 0) (nth 2 bs 0) (px3 px), run)
    end
  else if b1 =? qoi_RGBA then
    match ReadFull 4 rd with
    | inl e => inl e
    | inr (bs, rd') =>
        inr (rd', mkpx (nth 0 bs 0) (nth 1 bs 0) (nth 2 bs 0) (nth 3 bs 0), run)
    end
  else if Z.land b1 qoi_MASK_2 =? qoi_INDEX then
    inr (rd, index_get index b1, run)
  else if Z.land b1 qoi_MASK_2 =? qoi_DIFF then
    inr (rd,
         mkpx (badd (px0 px) (bsub (Z.land (Z.shiftr b1 4) 3) 2))
              (badd (px1 px) (bsub (Z.land (Z.shiftr b1 2) 3) 2))
              (badd (px2 px) (bsub (Z.land b1 3) 2))
              (px3 px),
         run)
  else if Z.land b1 qoi_MASK_2 =? qoi_LUMA then
    match rd with
    | [] => inl EOF
    | b2 :: rd' =>
        let vg := bsub (Z.land b1 63) 32 in
        inr (rd',
             mkpx (badd (px0 px) (badd (bsub vg 8) (Z.land (Z.shiftr b2 4) 15)))
                  (badd (px1 px) vg)
                  (badd (px2 px) (badd (bsub vg 8) (Z.land b2 15)))
                  (px3 px),
             run)
    end
  else if Z.land b1 qoi_MASK_2 =? qoi_RUN then
    inr (rd, px, Z.land b1 63)
  else
    inr (rd, mkpx 255 0 255 255, run). (* should not happen *)

(** The [else] branch: read a tag, dispatch, then store the pixel in the cache. *)
Definition read_chunk (st : dec_state) : step_result :=
  match d_rd st with
  | [] => StepEOF
  | b1 :: rd =>
      match dispatch b1 rd (d_index st) (d_px st) (d_run st) with
      | inl e => StepErr e
      | inr (rd', px, run) =>
          StepOk (mkDec rd' (index_set (d_index st) (slot px) px) px run)
      end
  end.

Definition decode_step (st : dec_state) : step_result :=
  if d_run st >? 0
  then StepOk (mkDec (d_rd st) (d_index st) (d_px st) (d_run st - 1))
  else read_chunk st.

Inductive decode_error : Type :=
| ErrCouldNotDecodeHeader (e : header_error) (* "could not decode header: %w" *)
| ErrHeader (e : header_error)               (* the header error, unwrapped *)
| ErrDestTooSmall (size total : Z)           (* "dest of size %d bytes cannot fit ..." *)
| ErrUnexpectedEOFAfter (decoded expected : Z) (* "unexpected EOF after %d pixels: expected %d" *)
| ErrRead (e : io_error).                    (* io.EOF / io.ErrUnexpectedEOF, verbatim *)

(** [copy(dest[:bytesPerPixel], px[:bytesPerPixel])]: [None] when [dest] is
    shorter than [bytesPerPixel] (the slice expression panics). *)
Definition copy_px (bytesPerPixel : Z) (px : pixel) (dest : list Z) : option (list Z * list Z) :=
  let n := Z.to_nat bytesPerPixel in
  if (length dest <? n)%nat then None
  else Some (firstn n (px_bytes px), skipn n dest).

(** ** The byte-buffer codec *)

Module Qoi.

(** What a call of [Decode] returns ... *)
Record Decoded : Type := mkDecoded {
  bytesWritten : Z;
  r_width : Z;
  r_height : Z;
  includesAlpha : bool;
  err : option decode_error
}.

(** ... and what it leaves behind: the caller's buffer [dest] and the bytes
    the decoder has not taken from the reader.  (Once the decode loop runs,
    the 250-byte [bufio.Reader] may have fetched more from the underlying
    reader than the decoder took; before that, [reader_after] is exactly the
    state of the underlying reader.) *)
Record DecodeOut : Type := mkOut {
  ret : Decoded;
  dest_after : list Z;
  reader_after : list Z
}.

Section Loop.
Variable header : Header.
Variable numPixels : Z.
Variable bytesPerPixel : Z.

Definition fail (numDecodedPixels : Z) (e : decode_error) : Decoded :=
  mkDecoded (u32 (numDecodedPixels * u32 bytesPerPixel)) (width header)
            (height header) (channels header =? 4) (Some e).

(** [for numDecodedPixels < numPixels { ... }]: the counter goes up by one
    in every iteration that does not return, so the loop runs once per
    missing pixel; [todo] counts them.  [written] holds the bytes already
    stored, in front of the slice [dest]. *)
Fixpoint decode_loop (todo : nat) (st : dec_state) (numDecodedPixels : Z)
    (written dest : list Z) : outcome DecodeOut :=
  match todo with
  | O =>
      Returned (mkOut
        (mkDecoded (u32 (numDecodedPixels * u32 bytesPerPixel)) (width header)
                   (height header) (channels header =? 4) None)
        (written ++ dest) (d_rd st))
  | S todo' =>
      match decode_step st with
      | StepEOF =>
          Returned (mkOut
            (fail numDecodedPixels (ErrUnexpectedEOFAfter numDecodedPixels numPixels))
            (written ++ dest) [])
      | StepErr e =>
          Returned (mkOut (fail numDecodedPixels (ErrRead e)) (written ++ dest) [])
      | StepOk st' =>
          let numDecodedPixels := u32 (numDecodedPixels + 1) in
          match copy_px bytesPerPixel (d_px st') dest with
          | None => Panicked
          | Some (stored, dest') =>
              decode_loop todo' st' numDecodedPixels (written ++ stored) dest'
          end
      end
  end.
End Loop.

Definition Decode (reader dest : list Z) : outcome DecodeOut :=
  match DecodeHeader reader with
  | inl e =>
      Returned (mkOut (mkDecoded 0 0 0 false (Some (ErrCouldNotDecodeHeader e)))
                      dest (skipn 14 reader))
  | inr (header, reader) =>
      let numPixels := u32 (width header * height header) in
      if numPixels =? 0 then
        Returned (mkOut (mkDecoded 0 0 0 false None) dest reader)
      else
        let bytesPerPixel := channels header in
        if numPixels >? u32 (Z.of_nat (length dest)) / u32 bytesPerPixel then
          Returned (mkOut
            (mkDecoded 0 0 0 false
               (Some (ErrDestTooSmall (Z.of_nat (length dest))
                                      (u32 (numPixels * u32 bytesPerPixel)))))
            dest reader)
        else
          decode_loop header numPixels bytesPerPixel (Z.to_nat numPixels)
                      (dec_init reader) 0 [] dest
  end.

(** The pixel the raster loop reads at column [x] of row [y]. *)
Definition src_pixel (src : list Z) (width bytesPerPixel : Z) (hasAlpha : bool)
    (x y : Z) : option pixel :=
  let i := i64 (i64 (i64 (y * width) + x) * bytesPerPixel) in
  match slice_get src i, slice_get src (i64 (i + 1)), slice_get src (i64 (i + 2)) with
  | Some r, Some g, Some b =>
      if hasAlpha then
        match slice_get src (i64 (i + 3)) with
        | Some a => Some (mkpx r g b a)
        | None => None
        end
      else Some (mkpx r g b 255)
  | _, _, _ => None
  end.

(** [Encode]: the bytes handed to the writer, or the error returned (in which
    case nothing has been flushed to the writer). *)
Definition Encode (src : list Z) (width height : Z) : outcome (encode_error + list Z) :=
  let numPixels := i64 (width * height) in
  if numPixels =? 0 then Returned (inl ErrBadImageSize0)
  else if numPixels >=? qoiPixelsMax then Returned (inl ErrTooManyPixels)
  else
    let bytesPerPixel := u8 (Z.quot (Z.of_nat (length src)) (i64 (width * height))) in
    if negb (i64 (i64 (width * height) * bytesPerPixel) =? Z.of_nat (length src))
       || (negb (bytesPerPixel =? 3) && negb (bytesPerPixel =? 4))
    then Returned (inl ErrNeither3Nor4)
    else
      let hasAlpha := bytesPerPixel =? 4 in
      let widthMinusOne := i64 (width - 1) in
      let heightMinusOne := i64 (height - 1) in
      match encode_rows (src_pixel src width bytesPerPixel hasAlpha)
                        widthMinusOne heightMinusOne
                        (Z.to_nat height) 0 0 (Z.to_nat width) enc_init [] with
      | None => Panicked
      | Some (_, chunks) =>
          Returned (inr (header_bytes width height bytesPerPixel
                         ++ concat chunks ++ padding))
      end.

End Qoi.

(** ** The image-based codec *)

Module QoiImage.

(** [image.go] *)
Record Image : Type := mkImage {
  Pix : list Z;
  Width : Z;
  Height : Z;
  Channels : Z;
  Colorspace : Z
}.

(** [color.NRGBA] *)
Record NRGBA : Type := mkNRGBA { cR : Z; cG : Z; cB : Z; cA : Z }.

(** The method [At] of [Image]; [None] when an index into [Pix] is out of range. *)
Definition Image_At (img : Image) (x y : Z) : option NRGBA :=
  let i := i64 (i64 (i64 (y * Width img) + x) * Channels img) in
  match slice_get (Pix img) i, slice_get (Pix img) (i64 (i + 1)),
        slice_get (Pix img) (i64 (i + 2)) with
  | Some r, Some g, Some b =>
      if Channels img =? 4 then
        match slice_get (Pix img) (i64 (i + 3)) with
        | Some a => Some (mkNRGBA r g b a)
        | None => None
        end
      else Some (mkNRGBA r g b 255)
  | _, _, _ => None
  end.

(** An [image.Image] as the codec sees it: its bounds, its pixels, which are
    [color.NRGBA] values as those of [Image] are, and the result of its
    [Opaque()] method when its type has one. *)
Record Rectangle : Type := mkRect { MinX : Z; MinY : Z; MaxX : Z; MaxY : Z }.

Record image_Image : Type := mkSource {
  Bounds : Rectangle;
  At : Z -> Z -> NRGBA;
  Opaque : option bool
}.

(** The alpha that [color.NRGBA.RGBA()] returns: [a |= a << 8]. *)
Definition RGBA_alpha (c : NRGBA) : Z := Z.lor (cA c) (Z.shiftl (cA c) 8).

(** [util.go] *)
Section IsOpaque.
Variable im : image_Image.

Fixpoint opaque_row (cols : nat) (x y : Z) : bool :=
  match cols with
  | O => true
  | S cols' =>
      if negb (RGBA_alpha (At im x y) =? 65535) then false
      else opaque_row cols' (x + 1) y
  end.

Fixpoint opaque_rows (rows : nat) (y : Z) (x0 : Z) (cols : nat) : bool :=
  match rows with
  | O => true
  | S rows' =>
      if opaque_row cols x0 y then opaque_rows rows' (y + 1) x0 cols else false
  end.

Definition isOpaqueImage : bool :=
  match Opaque im with
  | Some b => b
  | None =>
      let rect := Bounds im in
      opaque_rows (Z.to_nat (MaxY rect - MinY rect)) (MinY rect) (MinX rect)
                  (Z.to_nat (MaxX rect - MinX rect))
  end.
End IsOpaque.

(** [decodeBody]: the error returned, the slice [dest] as the call leaves it,
    and the bytes not taken from the reader. *)
Section Body.
Variable numPixels : Z.
Variable bytesPerPixel : Z.

Fixpoint body_loop (todo : nat) (st : dec_state) (numDecodedPixels : Z)
    (written dest : list Z) : outcome (option decode_error * list Z * list Z) :=
  match todo with
  | O => Returned (None, written ++ dest, d_rd st)
  | S todo' =>
      match decode_step st with
      | StepEOF =>
          Returned (Some (ErrUnexpectedEOFAfter numDecodedPixels numPixels),
                    written ++ dest, [])
      | StepErr e => Returned (Some (ErrRead e), written ++ dest, [])
      | StepOk st' =>
          match copy_px bytesPerPixel (d_px st') dest with
          | None => Panicked
          | Some (stored, dest') =>
              body_loop todo' st' (i64 (numDecodedPixels + 1)) (written ++ stored) dest'
          end
      end
  end.
End Body.

Definition decodeBody (r dest : list Z) (bytesPerPixel stride : Z)
  : outcome (option decode_error * list Z * list Z) :=
  if bytesPerPixel =? 0 then Panicked   (* integer divide by zero *)
  else
    let numPixels := Z.quot (Z.of_nat (length dest)) bytesPerPixel in
    body_loop numPixels bytesPerPixel (Z.to_nat numPixels) (dec_init r) 0 [] dest.

(** What [Decode] and [DecodeIntoBuffer] return and leave behind. *)
Record Result : Type := mkResult {
  image : option Image;
  error : option decode_error;
  buffer_after : list Z;   (* the caller's [dest] ([[]] for [Decode]) *)
  stream_after : list Z
}.

Definition Decode (reader : list Z) : outcome Result :=
  match DecodeHeader reader with
  | inl e => Returned (mkResult None (Some (ErrHeader e)) [] (skipn 14 reader))
  | inr (header, reader) =>
      let pix :=
        repeat 0 (Z.to_nat (u32 (u32 (width header * height header) * u32 (channels header)))) in
      let img := mkImage pix (width header) (height header) (channels header)
                         (colorspace header) in
      match decodeBody reader pix (Channels img) (i64 (Width img * Channels img)) with
      | Panicked => Panicked
      | Returned (e, pix', rest) =>
          Returned (mkResult
            (Some (mkImage pix' (Width img) (Height img) (Channels img) (Colorspace img)))
            e [] rest)
      end
  end.

Definition DecodeIntoBuffer (r dest : list Z) : outcome Result :=
  match DecodeHeader r with
  | inl e =>
      Returned (mkResult None (Some (ErrCouldNotDecodeHeader e)) dest (skipn 14 r))
  | inr (header, r) =>
      let numPixels := u32 (width header * height header) in
      if numPixels =? 0 then Returned (mkResult None None dest r)
      else
        let bytesPerPixel := channels header in
        if i64 (numPixels * bytesPerPixel) >? Z.of_nat (length dest) then
          Returned (mkResult None
            (Some (ErrDestTooSmall (Z.of_nat (length dest)) (i64 (numPixels * bytesPerPixel))))
            dest r)
        else
          let n := Z.to_nat (i64 (numPixels * bytesPerPixel)) in
          let img := mkImage (firstn n dest) (width header) (height header)
                             (channels header) (colorspace header) in
          match decodeBody r (Pix img) (Channels img) (i64 (Width img * Channels img)) with
          | Panicked => Panicked
          | Returned (e, pix', rest) =>
              Returned (mkResult
                (Some (mkImage pix' (Width img) (Height img) (Channels img) (Colorspace img)))
                e (pix' ++ skipn n dest) rest)
          end
  end.

(** [Encode]: [c := color.NRGBAModel.Convert(img.At(x, y)).(color.NRGBA)]
    is the identity on the [color.NRGBA] pixels of [image_Image]. *)
Definition Encode (img : image_Image) : outcome (encode_error + list Z) :=
  let minX := MinX (Bounds img) in
  let maxX := MaxX (Bounds img) in
  let minY := MinY (Bounds img) in
  let maxY := MaxY (Bounds img) in
  let width := i64 (maxX - minX) in
  let height := i64 (maxY - minY) in
  let numPixels := i64 (width * height) in
  if numPixels =? 0 then Returned (inl ErrBadImageSize0)
  else if numPixels >=? qoiPixelsMax then Returned (inl ErrTooManyPixels)
  else
    let bytesPerPixel := if negb (isOpaqueImage img) then i64 (3 + 1) else 3 in
    let widthMinusOne := i64 (width - 1) in
    let heightMinusOne := i64 (height - 1) in
    let fetch x y :=
      let c := At img x y in Some (mkpx (cR c) (cG c) (cB c) (cA c)) in
    match encode_rows fetch widthMinusOne heightMinusOne
                      (Z.to_nat (maxY - minY)) minY minX (Z.to_nat (maxX - minX))
                      enc_init [] with
    | None => Panicked
    | Some (_, chunks) =>
        Returned (inr (header_bytes width height (u8 bytesPerPixel)
                       ++ concat chunks ++ padding))
    end.

End QoiImage.

(** * Derived notions, used to state and prove the properties *)

(** ** Folds of the two steps *)

(** The bytes the decode loops store for one pixel: [px[:bytesPerPixel]]. *)
Definition px_out (bytesPerPixel : Z) (p : pixel) : list Z :=
  firstn (Z.to_nat bytesPerPixel) (px_bytes p).

(** The pixels produced by [todo] iterations of the decoder step, and how the
    iterations ended. *)
Fixpoint decode_pixels (todo : nat) (st : dec_state) : list pixel * step_result :=
  match todo with
  | O => ([], StepOk st)
  | S todo' =>
      match decode_step st with
      | StepOk st' =>
          let '(ps, r) := decode_pixels todo' st' in (d_px st' :: ps, r)
      | r => ([], r)
      end
  end.

Definition is_nil {A : Type} (l : list A) : bool :=
  match l with [] => true | _ :: _ => false end.

(** The encoder step folded over a sequence of pixels; [more] tells that
    further pixels of the image follow the sequence. *)
Fixpoint encode_seq (more : bool) (st : enc_state) (ps : list pixel)
  : list chunk * enc_state :=
  match ps with
  | [] => ([], st)
  | p :: ps' =>
      let '(cs, st1) := encode_pixel st p (is_nil ps' && negb more) in
      let '(cs', st2) := encode_seq more st1 ps' in
      (cs ++ cs', st2)
  end.

(** Consecutive integers [lo, lo+1, ...], [n] of them. *)
Fixpoint zrange (lo : Z) (n : nat) : list Z :=
  match n with
  | O => []
  | S n' => lo :: zrange (lo + 1) n'
  end.

(** The pixel number [i], in raster order, of a buffer with [bytesPerPixel]
    bytes per pixel. *)
Definition flat_pixel (src : list Z) (bytesPerPixel : Z) (hasAlpha : bool) (i : Z) : pixel :=
  let o := Z.to_nat (i * bytesPerPixel) in
  mkpx (nth o src 0) (nth (o + 1) src 0) (nth (o + 2) src 0)
       (if hasAlpha then nth (o + 3) src 0 else 255).

(** The first [n] pixels of a buffer. *)
Definition pixels_of (src : list Z) (bytesPerPixel : Z) (hasAlpha : bool) (n : nat)
  : list pixel :=
  map (flat_pixel src bytesPerPixel hasAlpha) (zrange 0 n).

(** The pixel of an [image.Image] as the encoder takes it, and the pixels of
    an image with bounds (0,0)-(w,h) in raster order. *)
Definition image_pixel (img : QoiImage.image_Image) (x y : Z) : pixel :=
  let c := QoiImage.At img x y in
  mkpx (QoiImage.cR c) (QoiImage.cG c) (QoiImage.cB c) (QoiImage.cA c).

Definition image_pixels (img : QoiImage.image_Image) (w : Z) (n : nat) : list pixel :=
  map (fun i => image_pixel img (i mod w) (i / w)) (zrange 0 n).

Definition wf_color (c : QoiImage.NRGBA) : Prop :=
  is_byte (QoiImage.cR c) /\ is_byte (QoiImage.cG c) /\
  is_byte (QoiImage.cB c) /\ is_byte (QoiImage.cA c).

Definition set_rd (st : dec_state) (rd : list Z) : dec_state :=
  mkDec rd (d_index st) (d_px st) (d_run st).

Definition is_failure (r : step_result) : bool :=
  match r with
  | StepOk _ => false
  | _ => true
  end.

(** ** What the decode loops return *)

(** What the loop of [Decode] returns after the pixels [ps], when the
    iterations ended as [r] says. *)
Definition loop_result (header : Header) (numPixels c : Z) (n : Z)
    (written dest : list Z) (ps : list pixel) (r : step_result) : Qoi.DecodeOut :=
  let n' := n + Z.of_nat (length ps) in
  let buf := written ++ flat_map (px_out c) ps ++ skipn (length ps * Z.to_nat c) dest in
  match r with
  | StepOk st' =>
      Qoi.mkOut (Qoi.mkDecoded (u32 (n' * u32 c)) (width header) (height header)
                               (channels header =? 4) None) buf (d_rd st')
  | StepEOF =>
      Qoi.mkOut (Qoi.fail header c n' (ErrUnexpectedEOFAfter n' numPixels)) buf []
  | StepErr e => Qoi.mkOut (Qoi.fail header c n' (ErrRead e)) buf []
  end.

(** What [decodeBody] returns after the pixels [ps], when the iterations ended
    as [r] says. *)
Definition body_result (numPixels c : Z) (n : Z) (written dest : list Z)
    (ps : list pixel) (r : step_result) : option decode_error * list Z * list Z :=
  let n' := n + Z.of_nat (length ps) in
  let buf := written ++ flat_map (px_out c) ps ++ skipn (length ps * Z.to_nat c) dest in
  match r with
  | StepOk st' => (None, buf, d_rd st')
  | StepEOF => (Some (ErrUnexpectedEOFAfter n' numPixels), buf, [])
  | StepErr e => (Some (ErrRead e), buf, [])
  end.

(** The error of a read that finds the stream [r] ended: [io.EOF] when the
    field, which starts at offset [k], has no byte at all. *)
Definition cut_at (r : list Z) (k : nat) : io_error :=
  if (length r =? k)%nat then EOF else ErrUnexpectedEOF.

(** Errors that report an input that ended too early. *)
Definition truncated_stream (e : decode_error) : bool :=
  match e with
  | ErrCouldNotDecodeHeader (ErrReadMagic _)
  | ErrCouldNotDecodeHeader (ErrReadWidth _)
  | ErrCouldNotDecodeHeader (ErrReadHeight _)
  | ErrCouldNotDecodeHeader (ErrReadChannels _)
  | ErrCouldNotDecodeHeader (ErrReadColorspace _) => true
  | ErrUnexpectedEOFAfter _ _ => true
  | ErrRead _ => true
  | _ => false
  end.

(** ** Chunks and their bit-level packing *)

(** A RUN chunk: one byte with the two top bits set.  (The literal tags
    [0xFE] and [0xFF] open chunks of four and five bytes.) *)
Definition is_run_chunk (c : chunk) : bool :=
  match c with
  | [b] => Z.land b qoi_MASK_2 =? qoi_RUN
  | _ => false
  end.

(** The 6-bit value of a one-byte chunk. *)
Definition chunk_value (c : chunk) : Z := Z.land (hd 0 c) 63.

Definition count_run_chunks (cs : list chunk) : nat := length (filter is_run_chunk cs).

(** The case of the decoder's [switch] that a tag byte selects. *)
Inductive tag : Type := TRGB | TRGBA | TINDEX | TDIFF | TLUMA | TRUN | TNONE.

Definition tag_of (b1 : Z) : tag :=
  if b1 =? qoi_RGB then TRGB
  else if b1 =? qoi_RGBA then TRGBA
  else if Z.land b1 qoi_MASK_2 =? qoi_INDEX then TINDEX
  else if Z.land b1 qoi_MASK_2 =? qoi_DIFF then TDIFF
  else if Z.land b1 qoi_MASK_2 =? qoi_LUMA then TLUMA
  else if Z.land b1 qoi_MASK_2 =? qoi_RUN then TRUN
  else TNONE.

Definition tag_eqb (a b : tag) : bool :=
  match a, b with
  | TRGB, TRGB | TRGBA, TRGBA | TINDEX, TINDEX | TDIFF, TDIFF
  | TLUMA, TLUMA | TRUN, TRUN | TNONE, TNONE => true
  | _, _ => false
  end.

(** The bytes the encoder writes for a DIFF and for a LUMA chunk. *)
Definition diff_byte (vr vg vb : Z) : Z :=
  Z.lor qoi_DIFF
    (u8 (Z.lor (Z.lor (i8 (Z.shiftl (i8 (vr + 2)) 4)) (i8 (Z.shiftl (i8 (vg + 2)) 2)))
               (i8 (vb + 2)))).

Definition luma_byte1 (vg : Z) : Z := Z.lor qoi_LUMA (u8 (i8 (vg + 32))).

Definition luma_byte2 (vg_r vg_b : Z) : Z :=
  Z.lor (u8 (i8 (Z.shiftl (i8 (vg_r + 8)) 4))) (u8 (i8 (vg_b + 8))).

(** The encoder's branch for a pixel that differs from the previous one, after
    the pending run is flushed: the chunk written and the cache afterwards. *)
Definition new_pixel_chunk (index : index_t) (px_prev px : pixel) : chunk * index_t :=
  let index_pos := slot px in
  if pixel_eqb (index_get index index_pos) px then
    ([Z.lor qoi_INDEX index_pos], index)
  else
    let index := index_set index index_pos px in
    if px3 px =? px3 px_prev then
      let vr := i8 (px0 px - px0 px_prev) in
      let vg := i8 (px1 px - px1 px_prev) in
      let vb := i8 (px2 px - px2 px_prev) in
      let vg_r := i8 (vr - vg) in
      let vg_b := i8 (vb - vg) in
      if (vr >? -3) && (vr <? 2) && (vg >? -3) && (vg <? 2) && (vb >? -3) && (vb <? 2) then
        ([diff_byte vr vg vb], index)
      else if (vg_r >? -9) && (vg_r <? 8) && (vg >? -33) && (vg <? 32)
              && (vg_b >? -9) && (vg_b <? 8) then
        ([luma_byte1 vg; luma_byte2 vg_r vg_b], index)
      else ([qoi_RGB; px0 px; px1 px; px2 px], index)
    else ([qoi_RGBA; px0 px; px1 px; px2 px; px3 px], index).

(** A bounded universal quantifier that computes. *)
Fixpoint forall_range (lo : Z) (n : nat) (f : Z -> bool) : bool :=
  match n with
  | O => true
  | S n' => f lo && forall_range (lo + 1) n' f
  end.

(** Exhaustive checks of the bit-level packing, over the finite ranges the
    encoder uses. *)
Definition diff_ok (vr vg vb : Z) : bool :=
  let b := diff_byte vr vg vb in
  tag_eqb (tag_of b) TDIFF
  && (Z.land (Z.shiftr b 4) 3 =? vr + 2)
  && (Z.land (Z.shiftr b 2) 3 =? vg + 2)
  && (Z.land b 3 =? vb + 2)
  && (b <? 128)
  && negb (is_run_chunk [b]).

Definition luma1_ok (vg : Z) : bool :=
  let b := luma_byte1 vg in
  tag_eqb (tag_of b) TLUMA && (Z.land b 63 =? vg + 32) && (b =? qoi_LUMA + (vg + 32)).

Definition luma2_ok (vg_r vg_b : Z) : bool :=
  let b := luma_byte2 vg_r vg_b in
  (Z.land (Z.shiftr b 4) 15 =? vg_r + 8) && (Z.land b 15 =? vg_b + 8) && is_byteb b
  && (b =? (vg_r + 8) * 16 + (vg_b + 8)).

Definition run_ok (run : Z) : bool :=
  let b := Z.lor qoi_RUN (u8 (run - 1)) in
  tag_eqb (tag_of b) TRUN && (Z.land b 63 =? run - 1) && (b <? 254) && (192 <=? b).

Definition index_ok (pos : Z) : bool :=
  let b := Z.lor qoi_INDEX pos in
  tag_eqb (tag_of b) TINDEX && (b =? pos) && negb (is_run_chunk [b]).

(** ** Invariants *)

(** What the encoder and the decoder agree on between two pixels: both caches
    have 64 slots; a slot in which the encoder finds a pixel under its own
    hash holds the same pixel in the decoder; and the encoder's slot of the
    previous pixel does not hold another pixel of that slot. *)
Definition codec_inv (E D : index_t) (prev : pixel) : Prop :=
  length E = 64%nat /\ length D = 64%nat /\
  (forall p, index_get E (slot p) = p -> index_get D (slot p) = p) /\
  (slot (index_get E (slot prev)) = slot prev -> index_get E (slot prev) = prev).

(** What the decoder needs to hold between two iterations for the cache to
    contain the pixel of a pending run. *)
Definition dec_inv (st : dec_state) : Prop :=
  length (d_index st) = 64%nat /\
  (d_run st > 0 -> index_get (d_index st) (slot (d_px st)) = d_px st).

(** States the decoder reaches from the start of a stream. *)
Inductive reachable (rd : list Z) : dec_state -> Prop :=
| reach_init : reachable rd (dec_init rd)
| reach_step st st' :
    reachable rd st -> decode_step st = StepOk st' -> reachable rd st'.

(** ** The decoder with an unconditional cache write *)

(** The decoder step as the specification words it: the chunk, if one is
    read, is dispatched first, and the cache is then written with the pixel of
    the iteration whether or not a chunk was read. *)
Definition decode_step_spec (st : dec_state) : step_result :=
  let after :=
    if d_run st >? 0
    then inr (d_rd st, d_px st, d_run st - 1)
    else
      match d_rd st with
      | [] => inl None
      | b1 :: rd =>
          match dispatch b1 rd (d_index st) (d_px st) (d_run st) with
          | inl e => inl (Some e)
          | inr r => inr r
          end
      end in
  match after with
  | inl None => StepEOF
  | inl (Some e) => StepErr e
  | inr (rd, px, run) => StepOk (mkDec rd (index_set (d_index st) (slot px) px) px run)
  end.

Fixpoint decode_pixels_spec (todo : nat) (st : dec_state) : list pixel * step_result :=
  match todo with
  | O => ([], StepOk st)
  | S todo' =>
      match decode_step_spec st with
      | StepOk st' =>
          let '(ps, r) := decode_pixels_spec todo' st' in (d_px st' :: ps, r)
      | r => ([], r)
      end
  end.

(** ** Concrete inputs *)

(** The stream of the 1x1 opaque black image. *)
Definition black_1x1 : list Z :=
  [113; 111; 105; 102; 0; 0; 0; 1; 0; 0; 0; 1; 3; 0;  (* header *)
   192;                                               (* RUN, value 0 *)
   0; 0; 0; 0; 0; 0; 0; 1].                           (* terminator *)

(** The 1x1 image whose pixel is opaque black, as an [image.Image] without an
    [Opaque()] method. *)
Definition black_image : QoiImage.image_Image :=
  QoiImage.mkSource (QoiImage.mkRect 0 0 1 1)
                    (fun _ _ => QoiImage.mkNRGBA 0 0 0 255) None.

(** The stream [Encode] writes for the RGBA buffer of one opaque black pixel. *)
Definition black_rgba_1x1 : list Z :=
  [113; 111; 105; 102; 0; 0; 0; 1; 0; 0; 0; 1; 4; 0; 192; 0; 0; 0; 0; 0; 0; 0; 1].

(** A buffer of 400,000,000 black RGB pixels. *)
Definition ceiling_src : list Z := repeat 0 (Z.to_nat 1200000000).

(** A 63x1 RGB image: 62 pixels (1,1,1), then (2,2,2). *)
Definition run62_src : list Z := concat (repeat [1; 1; 1] 62) ++ [2; 2; 2].

(** A stream whose header announces 2147483649 x 2 RGB pixels, followed by a
    literal pixel and a run of one more, and a destination of 6 bytes. *)
Definition wrap_stream : list Z :=
  [113; 111; 105; 102; 128; 0; 0; 1; 0; 0; 0; 2; 3; 0; 254; 1; 2; 3; 192]
  ++ [0; 0; 0; 0; 0; 0; 0; 1].

Definition wrap_dest : list Z := [9; 9; 9; 9; 9; 9].

(** * The rest of the image-based package and its tests *)

(** ** [DecodeConfig], [decode] and the methods of [Image] *)

(** [color.Model]: the codec only ever names [color.NRGBAModel]. *)
Inductive color_Model : Type := NRGBAModel.

(** [image.Config] *)
Record image_Config : Type := mkConfig {
  cfg_ColorModel : color_Model;
  cfg_Width : Z;
  cfg_Height : Z
}.

(** [DecodeConfig]: the header's error as it is, or the configuration. *)
Definition DecodeConfig (reader : list Z) : header_error + image_Config :=
  match DecodeHeader reader with
  | inl e => inl e
  | inr (header, _) => inr (mkConfig NRGBAModel (width header) (height header))
  end.

(** [decode], the function registered with [image.RegisterFormat]. *)
Definition decode (r : list Z) : outcome QoiImage.Result := QoiImage.Decode r.

(** [image.Rect] of the standard library: the rectangle with the two corners,
    its coordinates put in order. *)
Definition image_Rect (x0 y0 x1 y1 : Z) : QoiImage.Rectangle :=
  let '(x0, x1) := if x0 >? x1 then (x1, x0) else (x0, x1) in
  let '(y0, y1) := if y0 >? y1 then (y1, y0) else (y0, y1) in
  QoiImage.mkRect x0 y0 x1 y1.

(** The methods [ColorModel] and [Bounds] of [Image] ([image.go]). *)
Definition Image_ColorModel (img : QoiImage.Image) : color_Model := NRGBAModel.

Definition Image_Bounds (img : QoiImage.Image) : QoiImage.Rectangle :=
  image_Rect 0 0 (QoiImage.Width img) (QoiImage.Height img).

(** ** [qoi_test.go] *)

Module QoiTest.

(** A [color.Color] as [==] and [!=] see it: an interface value, which is nil
    or holds a dynamic type and a value of that type.  [color.NRGBA] is the
    type of the codec's own pixels; a colour of any other type is kept as
    that type and the data of the value. *)
Record color_type : Type := mkType {
  type_id : Z;
  comparable : bool   (* whether Go can compare two values of the type *)
}.

Inductive color_Color : Type :=
| Color_nil
| Color_NRGBA (c : QoiImage.NRGBA)
| Color_other (ty : color_type) (data : list Z).   (* a type other than color.NRGBA *)

(** An [image.Image] as the tests use one: its bounds and its [At], which may
    panic ([None]), as that of an [Image] does outside its buffer. *)
Record Img : Type := mkImg {
  Bounds : QoiImage.Rectangle;
  At : Z -> Z -> option color_Color
}.

(** An [Image], whose [At] returns [color.NRGBA] values ... *)
Definition of_Image (img : QoiImage.Image) : Img :=
  mkImg (Image_Bounds img)
        (fun x y =>
           match QoiImage.Image_At img x y with
           | Some c => Some (Color_NRGBA c)
           | None => None
           end).

(** ... and a source image whose [At] returns [color.NRGBA] values, as that
    of an [*image.NRGBA] does. *)
Definition of_source (img : QoiImage.image_Image) : Img :=
  mkImg (QoiImage.Bounds img) (fun x y => Some (Color_NRGBA (QoiImage.At img x y))).

(** [Rectangle.Dx] and [Rectangle.Dy] *)
Definition Dx (r : QoiImage.Rectangle) : Z := i64 (QoiImage.MaxX r - QoiImage.MinX r).
Definition Dy (r : QoiImage.Rectangle) : Z := i64 (QoiImage.MaxY r - QoiImage.MinY r).

Definition sameRectDimensions (a b : QoiImage.Rectangle) : bool :=
  (Dx a =? Dx b) && (Dy a =? Dy b).

(** [==] on two [color.NRGBA] values. *)
Definition NRGBA_eqb (c d : QoiImage.NRGBA) : bool :=
  (QoiImage.cR c =? QoiImage.cR d) && (QoiImage.cG c =? QoiImage.cG d)
  && (QoiImage.cB c =? QoiImage.cB d) && (QoiImage.cA c =? QoiImage.cA d).

(** [c == d] on two [color.Color] interface values: they are equal when both
    are nil or when their dynamic types are identical and the values equal;
    comparing two values of one type that is not comparable panics
    ([None]). *)
Definition Color_eq (c d : color_Color) : option bool :=
  match c, d with
  | Color_nil, Color_nil => Some true
  | Color_NRGBA c, Color_NRGBA d => Some (NRGBA_eqb c d)
  | Color_other t v, Color_other t' v' =>
      if type_id t =? type_id t' then
        if comparable t then Some (list_eqb v v') else None
      else Some false
  | _, _ => Some false
  end.

Inductive equals_error : Type :=
| ErrDimensionsNotEqual   (* "dimensions not equal" *)
| ErrImagesNotEqual.      (* "images not equal" *)

Section Equals.
Variables a b : Img.

Fixpoint equals_row (cols : nat) (x y : Z) : outcome (option equals_error) :=
  match cols with
  | O => Returned None
  | S cols' =>
      let aMinX := QoiImage.MinX (Bounds a) in
      let aMinY := QoiImage.MinY (Bounds a) in
      let bMinX := QoiImage.MinX (Bounds b) in
      let bMinY := QoiImage.MinY (Bounds b) in
      match At a (i64 (aMinX + x)) (i64 (aMinY + y)) with
      | None => Panicked
      | Some ca =>
          match At b (i64 (bMinX + x)) (i64 (bMinY + y)) with
          | None => Panicked
          | Some cb =>
              match Color_eq ca cb with
              | None => Panicked
              | Some equal =>
                  if negb equal then Returned (Some ErrImagesNotEqual)
                  else equals_row cols' (x + 1) y
              end
          end
      end
  end.

Fixpoint equals_rows (rows : nat) (y : Z) (cols : nat) : outcome (option equals_error) :=
  match rows with
  | O => Returned None
  | S rows' =>
      match equals_row cols 0 y with
      | Returned None => equals_rows rows' (y + 1) cols
      | r => r
      end
  end.

Definition imageEquals : outcome (option equals_error) :=
  if negb (sameRectDimensions (Bounds a) (Bounds b))
  then Returned (Some ErrDimensionsNotEqual)
  else
    let width := Dx (Bounds a) in
    let height := Dy (Bounds a) in
    equals_rows (Z.to_nat height) 0 (Z.to_nat width).
End Equals.

(** How a test ends: it passes, or [t.Fatal] is called with an error. *)
Inductive verdict : Type :=
| Pass
| FatalEncode (e : encode_error)
| FatalDecode (e : decode_error)
| FatalEquals (e : equals_error).

(** The body of [TestDecode], from [qoi.Encode] on, for an image [img] whose
    [At] returns [color.NRGBA] values (an [*image.NRGBA], which is what
    [png.Decode] returns for an 8-bit RGBA file) in place of the decoded PNG
    file; [image.Decode] finds the format by its magic and calls [decode]. *)
Definition TestDecode (img : QoiImage.image_Image) : outcome verdict :=
  match QoiImage.Encode img with
  | Panicked => Panicked
  | Returned (inl e) => Returned (FatalEncode e)
  | Returned (inr qoiEncode) =>
      match decode qoiEncode with
      | Panicked => Panicked
      | Returned r =>
          match QoiImage.error r with
          | Some e => Returned (FatalDecode e)
          | None =>
              match QoiImage.image r with
              | None => Panicked
              | Some decodeImg =>
                  match imageEquals (of_Image decodeImg) (of_source img) with
                  | Panicked => Panicked
                  | Returned (Some e) => Returned (FatalEquals e)
                  | Returned None => Returned Pass
                  end
              end
          end
      end
  end.

(** The body of [TestDecodeWithBuffer], for such an image again, with its
    buffer of [1024*1024*4] bytes. *)
Definition bigBuf : list Z := repeat 0 (Z.to_nat (1024 * 1024 * 4)).

Definition TestDecodeWithBuffer (img : QoiImage.image_Image) : outcome verdict :=
  match QoiImage.Encode img with
  | Panicked => Panicked
  | Returned (inl e) => Returned (FatalEncode e)
  | Returned (inr qoiEncode) =>
      match QoiImage.DecodeIntoBuffer qoiEncode bigBuf with
      | Panicked => Panicked
      | Returned r =>
          match QoiImage.error r with
          | Some e => Returned (FatalDecode e)
          | None =>
              match QoiImage.image r with
              | None => Panicked
              | Some decodeImg =>
                  match imageEquals (of_Image decodeImg) (of_source img) with
                  | Panicked => Panicked
                  | Returned (Some e) => Returned (FatalEquals e)
                  | Returned None => Returned Pass
                  end
              end
          end
      end
  end.

End QoiTest.

(** Both images can be read at offset (x, y) of their bounds, and hold equal
    colours there: of the same dynamic type and with equal values. *)
Definition same_at (a b : QoiTest.Img) (x y : Z) : Prop :=
  exists ca cb,
    QoiTest.At a (i64 (QoiImage.MinX (QoiTest.Bounds a) + x))
                 (i64 (QoiImage.MinY (QoiTest.Bounds a) + y)) = Some ca /\
    QoiTest.At b (i64 (QoiImage.MinX (QoiTest.Bounds b) + x))
                 (i64 (QoiImage.MinY (QoiTest.Bounds b) + y)) = Some cb /\
    QoiTest.Color_eq ca cb = Some true.

(** * The older codec

    The package kept from the upstream project: another chunk layout
    (QOI_RUN_8, QOI_RUN_16, QOI_DIFF_8, QOI_DIFF_16, QOI_DIFF_24, QOI_COLOR), a
    little-endian header with 16-bit width and height and a size field, and
    [image.RGBA] / [color.RGBA] in place of NRGBA. *)

Module Legacy.

Definition QOI_INDEX : Z := 0.      (* 0b00_000000 *)
Definition QOI_RUN_8 : Z := 64.     (* 0b010_00000 *)
Definition QOI_RUN_16 : Z := 96.    (* 0b011_00000 *)
Definition QOI_DIFF_8 : Z := 128.   (* 0b10_000000 *)
Definition QOI_DIFF_16 : Z := 192.  (* 0b110_00000 *)
Definition QOI_DIFF_24 : Z := 224.  (* 0b1110_0000 *)
Definition QOI_COLOR : Z := 240.    (* 0b1111_0000 *)
Definition QOI_MASK_2 : Z := 192.
Definition QOI_MASK_3 : Z := 224.
Definition QOI_MASK_4 : Z := 240.

Definition QOI_COLOR_HASH (r g b a : Z) : Z :=
  u8 (Z.lxor (Z.lxor (Z.lxor r g) b) a).

Definition u16 (z : Z) : Z := z mod 2 ^ 16.

(** [binary.LittleEndian]: reading and writing 16- and 32-bit values. *)
Definition le_uint16 (b : list Z) : Z :=
  match b with
  | [b0; b1] => Z.lor b0 (Z.shiftl b1 8)
  | _ => 0
  end.

Definition le_put_uint16 (v : Z) : list Z := [u8 v; u8 (Z.shiftr v 8)].

Definition le_put_uint32 (v : Z) : list Z :=
  [u8 v; u8 (Z.shiftr v 8); u8 (Z.shiftr v 16); u8 (Z.shiftr v 24)].

(** [binary.Read(b, binary.LittleEndian, &v)] whose error is dropped: when
    the [n] bytes are not there [v] keeps its zero value and the reader has
    been drained. *)
Definition read_le_ignoring (n : nat) (rd : list Z) : Z * list Z :=
  match ReadFull n rd with
  | inl _ => (0, [])
  | inr (bs, rd') =>
      (fold_right (fun b acc => Z.lor b (Z.shiftl acc 8)) 0 bs, rd')
  end.

(** [b.ReadByte()] *)
Definition ReadByte (rd : list Z) : io_error + (Z * list Z) :=
  match rd with
  | [] => inl EOF
  | b :: rd' => inr (b, rd')
  end.

Inductive error : Type :=
| ErrRead (e : io_error)   (* an error of the reader, returned as it is *)
| ErrBadHeader             (* "bad header" *)
| ErrNotImplemented.       (* "not implemented yet." *)

(** [image.RGBA] and [image.NewRGBA] for a rectangle (0,0)-(w,h) with
    [w, h >= 0]. *)
Record image_RGBA : Type := mkRGBA {
  Pix : list Z;
  Stride : Z;
  Rect : QoiImage.Rectangle
}.

Definition NewRGBA (r : QoiImage.Rectangle) : image_RGBA :=
  let w := QoiImage.MaxX r - QoiImage.MinX r in
  let h := QoiImage.MaxY r - QoiImage.MinY r in
  mkRGBA (repeat 0 (Z.to_nat (4 * w * h))) (4 * w) r.

(** The chunk whose first byte is [b1], read with the reader at [rd]. *)
Definition color_field (b1 bit : Z) (old : Z) (rd : list Z) : io_error + (Z * list Z) :=
  if negb (Z.land b1 bit =? 0) then ReadByte rd else inr (old, rd).

Definition dispatch (b1 : Z) (rd : list Z) (index : index_t) (px : pixel) (run : Z)
  : io_error + (list Z * pixel * Z) :=
  if Z.land b1 QOI_MASK_2 =? QOI_INDEX then
    inr (rd, index_get index (Z.lxor b1 QOI_INDEX), run)
  else if Z.land b1 QOI_MASK_3 =? QOI_RUN_8 then
    inr (rd, px, Z.land b1 31)
  else if Z.land b1 QOI_MASK_3 =? QOI_RUN_16 then
    match ReadByte rd with
    | inl e => inl e
    | inr (b2, rd') =>
        inr (rd', px, u8 (Z.lor (u8 (Z.shiftl (Z.land b1 31) 8)) b2 + 32))
    end
  else if Z.land b1 QOI_MASK_2 =? QOI_DIFF_8 then
    inr (rd,
         mkpx (badd (px0 px) (bsub (Z.land (Z.shiftr b1 4) 3) 1))
              (badd (px1 px) (bsub (Z.land (Z.shiftr b1 2) 3) 1))
              (badd (px2 px) (bsub (Z.land b1 3) 1))
              (px3 px),
         run)
  else if Z.land b1 QOI_MASK_3 =? QOI_DIFF_16 then
    match ReadByte rd with
    | inl e => inl e
    | inr (b2, rd') =>
        inr (rd',
             mkpx (badd (px0 px) (bsub (Z.land b1 31) 15))
                  (badd (px1 px) (bsub (Z.shiftr b2 4) 7))
                  (badd (px2 px) (bsub (Z.land b2 15) 7))
                  (px3 px),
             run)
    end
  else if Z.land b1 QOI_MASK_4 =? QOI_DIFF_24 then
    match ReadByte rd with
    | inl e => inl e
    | inr (b2, rd') =>
        match ReadByte rd' with
        | inl e => inl e
        | inr (b3, rd'') =>
            inr (rd'',
                 mkpx (badd (px0 px)
                         (bsub (Z.lor (u8 (Z.shiftl (Z.land b1 15) 1)) (Z.shiftr b2 7)) 15))
                      (badd (px1 px) (bsub (Z.shiftr (Z.land b2 124) 2) 15))
                      (badd (px2 px)
                         (bsub (Z.lor (u8 (Z.shiftl (Z.land b2 3) 3))
                                      (Z.shiftr (Z.land b3 224) 5)) 15))
                      (badd (px3 px) (bsub (Z.land b3 31) 15)),
                 run)
        end
    end
  else if Z.land b1 QOI_MASK_4 =? QOI_COLOR then
    match color_field b1 8 (px0 px) rd with
    | inl e => inl e
    | inr (r, rd1) =>
        match color_field b1 4 (px1 px) rd1 with
        | inl e => inl e
        | inr (g, rd2) =>
            match color_field b1 2 (px2 px) rd2 with
            | inl e => inl e
            | inr (b, rd3) =>
                match color_field b1 1 (px3 px) rd3 with
                | inl e => inl e
                | inr (a, rd4) => inr (rd4, mkpx r g b a, run)
                end
            end
        end
    end
  else inr (rd, mkpx 255 0 255 255, run).

(** One iteration of the decode loop, up to the [copy]. *)
Definition decode_step (st : dec_state) : step_result :=
  if d_run st >? 0 then
    StepOk (mkDec (d_rd st) (d_index st) (d_px st) (d_run st - 1))
  else
    match ReadByte (d_rd st) with
    | inl _ => StepEOF
    | inr (b1, rd) =>
        match dispatch b1 rd (d_index st) (d_px st) (d_run st) with
        | inl e => StepErr e
        | inr (rd', px, run) =>
            let h := QOI_COLOR_HASH (px0 px) (px1 px) (px2 px) (px3 px) in
            StepOk (mkDec rd' (index_set (d_index st) (h mod 64) px) px run)
        end
    end.

(** [for len(pixels) > 0 { ... }]: [written] holds the bytes of [img.Pix]
    already stored, in front of the slice [pixels]; every iteration takes 4
    bytes off [pixels], so [len(pixels)] iterations are enough. *)
Section Loop.
Variable img : image_RGBA.

Definition finished (written pixels : list Z) : image_RGBA :=
  mkRGBA (written ++ pixels) (Stride img) (Rect img).

Fixpoint decode_loop (fuel : nat) (st : dec_state) (written pixels : list Z)
  : outcome (option image_RGBA * option error) :=
  match fuel with
  | O => Returned (Some (finished written pixels), None)
  | S fuel' =>
      if is_nil pixels then Returned (Some (finished written pixels), None)
      else
        match decode_step st with
        | StepEOF => Returned (Some (finished written pixels), None)
        | StepErr e => Returned (None, Some (ErrRead e))
        | StepOk st' =>
            match copy_px 4 (d_px st') pixels with
            | None => Panicked
            | Some (stored, pixels') =>
                decode_loop fuel' st' (written ++ stored) pixels'
            end
        end
  end.
End Loop.

Definition Decode (r : list Z) : outcome (option image_RGBA * option error) :=
  match ReadFull 4 r with
  | inl e => Returned (None, Some (ErrRead e))
  | inr (header, r1) =>
      if negb (list_eqb header qoiMagic) then Returned (None, Some ErrBadHeader)
      else
        let '(width, r2) := read_le_ignoring 2 r1 in
        let '(height, r3) := read_le_ignoring 2 r2 in
        let '(size, r4) := read_le_ignoring 4 r3 in
        let img := NewRGBA (image_Rect 0 0 width height) in
        decode_loop img (length (Pix img)) (dec_init r4) [] (Pix img)
  end.

(** [DecodeConfig]: "unimplemented". *)
Definition DecodeConfig (r : list Z) : error := ErrNotImplemented.

(** The encoder.  A source image: [At] gives the [color.RGBA] at a point, or
    [None] for a colour of another type, on which the type assertion
    [m.At(x, y).(color.RGBA)] panics. *)
Record source : Type := mkSource {
  Bounds : QoiImage.Rectangle;
  At : Z -> Z -> option pixel
}.

(** A channel as [color.RGBA.RGBA()] returns it: [r |= r << 8]. *)
Definition RGBA16 (v : Z) : Z := Z.lor v (Z.shiftl v 8).

(** The bytes written for a pixel that differs from the previous one. *)
Definition encode_new (index : index_t) (px px_prev : pixel) : list Z * index_t :=
  let px_r := RGBA16 (px0 px) in
  let px_g := RGBA16 (px1 px) in
  let px_b := RGBA16 (px2 px) in
  let px_a := RGBA16 (px3 px) in
  let index_pos :=
    (QOI_COLOR_HASH (u8 (Z.shiftr px_r 8)) (u8 (Z.shiftr px_g 8))
                    (u8 (Z.shiftr px_b 8)) (u8 (Z.shiftr px_a 8))) mod 64 in
  if pixel_eqb (index_get index index_pos) px then
    ([Z.lor QOI_INDEX index_pos], index)
  else
    let index := index_set index index_pos px in
    let vr := Z.shiftr (px_r - RGBA16 (px0 px_prev)) 8 in
    let vg := Z.shiftr (px_g - RGBA16 (px1 px_prev)) 8 in
    let vb := Z.shiftr (px_b - RGBA16 (px2 px_prev)) 8 in
    let va := Z.shiftr (px_a - RGBA16 (px3 px_prev)) 8 in
    if (vr >? -16) && (vr <? 17) && (vg >? -16) && (vg <? 17)
       && (vb >? -16) && (vb <? 17) && (va >? -16) && (va <? 17) then
      if (va =? 0) && (vr >? -2) && (vr <? 3) && (vg >? -2) && (vg <? 3)
         && (vb >? -2) && (vb <? 3) then
        ([Z.lor QOI_DIFF_8
            (u8 (Z.lor (Z.lor (Z.shiftl (vr + 1) 4) (Z.shiftl (vg + 1) 2)) (vb + 1)))],
         index)
      else if (va =? 0) && (vr >? -16) && (vr <? 17) && (vg >? -8) && (vg <? 9)
              && (vb >? -8) && (vb <? 9) then
        ([Z.lor QOI_DIFF_16 (u8 (vr + 15));
          u8 (Z.lor (Z.shiftl (vg + 7) 4) (vb + 7))],
         index)
      else
        ([Z.lor QOI_DIFF_24 (u8 (Z.shiftr (vr + 15) 1));
          u8 (Z.lor (Z.lor (Z.shiftl (vr + 15) 7) (Z.shiftl (vg + 15) 2))
                    (Z.shiftr (vb + 15) 3));
          u8 (Z.lor (Z.shiftl (vb + 15) 5) (va + 15))],
         index)
    else
      let mask := QOI_COLOR in
      let mask := if negb (vr =? 0) then Z.lor mask (Z.shiftl 1 3) else mask in
      let mask := if negb (vg =? 0) then Z.lor mask (Z.shiftl 1 2) else mask in
      let mask := if negb (vb =? 0) then Z.lor mask (Z.shiftl 1 1) else mask in
      let mask := if negb (va =? 0) then Z.lor mask (Z.shiftl 1 0) else mask in
      ([mask]
         ++ (if negb (vr =? 0) then [u8 (Z.shiftr px_r 8)] else [])
         ++ (if negb (vg =? 0) then [u8 (Z.shiftr px_g 8)] else [])
         ++ (if negb (vb =? 0) then [u8 (Z.shiftr px_b 8)] else [])
         ++ (if negb (va =? 0) then [u8 (Z.shiftr px_a 8)] else []),
       index).

(** The bytes written for a run of [run] pixels: one byte below 33, else
    two ([run -= 33]). *)
Definition run_chunk (run : Z) : list Z :=
  if run <? 33 then [Z.lor QOI_RUN_8 (u8 (run - 1))]
  else [Z.lor QOI_RUN_16 (u8 (Z.shiftr (run - 33) 8)); u8 (Z.land (run - 33) 255)].

(** The body of the two raster loops for the pixel [px]. *)
Definition encode_pixel (st : enc_state) (px : pixel) (last_pixel : bool)
  : list Z * enc_state :=
  let same := pixel_eqb px (e_prev st) in
  let run := if same then e_run st + 1 else e_run st in
  let '(flushed, run) :=
    if (run >? 0) && ((run =? 8224) || negb same || last_pixel) then (run_chunk run, 0)
    else ([], run) in
  if negb same then
    let '(bytes, index) := encode_new (e_index st) px (e_prev st) in
    (flushed ++ bytes, mkEnc index px run)
  else (flushed, mkEnc (e_index st) px run).

Section Raster.
Variable m : source.
Variables maxX maxY : Z.

Fixpoint encode_row (cols : nat) (x y : Z) (st : enc_state) (out : list Z)
  : option (enc_state * list Z) :=
  match cols with
  | O => Some (st, out)
  | S cols' =>
      match At m x y with
      | None => None
      | Some px =>
          let last_pixel := (x =? i64 (maxX - 1)) && (y =? i64 (maxY - 1)) in
          let '(bytes, st') := encode_pixel st px last_pixel in
          encode_row cols' (x + 1) y st' (out ++ bytes)
      end
  end.

Fixpoint encode_rows (rows : nat) (y : Z) (x0 : Z) (cols : nat)
    (st : enc_state) (out : list Z) : option (enc_state * list Z) :=
  match rows with
  | O => Some (st, out)
  | S rows' =>
      match encode_row cols x0 y st out with
      | None => None
      | Some (st', out') => encode_rows rows' (y + 1) x0 cols st' out'
      end
  end.
End Raster.

(** [binary.LittleEndian.PutUint16(out.Bytes()[size_pos:], v)] with
    [size_pos = 8]: two bytes of the buffer are overwritten. *)
Definition fix_size (out : list Z) : list Z :=
  firstn 8 out ++ le_put_uint16 (u16 (Z.of_nat (length out) - 12)) ++ skipn 10 out.

(** [Encode]: the bytes handed to the writer (the error returned is always
    nil), or a panic: of [out.Grow] on a negative count, or of the type
    assertion on a pixel. *)
Definition Encode (m : source) : outcome (list Z) :=
  let minX := QoiImage.MinX (Bounds m) in
  let maxX := QoiImage.MaxX (Bounds m) in
  let minY := QoiImage.MinY (Bounds m) in
  let maxY := QoiImage.MaxY (Bounds m) in
  if Z.quot (i64 (i64 (maxX - minX) * i64 (maxY - minY))) 2 <? 0 then Panicked
  else
    let header :=
      qoiMagic ++ le_put_uint16 (u16 (maxX - minX)) ++ le_put_uint16 (u16 (maxY - minY))
               ++ le_put_uint32 0 in
    match encode_rows m maxX maxY (Z.to_nat (maxY - minY)) minY minX
                      (Z.to_nat (maxX - minX)) enc_init header with
    | None => Panicked
    | Some (_, out) => Returned (fix_size (out ++ le_put_uint32 0))
    end.

End Legacy.

(** ** Round trips through the older codec *)

(** A 1x1 image holding the colour [p]. *)
Definition legacy_single (p : pixel) : Legacy.source :=
  Legacy.mkSource (QoiImage.mkRect 0 0 1 1) (fun _ _ => Some p).

(** Encoding [src] and decoding the stream gives an image with the bytes
    [pix] and a nil error. *)
Definition legacy_roundtrip_is (src : Legacy.source) (pix : list Z) : bool :=
  match Legacy.Encode src with
  | Returned stream =>
      match Legacy.Decode stream with
      | Returned (Some img, None) => list_eqb (Legacy.Pix img) pix
      | _ => false
      end
  | Panicked => false
  end.

Definition alpha_loss_check : bool :=
  forall_range 0 17 (fun v =>
  forall_range 241 14 (fun a =>
    legacy_roundtrip_is (legacy_single (mkpx v v v a)) [v; v; v; a - 1])).

(** * Properties *)

(** ** Machine integers, lists *)

Lemma u8_range z : 0 <= u8 z < 256.
Proof. unfold u8. apply Z.mod_pos_bound. lia. Qed.

Lemma u8_small z : 0 <= z < 256 -> u8 z = z.
Proof. intros. unfold u8. apply Z.mod_small. lia. Qed.

Lemma u32_small z : 0 <= z < 2 ^ 32 -> u32 z = z.
Proof. intros. unfold u32. apply Z.mod_small. lia. Qed.

Lemma i64_small z : - 2 ^ 63 <= z < 2 ^ 63 -> i64 z = z.
Proof. intros. unfold i64. rewrite Z.mod_small; lia. Qed.

Lemma i8_small z : -128 <= z < 128 -> i8 z = z.
Proof. intros. unfold i8. rewrite Z.mod_small; lia. Qed.

Lemma land63_range z : 0 <= Z.land z 63 < 64.
Proof.
  change 63 with (Z.ones 6). rewrite Z.land_ones by lia.
  apply Z.mod_pos_bound. lia.
Qed.

Lemma slot_range p : 0 <= slot p < 64.
Proof. apply land63_range. Qed.

Lemma list_set_length {A} (l : list A) n v : length (list_set l n v) = length l.
Proof.
  revert n. induction l as [|h t IH]; intros [|n]; simpl; auto.
Qed.

Lemma nth_list_set_eq {A} (l : list A) n v d :
  (n < length l)%nat -> nth n (list_set l n v) d = v.
Proof.
  revert n. induction l as [|h t IH]; intros [|n] Hn; simpl in *; try lia; auto.
  apply IH. lia.
Qed.

Lemma nth_list_set_neq {A} (l : list A) n m v d :
  n <> m -> nth m (list_set l n v) d = nth m l d.
Proof.
  revert n m. induction l as [|h t IH]; intros [|n] [|m] Hnm; simpl; auto; try lia.
Qed.

Lemma list_set_same {A} (l : list A) n d :
  list_set l n (nth n l d) = l.
Proof.
  revert n. induction l as [|h t IH]; intros [|n]; simpl; auto.
  f_equal. apply IH.
Qed.

Lemma index_get_set_eq ix i v :
  length ix = 64%nat -> 0 <= i < 64 -> index_get (index_set ix i v) i = v.
Proof.
  intros Hl Hi. unfold index_get, index_set.
  apply nth_list_set_eq. lia.
Qed.

Lemma index_get_set_neq ix i j v :
  0 <= i -> 0 <= j -> i <> j -> index_get (index_set ix i v) j = index_get ix j.
Proof.
  intros Hi Hj Hij. unfold index_get, index_set.
  apply nth_list_set_neq. lia.
Qed.

Lemma index_set_length ix i v : length (index_set ix i v) = length ix.
Proof. apply list_set_length. Qed.

Lemma index_set_same ix i : index_set ix i (index_get ix i) = ix.
Proof. apply list_set_same. Qed.

Lemma pixel_eqb_eq p q : pixel_eqb p q = true <-> p = q.
Proof.
  destruct p, q. unfold pixel_eqb. simpl.
  rewrite !andb_true_iff, !Z.eqb_eq.
  split; [intros [[[-> ->] ->] ->]; reflexivity | intros [= -> -> -> ->]; auto].
Qed.

Lemma pixel_eqb_refl p : pixel_eqb p p = true.
Proof. apply pixel_eqb_eq. reflexivity. Qed.

Lemma pixel_eqb_neq p q : pixel_eqb p q = false <-> p <> q.
Proof.
  rewrite <- pixel_eqb_eq. destruct (pixel_eqb p q); split; congruence.
Qed.

Lemma forall_range_spec f n lo :
  forall_range lo n f = true ->
  forall z, lo <= z < lo + Z.of_nat n -> f z = true.
Proof.
  revert lo. induction n as [|n IH]; intros lo H z Hz; simpl in *; [lia|].
  apply andb_true_iff in H as [H0 H1].
  destruct (Z.eq_dec z lo) as [-> | Hne]; [exact H0|].
  apply (IH (lo + 1)); [exact H1 | lia].
Qed.

Lemma list_eqb_eq a b : list_eqb a b = true <-> a = b.
Proof.
  unfold list_eqb. destruct (list_eq_dec Z.eq_dec a b); split; congruence.
Qed.

(** ** Header codec *)

Lemma ReadFull_short n rd :
  (length rd < n)%nat ->
  ReadFull n rd = inl (if is_nil rd then EOF else ErrUnexpectedEOF).
Proof.
  intros H. unfold ReadFull.
  apply Nat.ltb_lt in H. rewrite H. destruct rd; reflexivity.
Qed.

Lemma ReadFull_app bs rd :
  ReadFull (length bs) (bs ++ rd) = inr (bs, rd).
Proof.
  unfold ReadFull.
  replace (length (bs ++ rd) <? length bs)%nat with false.
  - rewrite firstn_app, Nat.sub_diag, firstn_all, skipn_app, Nat.sub_diag, skipn_all.
    simpl. rewrite app_nil_r. reflexivity.
  - symmetry. apply Nat.ltb_ge. rewrite length_app. lia.
Qed.

(** The header decoder on a stream that has its 14 bytes. *)
Lemma DecodeHeader_full m0 m1 m2 m3 w0 w1 w2 w3 h0 h1 h2 h3 c cs rest :
  DecodeHeader ([m0; m1; m2; m3; w0; w1; w2; w3; h0; h1; h2; h3; c; cs] ++ rest) =
    if negb (list_eqb [m0; m1; m2; m3] qoiMagic) then inl ErrBadMagic
    else if (c <? 3) || (c >? 4) then inl (ErrInvalidChannels c)
    else if negb (cs =? 0) && negb (cs =? 1) then inl (ErrInvalidColorspace cs)
    else inr (mkHeader [m0; m1; m2; m3] (be_uint32 [w0; w1; w2; w3])
                       (be_uint32 [h0; h1; h2; h3]) c cs, rest).
Proof. reflexivity. Qed.

Lemma DecodeHeader_leaves r h rest :
  DecodeHeader r = inr (h, rest) -> rest = skipn 14 r /\ (14 <= length r)%nat.
Proof.
  do 14 (destruct r as [|? r]; [discriminate|]).
  change (?a :: ?b :: ?c :: ?d :: ?e :: ?f :: ?g :: ?i :: ?j :: ?k :: ?l :: ?m :: ?n :: ?o :: r)
    with ([a; b; c; d; e; f; g; i; j; k; l; m; n; o] ++ r).
  rewrite DecodeHeader_full.
  repeat match goal with |- context [if ?b then _ else _] => destruct b end;
    try discriminate.
  intros [= <- <-]. split; [reflexivity | simpl; lia].
Qed.

Lemma lor_shiftl_add x y n :
  0 <= n -> 0 <= x < 2 ^ n -> Z.lor x (Z.shiftl y n) = y * 2 ^ n + x.
Proof.
  intros Hn Hx.
  rewrite <- Z.shiftl_mul_pow2 by lia.
  rewrite Z.add_comm, <- Z.lxor_lor, <- Z.add_nocarry_lxor.
  - reflexivity.
  - replace x with (x mod 2 ^ n) by (apply Z.mod_small; lia).
    rewrite <- Z.land_ones by lia. Z.bitblast.
    rewrite (Z.testbit_neg_r y l) by lia. apply andb_false_r.
  - replace x with (x mod 2 ^ n) by (apply Z.mod_small; lia).
    rewrite <- Z.land_ones by lia. Z.bitblast.
    rewrite (Z.testbit_neg_r y l) by lia. apply andb_false_r.
Qed.

Lemma be_uint32_bytes a b c d :
  is_byte a -> is_byte b -> is_byte c -> is_byte d ->
  be_uint32 [a; b; c; d] = a * 2 ^ 24 + b * 2 ^ 16 + c * 2 ^ 8 + d.
Proof.
  unfold is_byte, be_uint32. intros Ha Hb Hc Hd.
  rewrite (lor_shiftl_add d c 8), (lor_shiftl_add _ b 16), (lor_shiftl_add _ a 24); lia.
Qed.

Ltac short_header r :=
  do 14 (destruct r as [|? r]; [simpl in *; first [lia | reflexivity]|]);
  simpl in *; lia.

(** C4.  [DecodeHeader] reads the 14 bytes magic(4) width(4) height(4)
    channels(1) colorspace(1), the integers big-endian.  A stream that ends
    inside a field fails with the error of that field (five distinct errors,
    carrying io.EOF when the field has no byte at all and io.ErrUnexpectedEOF
    otherwise); a stream with its 14 bytes fails exactly when the magic is not
    "qoif" (bad magic), else the channel count is outside {3,4}, else the
    colorspace is outside {0,1}, each with its own error; every other header
    is accepted as it is, whatever its width and height, and the reader is
    left right behind the 14 bytes. *)
Theorem DecodeHeader_characterisation : forall r : list Z,
  ((length r < 4)%nat -> DecodeHeader r = inl (ErrReadMagic (cut_at r 0))) /\
  ((4 <= length r < 8)%nat -> DecodeHeader r = inl (ErrReadWidth (cut_at r 4))) /\
  ((8 <= length r < 12)%nat -> DecodeHeader r = inl (ErrReadHeight (cut_at r 8))) /\
  ((length r = 12)%nat -> DecodeHeader r = inl (ErrReadChannels EOF)) /\
  ((length r = 13)%nat -> DecodeHeader r = inl (ErrReadColorspace EOF)) /\
  (forall m0 m1 m2 m3 w0 w1 w2 w3 h0 h1 h2 h3 c cs rest,
     r = [m0; m1; m2; m3; w0; w1; w2; w3; h0; h1; h2; h3; c; cs] ++ rest ->
     ([m0; m1; m2; m3] <> qoiMagic -> DecodeHeader r = inl ErrBadMagic) /\
     ([m0; m1; m2; m3] = qoiMagic -> ~ (c = 3 \/ c = 4) ->
        DecodeHeader r = inl (ErrInvalidChannels c)) /\
     ([m0; m1; m2; m3] = qoiMagic -> c = 3 \/ c = 4 -> ~ (cs = 0 \/ cs = 1) ->
        DecodeHeader r = inl (ErrInvalidColorspace cs)) /\
     ([m0; m1; m2; m3] = qoiMagic -> c = 3 \/ c = 4 -> cs = 0 \/ cs = 1 ->
        DecodeHeader r =
          inr (mkHeader qoiMagic (be_uint32 [w0; w1; w2; w3])
                        (be_uint32 [h0; h1; h2; h3]) c cs, rest) /\
        (Forall is_byte r ->
           be_uint32 [w0; w1; w2; w3] = w0 * 2 ^ 24 + w1 * 2 ^ 16 + w2 * 2 ^ 8 + w3 /\
           be_uint32 [h0; h1; h2; h3] = h0 * 2 ^ 24 + h1 * 2 ^ 16 + h2 * 2 ^ 8 + h3))).
Proof.
  intros r. unfold cut_at.
  split; [intros H; short_header r|].
  split; [intros H; short_header r|].
  split; [intros H; short_header r|].
  split; [intros H; short_header r|].
  split; [intros H; short_header r|].
  intros m0 m1 m2 m3 w0 w1 w2 w3 h0 h1 h2 h3 c cs rest ->.
  rewrite DecodeHeader_full.
  split; [|split; [|split]].
  - intros Hm. destruct (list_eqb [m0; m1; m2; m3] qoiMagic) eqn:E; [|reflexivity].
    apply list_eqb_eq in E. contradiction.
  - intros Hm Hc. apply list_eqb_eq in Hm. rewrite Hm. simpl.
    destruct (c <? 3) eqn:E1; [reflexivity|].
    destruct (c >? 4) eqn:E2; [reflexivity|]. lia.
  - intros Hm Hc Hcs. apply list_eqb_eq in Hm. rewrite Hm. simpl.
    replace (c <? 3) with false by lia. replace (c >? 4) with false by lia. simpl.
    destruct (cs =? 0) eqn:E1; [lia|].
    destruct (cs =? 1) eqn:E2; [lia|]. reflexivity.
  - intros Hm Hc Hcs. split.
    + rewrite <- Hm at 2. apply list_eqb_eq in Hm. rewrite Hm. simpl.
      replace (c <? 3) with false by lia. replace (c >? 4) with false by lia. simpl.
      destruct (cs =? 0) eqn:E1; [reflexivity|].
      destruct (cs =? 1) eqn:E2; [reflexivity|]. lia.
    + intros Hb.
      repeat match goal with
             | H : Forall _ (_ :: _) |- _ => inversion H; subst; clear H
             | H : Forall _ ([_] ++ _) |- _ => simpl in H
             | H : Forall _ ((_ :: _) ++ _) |- _ => simpl in H
             end.
      split; apply be_uint32_bytes; assumption.
Qed.

(** The theorem at the header of a 2x3 RGBA image. *)
Lemma DecodeHeader_characterisation_witness :
  DecodeHeader [113; 111; 105; 102; 0; 0; 0; 2; 0; 0; 0; 3; 4; 1; 192] =
    inr (mkHeader qoiMagic (be_uint32 [0; 0; 0; 2]) (be_uint32 [0; 0; 0; 3]) 4 1, [192]).
Proof.
  destruct (DecodeHeader_characterisation
              [113; 111; 105; 102; 0; 0; 0; 2; 0; 0; 0; 3; 4; 1; 192])
    as (_ & _ & _ & _ & _ & H).
  destruct (H 113 111 105 102 0 0 0 2 0 0 0 3 4 1 [192] eq_refl) as (_ & _ & _ & Hok).
  apply Hok; [reflexivity | right; reflexivity | right; reflexivity].
Defined.

(** ** Bit-level packing of the chunks *)

Lemma tag_eqb_eq a b : tag_eqb a b = true -> a = b.
Proof. destruct a, b; simpl; congruence. Qed.

Lemma diff_facts vr vg vb :
  -2 <= vr <= 1 -> -2 <= vg <= 1 -> -2 <= vb <= 1 -> diff_ok vr vg vb = true.
Proof.
  intros Hr Hg Hb.
  assert (H : forall_range (-2) 4 (fun r =>
              forall_range (-2) 4 (fun g =>
              forall_range (-2) 4 (fun b => diff_ok r g b))) = true)
    by (vm_compute; reflexivity).
  pose proof (forall_range_spec _ _ _ H vr ltac:(simpl; lia)) as H1.
  pose proof (forall_range_spec _ _ _ H1 vg ltac:(simpl; lia)) as H2.
  exact (forall_range_spec _ _ _ H2 vb ltac:(simpl; lia)).
Qed.

Lemma luma1_facts vg : -32 <= vg <= 31 -> luma1_ok vg = true.
Proof.
  intros Hg.
  assert (H : forall_range (-32) 64 luma1_ok = true) by (vm_compute; reflexivity).
  exact (forall_range_spec _ _ _ H vg ltac:(simpl; lia)).
Qed.

Lemma luma2_facts vg_r vg_b :
  -8 <= vg_r <= 7 -> -8 <= vg_b <= 7 -> luma2_ok vg_r vg_b = true.
Proof.
  intros Hr Hb.
  assert (H : forall_range (-8) 16 (fun r =>
              forall_range (-8) 16 (fun b => luma2_ok r b)) = true)
    by (vm_compute; reflexivity).
  pose proof (forall_range_spec _ _ _ H vg_r ltac:(simpl; lia)) as H1.
  exact (forall_range_spec _ _ _ H1 vg_b ltac:(simpl; lia)).
Qed.

Lemma run_facts run : 1 <= run <= 62 -> run_ok run = true.
Proof.
  intros Hr.
  assert (H : forall_range 1 62 run_ok = true) by (vm_compute; reflexivity).
  exact (forall_range_spec _ _ _ H run ltac:(simpl; lia)).
Qed.

Lemma index_facts pos : 0 <= pos < 64 -> index_ok pos = true.
Proof.
  intros Hp.
  assert (H : forall_range 0 64 index_ok = true) by (vm_compute; reflexivity).
  exact (forall_range_spec _ _ _ H pos ltac:(simpl; lia)).
Qed.

(** The switch, case by case. *)
Lemma dispatch_tag b1 rd index px run :
  dispatch b1 rd index px run =
    match tag_of b1 with
    | TRGB =>
        match ReadFull 3 rd with
        | inl e => inl e
        | inr (bs, rd') =>
            inr (rd', mkpx (nth 0 bs 0) (nth 1 bs 0) (nth 2 bs 0) (px3 px), run)
        end
    | TRGBA =>
        match ReadFull 4 rd with
        | inl e => inl e
        | inr (bs, rd') =>
            inr (rd', mkpx (nth 0 bs 0) (nth 1 bs 0) (nth 2 bs 0) (nth 3 bs 0), run)
        end
    | TINDEX => inr (rd, index_get index b1, run)
    | TDIFF =>
        inr (rd,
             mkpx (badd (px0 px) (bsub (Z.land (Z.shiftr b1 4) 3) 2))
                  (badd (px1 px) (bsub (Z.land (Z.shiftr b1 2) 3) 2))
                  (badd (px2 px) (bsub (Z.land b1 3) 2))
                  (px3 px),
             run)
    | TLUMA =>
        match rd with
        | [] => inl EOF
        | b2 :: rd' =>
            let vg := bsub (Z.land b1 63) 32 in
            inr (rd',
                 mkpx (badd (px0 px) (badd (bsub vg 8) (Z.land (Z.shiftr b2 4) 15)))
                      (badd (px1 px) vg)
                      (badd (px2 px) (badd (bsub vg 8) (Z.land b2 15)))
                      (px3 px),
                 run)
        end
    | TRUN => inr (rd, px, Z.land b1 63)
    | TNONE => inr (rd, mkpx 255 0 255 255, run)
    end.
Proof.
  unfold dispatch, tag_of.
  repeat match goal with |- context [if ?c then _ else _] => destruct c end;
    reflexivity.
Qed.

(** Modular arithmetic of the deltas. *)
Lemma diff_arith a p :
  is_byte a -> is_byte p -> -2 <= i8 (p - a) <= 1 ->
  badd a (bsub (i8 (p - a) + 2) 2) = p.
Proof.
  unfold is_byte, badd, bsub, u8, i8. intros. Z.div_mod_to_equations. lia.
Qed.

Lemma luma_arith_g a p :
  is_byte a -> is_byte p -> -32 <= i8 (p - a) <= 31 ->
  badd a (bsub (i8 (p - a) + 32) 32) = p.
Proof.
  unfold is_byte, badd, bsub, u8, i8. intros. Z.div_mod_to_equations. lia.
Qed.

Lemma luma_arith_rb ar pr ag pg :
  is_byte ar -> is_byte pr -> is_byte ag -> is_byte pg ->
  -32 <= i8 (pg - ag) <= 31 -> -8 <= i8 (i8 (pr - ar) - i8 (pg - ag)) <= 7 ->
  badd ar (badd (bsub (bsub (i8 (pg - ag) + 32) 32) 8)
                (i8 (i8 (pr - ar) - i8 (pg - ag)) + 8)) = pr.
Proof.
  unfold is_byte, badd, bsub, u8, i8. intros. Z.div_mod_to_equations. lia.
Qed.

(** ** The encoder step *)

Lemma encode_pixel_eq st px last :
  pixel_eqb px (e_prev st) = true ->
  encode_pixel st px last =
    if (e_run st + 1 =? 62) || last
    then ([run_chunk (e_run st + 1)], mkEnc (e_index st) px 0)
    else ([], mkEnc (e_index st) px (e_run st + 1)).
Proof. intros H. unfold encode_pixel. rewrite H. reflexivity. Qed.

Lemma encode_pixel_neq st px last :
  pixel_eqb px (e_prev st) = false ->
  encode_pixel st px last =
    ((if e_run st >? 0 then [run_chunk (e_run st)] else [])
       ++ [fst (new_pixel_chunk (e_index st) (e_prev st) px)],
     mkEnc (snd (new_pixel_chunk (e_index st) (e_prev st) px)) px
           (if e_run st >? 0 then 0 else e_run st)).
Proof.
  intros H. unfold encode_pixel, new_pixel_chunk, slot, diff_byte, luma_byte1, luma_byte2.
  rewrite H.
  repeat match goal with |- context [if ?c then _ else _] => destruct c end;
    reflexivity.
Qed.

(** ** The cache invariant *)

Lemma codec_inv_init : codec_inv new_index new_index start_pixel.
Proof.
  unfold codec_inv. repeat split; auto.
  vm_compute. discriminate.
Qed.

Lemma snd_new_pixel_chunk E prev p :
  length E = 64%nat ->
  snd (new_pixel_chunk E prev p) = index_set E (slot p) p.
Proof.
  intros HE. unfold new_pixel_chunk.
  destruct (pixel_eqb (index_get E (slot p)) p) eqn:Hhit.
  - apply pixel_eqb_eq in Hhit. simpl.
    transitivity (index_set E (slot p) (index_get E (slot p)));
      [symmetry; apply index_set_same | rewrite Hhit; reflexivity].
  - repeat match goal with |- context [if ?c then _ else _] => destruct c end;
      reflexivity.
Qed.

Lemma codec_inv_store E D prev p :
  codec_inv E D prev ->
  codec_inv (index_set E (slot p) p) (index_set D (slot p) p) p.
Proof.
  intros (HE & HD & H1 & H2).
  pose proof (slot_range p) as Hs.
  unfold codec_inv. rewrite !index_set_length.
  repeat split; auto.
  - intros q Hq. pose proof (slot_range q) as Hsq.
    destruct (Z.eq_dec (slot q) (slot p)) as [e | n].
    + rewrite e in *. rewrite index_get_set_eq in * by assumption. exact Hq.
    + rewrite index_get_set_neq in * by lia. auto.
  - intros _. apply index_get_set_eq; assumption.
Qed.

Lemma codec_inv_rewrite_prev E D prev :
  codec_inv E D prev -> codec_inv E (index_set D (slot prev) prev) prev.
Proof.
  intros (HE & HD & H1 & H2).
  pose proof (slot_range prev) as Hs.
  unfold codec_inv. rewrite !index_set_length.
  repeat split; auto.
  intros q Hq. pose proof (slot_range q) as Hsq.
  destruct (Z.eq_dec (slot q) (slot prev)) as [e | n].
  - rewrite e in *. rewrite index_get_set_eq by assumption.
    symmetry. rewrite <- Hq. apply H2. rewrite Hq. exact e.
  - rewrite index_get_set_neq by lia. auto.
Qed.

(** ** The decoder step on the chunks the encoder writes *)

Lemma andb_split (a b : bool) : a && b = true -> a = true /\ b = true.
Proof. apply andb_true_iff. Qed.

Ltac split_andb :=
  repeat match goal with
         | H : _ && _ = true |- _ => apply andb_split in H; destruct H
         end.

Lemma ReadFull_3 a b c t : ReadFull 3 (a :: b :: c :: t) = inr ([a; b; c], t).
Proof. reflexivity. Qed.

Lemma ReadFull_4 a b c d t : ReadFull 4 (a :: b :: c :: d :: t) = inr ([a; b; c; d], t).
Proof. reflexivity. Qed.

Lemma read_run_chunk run t D px :
  1 <= run <= 62 ->
  read_chunk (mkDec (run_chunk run ++ t) D px 0) =
    StepOk (mkDec t (index_set D (slot px) px) px (run - 1)).
Proof.
  intros Hr. pose proof (run_facts run Hr) as Hok.
  unfold run_ok in Hok. cbv zeta in Hok. split_andb.
  unfold read_chunk, run_chunk. cbn [d_rd d_index d_px d_run app fst snd].
  rewrite dispatch_tag.
  match goal with H : tag_eqb _ _ = true |- _ => apply tag_eqb_eq in H; rewrite H end.
  match goal with H : (Z.land _ 63 =? _) = true |- _ => apply Z.eqb_eq in H; rewrite H end.
  reflexivity.
Qed.

Lemma read_new_pixel_chunk E D prev p t :
  wf_pixel prev -> wf_pixel p -> codec_inv E D prev ->
  read_chunk (mkDec (fst (new_pixel_chunk E prev p) ++ t) D prev 0) =
    StepOk (mkDec t (index_set D (slot p) p) p 0).
Proof.
  intros (Hp0 & Hp1 & Hp2 & Hp3) (Hq0 & Hq1 & Hq2 & Hq3) (HE & HD & H1 & H2).
  unfold new_pixel_chunk.
  destruct (pixel_eqb (index_get E (slot p)) p) eqn:Hhit.
  - (* INDEX *)
    apply pixel_eqb_eq in Hhit.
    pose proof (index_facts (slot p) (slot_range p)) as Hok.
    unfold index_ok in Hok. cbv zeta in Hok. split_andb.
    unfold read_chunk. cbn [d_rd d_index d_px d_run app fst snd]. rewrite dispatch_tag.
    match goal with H : tag_eqb _ _ = true |- _ => apply tag_eqb_eq in H; rewrite H end.
    match goal with H : (Z.lor _ _ =? _) = true |- _ => apply Z.eqb_eq in H; rewrite H end.
    rewrite (H1 p Hhit). reflexivity.
  - destruct (px3 p =? px3 prev) eqn:Ha.
    + apply Z.eqb_eq in Ha.
      set (vr := i8 (px0 p - px0 prev)).
      set (vg := i8 (px1 p - px1 prev)).
      set (vb := i8 (px2 p - px2 prev)).
      destruct ((vr >? -3) && (vr <? 2) && (vg >? -3) && (vg <? 2)
                && (vb >? -3) && (vb <? 2)) eqn:Hd.
      * (* DIFF *)
        split_andb.
        assert (Hr : -2 <= vr <= 1) by lia.
        assert (Hg : -2 <= vg <= 1) by lia.
        assert (Hb : -2 <= vb <= 1) by lia.
        pose proof (diff_facts vr vg vb Hr Hg Hb) as Hok.
        unfold diff_ok in Hok. cbv zeta in Hok. split_andb.
        unfold read_chunk. cbn [d_rd d_index d_px d_run app fst snd]. rewrite dispatch_tag.
        match goal with H : tag_eqb _ _ = true |- _ => apply tag_eqb_eq in H; rewrite H end.
        repeat match goal with
               | H : (Z.land _ 3 =? _) = true |- _ => apply Z.eqb_eq in H; rewrite H
               end.
        subst vr vg vb.
        rewrite !diff_arith by assumption.
        rewrite <- Ha. destruct p; reflexivity.
      * clear Hd.
        destruct ((i8 (vr - vg) >? -9) && (i8 (vr - vg) <? 8) && (vg >? -33) && (vg <? 32)
                  && (i8 (vb - vg) >? -9) && (i8 (vb - vg) <? 8)) eqn:Hl.
        -- (* LUMA *)
           split_andb.
           assert (Hg : -32 <= vg <= 31) by lia.
           assert (Hr : -8 <= i8 (vr - vg) <= 7) by lia.
           assert (Hb : -8 <= i8 (vb - vg) <= 7) by lia.
           pose proof (luma1_facts vg Hg) as Hok1.
           pose proof (luma2_facts _ _ Hr Hb) as Hok2.
           unfold luma1_ok in Hok1. unfold luma2_ok in Hok2. cbv zeta in Hok1, Hok2. split_andb.
           unfold read_chunk. cbn [d_rd d_index d_px d_run app fst snd]. rewrite dispatch_tag.
           match goal with H : tag_eqb _ _ = true |- _ => apply tag_eqb_eq in H; rewrite H end.
           repeat match goal with
                  | H : (Z.land _ _ =? _) = true |- _ => apply Z.eqb_eq in H; rewrite H
                  end.
           subst vr vg vb. cbv zeta.
           rewrite !luma_arith_rb, luma_arith_g by assumption.
           rewrite <- Ha. destruct p; reflexivity.
        -- (* RGB *)
           unfold read_chunk. cbn [d_rd d_index d_px d_run app fst snd].
           rewrite dispatch_tag. change (tag_of qoi_RGB) with TRGB. cbv iota.
           rewrite ReadFull_3. cbn [nth]. rewrite <- Ha. destruct p; reflexivity.
    + (* RGBA *)
      unfold read_chunk. cbn [d_rd d_index d_px d_run app fst snd].
      rewrite dispatch_tag. change (tag_of qoi_RGBA) with TRGBA. cbv iota.
      rewrite ReadFull_4. cbn [nth]. destruct p; reflexivity.
Qed.

(** ** Runs of decoder iterations *)

Lemma decode_step_run0 rd D px :
  decode_step (mkDec rd D px 0) = read_chunk (mkDec rd D px 0).
Proof. reflexivity. Qed.

Lemma decode_pixels_pending k n rd D px :
  decode_pixels (k + n) (mkDec rd D px (Z.of_nat k)) =
    let '(ps, r) := decode_pixels n (mkDec rd D px 0) in (repeat px k ++ ps, r).
Proof.
  induction k as [|k IH].
  - simpl. destruct (decode_pixels n _). reflexivity.
  - cbn [Nat.add decode_pixels].
    unfold decode_step. cbn [d_run d_rd d_index d_px].
    replace (Z.of_nat (S k) >? 0) with true by (symmetry; apply Z.gtb_lt; lia).
    replace (Z.of_nat (S k) - 1) with (Z.of_nat k) by lia.
    rewrite IH. destruct (decode_pixels n _). reflexivity.
Qed.

Lemma decode_pixels_run_chunk run n t D px :
  1 <= run <= 62 ->
  decode_pixels (Z.to_nat run + n) (mkDec (run_chunk run ++ t) D px 0) =
    let '(ps, r) := decode_pixels n (mkDec t (index_set D (slot px) px) px 0) in
    (repeat px (Z.to_nat run) ++ ps, r).
Proof.
  intros Hr.
  remember (Z.to_nat (run - 1)) as k eqn:Hk.
  replace (Z.to_nat run) with (S k) by lia.
  cbn [Nat.add decode_pixels].
  rewrite decode_step_run0, read_run_chunk by assumption.
  replace (run - 1) with (Z.of_nat k) by lia.
  rewrite decode_pixels_pending.
  destruct (decode_pixels n _). reflexivity.
Qed.

Lemma decode_pixels_new_pixel n E D prev p t :
  wf_pixel prev -> wf_pixel p -> codec_inv E D prev ->
  decode_pixels (S n) (mkDec (fst (new_pixel_chunk E prev p) ++ t) D prev 0) =
    let '(ps, r) := decode_pixels n (mkDec t (index_set D (slot p) p) p 0) in
    (p :: ps, r).
Proof.
  intros Hprev Hp Hinv.
  cbn [decode_pixels].
  rewrite decode_step_run0, (read_new_pixel_chunk E D prev p t) by assumption.
  reflexivity.
Qed.

Lemma repeat_snoc {A} (x : A) n : repeat x (S n) = repeat x n ++ [x].
Proof. induction n as [|n IH]; simpl in *; [reflexivity | f_equal; exact IH]. Qed.

(** ** Decoding what the encoder wrote for a sequence of pixels

    The encoder is in state [(E, prev, run)]: [run] pixels equal to [prev] are
    counted and not yet written.  The decoder, which has produced everything up
    to these [run] pixels, reads the chunks of the remaining pixels [ps] and
    produces the pending pixels and [ps], stopping in front of [t]. *)
Lemma decode_encode_seq : forall ps E prev run D t,
  Forall wf_pixel ps -> wf_pixel prev -> codec_inv E D prev ->
  0 <= run < 62 -> (ps = [] -> run = 0) ->
  exists D' last,
    decode_pixels (Z.to_nat run + length ps)
      (mkDec (concat (fst (encode_seq false (mkEnc E prev run) ps)) ++ t) D prev 0)
    = (repeat prev (Z.to_nat run) ++ ps, StepOk (mkDec t D' last 0)).
Proof.
  induction ps as [|p ps IH]; intros E prev run D t Hwf Hprev Hinv Hrun Hnil.
  - rewrite (Hnil eq_refl). exists D, prev. reflexivity.
  - inversion Hwf as [|? ? Hp Hps]; subst.
    cbn [encode_seq]. rewrite andb_true_r.
    destruct (pixel_eqb p prev) eqn:Heq.
    + (* the pixel continues the run *)
      rewrite encode_pixel_eq by exact Heq.
      apply pixel_eqb_eq in Heq. subst p.
      cbn [e_run e_index e_prev].
      destruct ((run + 1 =? 62) || is_nil ps) eqn:Hflush.
      * destruct (IH E prev 0 (index_set D (slot prev) prev) t Hps Hprev
                    (codec_inv_rewrite_prev _ _ _ Hinv) ltac:(lia) ltac:(reflexivity))
          as (D' & last & HIH).
        destruct (encode_seq false (mkEnc E prev 0) ps) as [cs' st2] eqn:Hseq.
        cbn [fst] in *. exists D', last.
        cbn [concat app]. rewrite <- app_assoc.
        replace (Z.to_nat run + length (prev :: ps))%nat
          with (Z.to_nat (run + 1) + length ps)%nat by (simpl; lia).
        rewrite decode_pixels_run_chunk by lia.
        cbn [Z.to_nat Nat.add repeat app] in HIH. rewrite HIH.
        replace (Z.to_nat (run + 1)) with (S (Z.to_nat run)) by lia.
        rewrite repeat_snoc, <- app_assoc. reflexivity.
      * apply orb_false_iff in Hflush as [H62 Hne].
        assert (Hps' : ps = [] -> run + 1 = 0) by (destruct ps; [discriminate | discriminate]).
        destruct (IH E prev (run + 1) D t Hps Hprev Hinv ltac:(lia) Hps')
          as (D' & last & HIH).
        destruct (encode_seq false (mkEnc E prev (run + 1)) ps) as [cs' st2] eqn:Hseq.
        cbn [fst] in *. exists D', last.
        cbn [app].
        replace (Z.to_nat run + length (prev :: ps))%nat
          with (Z.to_nat (run + 1) + length ps)%nat by (simpl; lia).
        rewrite HIH.
        replace (Z.to_nat (run + 1)) with (S (Z.to_nat run)) by lia.
        rewrite repeat_snoc, <- app_assoc. reflexivity.
    + (* a new pixel: the pending run is flushed, then the pixel's chunk *)
      rewrite encode_pixel_neq by exact Heq.
      cbn [e_run e_index e_prev].
      destruct Hinv as (HE & HD & H1 & H2).
      rewrite snd_new_pixel_chunk by exact HE.
      replace (if run >? 0 then 0 else run) with 0 by (destruct (run >? 0) eqn:?; lia).
      assert (Hinv : codec_inv E D prev) by (unfold codec_inv; auto).
      destruct (run >? 0) eqn:Hpos.
      * pose proof (codec_inv_rewrite_prev _ _ _ Hinv) as Hinv1.
        destruct (IH (index_set E (slot p) p) p 0
                     (index_set (index_set D (slot prev) prev) (slot p) p) t Hps Hp
                     (codec_inv_store _ _ _ p Hinv1) ltac:(lia) ltac:(reflexivity))
          as (D' & last & HIH).
        destruct (encode_seq false (mkEnc (index_set E (slot p) p) p 0) ps)
          as [cs' st2] eqn:Hseq.
        cbn [fst] in *. exists D', last.
        rewrite <- app_assoc. cbn [app concat]. rewrite <- !app_assoc.
        rewrite decode_pixels_run_chunk by lia.
        cbn [length].
        rewrite (decode_pixels_new_pixel _ E _ prev p) by assumption.
        cbn [Z.to_nat Nat.add repeat app] in HIH. rewrite HIH. reflexivity.
      * assert (run = 0) by lia. subst run.
        destruct (IH (index_set E (slot p) p) p 0
                     (index_set D (slot p) p) t Hps Hp
                     (codec_inv_store _ _ _ p Hinv) ltac:(lia) ltac:(reflexivity))
          as (D' & last & HIH).
        destruct (encode_seq false (mkEnc (index_set E (slot p) p) p 0) ps)
          as [cs' st2] eqn:Hseq.
        cbn [fst] in *. exists D', last.
        cbn [app concat]. rewrite <- !app_assoc.
        cbn [Z.to_nat Nat.add repeat app length].
        rewrite (decode_pixels_new_pixel _ E _ prev p) by assumption.
        cbn [Z.to_nat Nat.add repeat app] in HIH. rewrite HIH. reflexivity.
Qed.

(** ** The raster loops as a fold over the pixels in raster order *)

Lemma zrange_app lo a b :
  zrange lo (a + b) = zrange lo a ++ zrange (lo + Z.of_nat a) b.
Proof.
  revert lo. induction a as [|a IH]; intros lo.
  - simpl. f_equal. lia.
  - cbn [Nat.add zrange app]. f_equal. rewrite IH. do 2 f_equal. lia.
Qed.

Lemma zrange_length lo n : length (zrange lo n) = n.
Proof. revert lo. induction n; intros; simpl; auto. Qed.

Lemma is_nil_map {A B} (f : A -> B) l : is_nil (map f l) = is_nil l.
Proof. destruct l; reflexivity. Qed.

Lemma is_nil_app {A} (a b : list A) : is_nil (a ++ b) = is_nil a && is_nil b.
Proof. destruct a; reflexivity. Qed.

Lemma is_nil_zrange lo n : is_nil (zrange lo n) = (n =? 0)%nat.
Proof. destruct n; reflexivity. Qed.

Lemma encode_seq_app a : forall b more st,
  encode_seq more st (a ++ b) =
    let '(c1, s1) := encode_seq (more || negb (is_nil b)) st a in
    let '(c2, s2) := encode_seq more s1 b in
    (c1 ++ c2, s2).
Proof.
  induction a as [|p a IH]; intros b more st.
  - cbn [app encode_seq]. destruct (encode_seq more st b). reflexivity.
  - cbn [app encode_seq].
    replace (is_nil (a ++ b) && negb more)
      with (is_nil a && negb (more || negb (is_nil b)))
      by (rewrite is_nil_app; destruct (is_nil a), (is_nil b), more; reflexivity).
    destruct (encode_pixel st p _) as [cs st1].
    rewrite IH.
    destruct (encode_seq (more || negb (is_nil b)) st1 a) as [c1 s1].
    destruct (encode_seq more s1 b) as [c2 s2].
    rewrite app_assoc. reflexivity.
Qed.

Section RasterFold.
Variable fetch : Z -> Z -> option pixel.
Variable f : Z -> pixel.
Variables w h : Z.
Hypothesis w_pos : 0 < w.
Hypothesis fetch_ok :
  forall x y, 0 <= x < w -> 0 <= y < h -> fetch x y = Some (f (y * w + x)).

Lemma encode_row_fold : forall cols x y st out,
  0 <= x -> x + Z.of_nat cols = w -> 0 <= y < h ->
  encode_row fetch (w - 1) (h - 1) cols x y st out =
    let '(cs, st') :=
      encode_seq (negb (y =? h - 1)) st (map f (zrange (y * w + x) cols)) in
    Some (st', out ++ cs).
Proof.
  induction cols as [|cols IH]; intros x y st out Hx Hcols Hy.
  - cbn. rewrite app_nil_r. reflexivity.
  - cbn [encode_row zrange map encode_seq].
    rewrite fetch_ok by lia.
    rewrite is_nil_map, is_nil_zrange, negb_involutive.
    replace (x =? w - 1) with (cols =? 0)%nat
      by (destruct cols; [cbn; lia | cbn; lia]).
    destruct (encode_pixel st (f (y * w + x)) _) as [cs st1].
    rewrite IH by lia.
    replace (y * w + (x + 1)) with (y * w + x + 1) by lia.
    destruct (encode_seq _ st1 _) as [cs' st2].
    rewrite app_assoc. reflexivity.
Qed.

Lemma encode_rows_fold : forall rows y st out,
  0 <= y -> y + Z.of_nat rows = h ->
  encode_rows fetch (w - 1) (h - 1) rows y 0 (Z.to_nat w) st out =
    let '(cs, st') :=
      encode_seq false st (map f (zrange (y * w) (rows * Z.to_nat w))) in
    Some (st', out ++ cs).
Proof.
  induction rows as [|rows IH]; intros y st out Hy Hrows.
  - cbn. rewrite app_nil_r. reflexivity.
  - cbn [encode_rows].
    rewrite encode_row_fold by lia.
    cbn [Nat.mul]. rewrite zrange_app, map_app, encode_seq_app.
    rewrite is_nil_map, is_nil_zrange. cbn [orb].
    replace (y * w + 0) with (y * w) by lia.
    replace (negb (rows * Z.to_nat w =? 0)%nat) with (negb (y =? h - 1)).
    2:{ destruct rows as [|rows].
        - cbn. replace (y =? h - 1) with true by lia. reflexivity.
        - replace (y =? h - 1) with false by lia.
          replace (S rows * Z.to_nat w =? 0)%nat with false; [reflexivity|].
          symmetry. apply Nat.eqb_neq. nia. }
    destruct (encode_seq (negb (y =? h - 1)) st _) as [c1 s1].
    rewrite IH by lia.
    replace ((y + 1) * w) with (y * w + Z.of_nat (Z.to_nat w)) by lia.
    destruct (encode_seq false s1 _) as [c2 s2].
    rewrite app_assoc. reflexivity.
Qed.
End RasterFold.

(** ** Reading pixels out of a buffer *)

Lemma slice_get_nth s i :
  0 <= i < Z.of_nat (length s) -> slice_get s i = Some (nth (Z.to_nat i) s 0).
Proof.
  intros Hi. unfold slice_get.
  replace (i <? 0) with false by lia.
  apply nth_error_nth'. lia.
Qed.

Lemma src_pixel_flat src w h c x y :
  c = 3 \/ c = 4 ->
  0 < w -> 0 < h -> w * h < qoiPixelsMax ->
  Z.of_nat (length src) = w * h * c ->
  0 <= x < w -> 0 <= y < h ->
  Qoi.src_pixel src w c (c =? 4) x y = Some (flat_pixel src c (c =? 4) (y * w + x)).
Proof.
  unfold qoiPixelsMax. intros Hc Hw Hh Hmax Hlen Hx Hy.
  assert (Hi : 0 <= y * w + x < w * h) by nia.
  unfold Qoi.src_pixel, flat_pixel.
  rewrite (i64_small (y * w)) by nia.
  rewrite (i64_small (y * w + x)) by nia.
  rewrite (i64_small ((y * w + x) * c)) by nia.
  rewrite !i64_small by nia.
  rewrite !slice_get_nth by nia.
  replace (Z.to_nat ((y * w + x) * c + 1)) with (Z.to_nat ((y * w + x) * c) + 1)%nat by nia.
  replace (Z.to_nat ((y * w + x) * c + 2)) with (Z.to_nat ((y * w + x) * c) + 2)%nat by nia.
  destruct Hc as [-> | ->]; cbn [Z.eqb Pos.eqb].
  - reflexivity.
  - rewrite slice_get_nth by nia.
    replace (Z.to_nat ((y * w + x) * 4 + 3)) with (Z.to_nat ((y * w + x) * 4) + 3)%nat by nia.
    reflexivity.
Qed.

Lemma nth_skipn_add {A} (l : list A) i j d : nth j (skipn i l) d = nth (i + j) l d.
Proof.
  revert l. induction i as [|i IH]; intros l; [reflexivity|].
  destruct l as [|a l]; [destruct j; reflexivity|]. apply IH.
Qed.

Lemma firstn_add {A} (l : list A) a b :
  firstn (a + b) l = firstn a l ++ firstn b (skipn a l).
Proof.
  revert l. induction a as [|a IH]; intros l; [reflexivity|].
  destruct l as [|x l]; cbn [Nat.add firstn skipn app].
  - rewrite firstn_nil. reflexivity.
  - f_equal. apply IH.
Qed.

Lemma px_out_flat src c i :
  c = 3 \/ c = 4 -> 0 <= i ->
  (i + 1) * c <= Z.of_nat (length src) ->
  px_out c (flat_pixel src c (c =? 4) i) =
    firstn (Z.to_nat c) (skipn (Z.to_nat (i * c)) src).
Proof.
  intros Hc Hi Hlen.
  assert (Hl : (Z.to_nat c <= length (skipn (Z.to_nat (i * c)) src))%nat)
    by (rewrite length_skipn; nia).
  unfold px_out, flat_pixel, px_bytes. cbn [px0 px1 px2 px3].
  rewrite <- !(nth_skipn_add src (Z.to_nat (i * c))).
  rewrite <- (Nat.add_0_r (Z.to_nat (i * c))) at 1.
  rewrite <- !(nth_skipn_add src (Z.to_nat (i * c))).
  destruct (skipn (Z.to_nat (i * c)) src) as [|a [|b [|d [|e l]]]];
    destruct Hc as [-> | ->]; cbn in Hl |- *; try lia; reflexivity.
Qed.

Lemma flat_pixels_out src c : forall m k,
  c = 3 \/ c = 4 -> 0 <= k ->
  (k + Z.of_nat m) * c <= Z.of_nat (length src) ->
  flat_map (px_out c) (map (flat_pixel src c (c =? 4)) (zrange k m)) =
    firstn (m * Z.to_nat c) (skipn (Z.to_nat (k * c)) src).
Proof.
  induction m as [|m IH]; intros k Hc Hk Hlen; [reflexivity|].
  cbn [zrange map flat_map Nat.mul].
  rewrite px_out_flat by nia.
  rewrite IH by nia.
  rewrite firstn_add, skipn_skipn.
  do 3 f_equal. nia.
Qed.

Lemma pixels_of_out src c n :
  c = 3 \/ c = 4 -> Z.of_nat (length src) = Z.of_nat n * c ->
  flat_map (px_out c) (pixels_of src c (c =? 4) n) = src.
Proof.
  intros Hc Hlen. unfold pixels_of.
  rewrite flat_pixels_out by lia.
  cbn [Z.mul Z.to_nat skipn].
  apply firstn_all2. nia.
Qed.

Lemma nth_is_byte l i : Forall is_byte l -> is_byte (nth i l 0).
Proof.
  intros Hl. destruct (Nat.lt_ge_cases i (length l)) as [Hi | Hi].
  - rewrite Forall_forall in Hl. apply Hl. apply nth_In. exact Hi.
  - rewrite nth_overflow by exact Hi. unfold is_byte. lia.
Qed.

Lemma pixels_of_wf src c a n :
  Forall is_byte src -> Forall wf_pixel (pixels_of src c a n).
Proof.
  intros Hs. unfold pixels_of. apply Forall_map, Forall_forall.
  intros i _. unfold wf_pixel, flat_pixel. cbn [px0 px1 px2 px3].
  repeat split; try (apply nth_is_byte; exact Hs).
  - destruct a; [apply nth_is_byte; exact Hs | lia].
  - destruct a; [apply nth_is_byte; exact Hs | lia].
Qed.

Lemma pixels_of_length src c a n : length (pixels_of src c a n) = n.
Proof. unfold pixels_of. rewrite length_map. apply zrange_length. Qed.

(** ** The decode loop in terms of the decoder's iterations *)

Lemma copy_px_ok c px dest :
  (Z.to_nat c <= length dest)%nat ->
  copy_px c px dest = Some (px_out c px, skipn (Z.to_nat c) dest).
Proof.
  intros H. unfold copy_px, px_out.
  replace (length dest <? Z.to_nat c)%nat with false; [reflexivity|].
  symmetry. apply Nat.ltb_ge. exact H.
Qed.

Lemma decode_loop_pixels header numPixels c : forall todo st n written dest,
  0 < c ->
  (todo * Z.to_nat c <= length dest)%nat ->
  0 <= n -> n + Z.of_nat todo < 2 ^ 32 ->
  Qoi.decode_loop header numPixels c todo st n written dest =
    Returned (loop_result header numPixels c n written dest
                (fst (decode_pixels todo st)) (snd (decode_pixels todo st))).
Proof.
  induction todo as [|todo IH]; intros st n written dest Hc Hroom Hn Hmax.
  - cbn [Qoi.decode_loop decode_pixels fst snd]. unfold loop_result.
    cbn [length flat_map Nat.mul skipn app]. rewrite Z.add_0_r. reflexivity.
  - cbn [Qoi.decode_loop decode_pixels].
    destruct (decode_step st) as [| e | st'] eqn:Hstep.
    + cbn [fst snd]. unfold loop_result.
      cbn [length flat_map Nat.mul skipn app]. rewrite Z.add_0_r. reflexivity.
    + cbn [fst snd]. unfold loop_result.
      cbn [length flat_map Nat.mul skipn app]. rewrite Z.add_0_r. reflexivity.
    + rewrite copy_px_ok by nia.
      rewrite (u32_small (n + 1)) by lia.
      rewrite IH; [| lia | rewrite length_skipn; nia | lia | lia].
      destruct (decode_pixels todo st') as [ps r]. cbn [fst snd].
      unfold loop_result. cbn [length flat_map].
      rewrite skipn_skipn.
      replace (length ps * Z.to_nat c + Z.to_nat c)%nat
        with (S (length ps) * Z.to_nat c)%nat by lia.
      replace (n + 1 + Z.of_nat (length ps)) with (n + Z.of_nat (S (length ps))) by lia.
      rewrite <- !app_assoc. reflexivity.
Qed.

Lemma decode_pixels_length todo st :
  (length (fst (decode_pixels todo st)) <= todo)%nat.
Proof.
  revert st. induction todo as [|todo IH]; intros st; cbn [decode_pixels].
  - simpl. lia.
  - destruct (decode_step st) as [| e | st']; try (simpl; lia).
    specialize (IH st'). destruct (decode_pixels todo st'). simpl in *. lia.
Qed.

(** ** The header the encoders write *)

Lemma be_put_uint32_bytes v : Forall is_byte (be_put_uint32 v).
Proof.
  unfold be_put_uint32. repeat constructor; apply u8_range.
Qed.

Lemma be_uint32_put v : 0 <= v < 2 ^ 32 -> be_uint32 (be_put_uint32 v) = v.
Proof.
  intros Hv. unfold be_put_uint32.
  rewrite be_uint32_bytes by apply u8_range.
  unfold u8. rewrite !Z.shiftr_div_pow2 by lia.
  change (2 ^ 24) with 16777216. change (2 ^ 16) with 65536.
  change (2 ^ 8) with 256. change (2 ^ 32) with 4294967296 in Hv.
  Z.div_mod_to_equations. lia.
Qed.

Lemma u32_range z : 0 <= u32 z < 2 ^ 32.
Proof. unfold u32. apply Z.mod_pos_bound. lia. Qed.

Lemma DecodeHeader_header_bytes w h c rest :
  c = 3 \/ c = 4 ->
  DecodeHeader (header_bytes w h c ++ rest) =
    inr (mkHeader qoiMagic (u32 w) (u32 h) c 0, rest).
Proof.
  intros Hc. unfold header_bytes.
  pose proof (be_uint32_put (u32 w) (u32_range w)) as Hw.
  pose proof (be_uint32_put (u32 h) (u32_range h)) as Hh.
  unfold be_put_uint32 in *.
  cbn [app qoiMagic].
  change (?a :: ?b :: ?c0 :: ?d :: ?e :: ?f :: ?g :: ?i :: ?j :: ?k :: ?l :: ?m :: ?n :: ?o :: rest)
    with ([a; b; c0; d; e; f; g; i; j; k; l; m; n; o] ++ rest).
  rewrite DecodeHeader_full, Hw, Hh.
  destruct Hc as [-> | ->]; reflexivity.
Qed.

Lemma header_bytes_length w h c : length (header_bytes w h c) = 14%nat.
Proof. reflexivity. Qed.

(** ** Round trip of the byte-buffer codec *)

Lemma Encode_stream src w h c :
  1 <= w -> 1 <= h -> c = 3 \/ c = 4 ->
  Z.of_nat (length src) = w * h * c ->
  w * h < qoiPixelsMax ->
  Qoi.Encode src w h =
    Returned (inr (header_bytes w h c
                   ++ concat (fst (encode_seq false enc_init
                                     (pixels_of src c (c =? 4) (Z.to_nat (w * h)))))
                   ++ padding)).
Proof.
  intros Hw Hh Hc Hlen Hmax. unfold Qoi.Encode.
  pose proof Hmax as Hmax'. unfold qoiPixelsMax in Hmax'.
  rewrite (i64_small (w * h)) by nia.
  replace (w * h =? 0) with false by nia.
  replace (w * h >=? qoiPixelsMax) with false by (unfold qoiPixelsMax; lia).
  replace (Z.quot (Z.of_nat (length src)) (w * h)) with c
    by (rewrite Hlen, (Z.mul_comm (w * h) c); symmetry; apply Z.quot_mul; nia).
  rewrite (u8_small c) by lia.
  rewrite (i64_small (w * h * c)) by nia.
  replace (w * h * c =? Z.of_nat (length src)) with true by lia.
  replace (negb (c =? 3) && negb (c =? 4)) with false
    by (destruct Hc as [-> | ->]; reflexivity).
  cbn [negb orb].
  rewrite (i64_small (w - 1)), (i64_small (h - 1)) by nia.
  rewrite (encode_rows_fold _ (flat_pixel src c (c =? 4)) w h); try lia.
  - cbn [Z.mul].
    replace (Z.to_nat h * Z.to_nat w)%nat with (Z.to_nat (w * h)) by nia.
    fold (pixels_of src c (c =? 4) (Z.to_nat (w * h))).
    destruct (encode_seq false enc_init _) as [cs st']. reflexivity.
  - intros x y Hx Hy. apply (src_pixel_flat src w h c x y); auto; lia.
Qed.

(** Decoding the stream made of a header, the chunks the encoder writes for
    the pixels [ps], and the padding. *)
Lemma Decode_chunks (ps : list pixel) (w h c : Z) (dest : list Z) :
  1 <= w -> 1 <= h -> c = 3 \/ c = 4 ->
  w * h < qoiPixelsMax ->
  length ps = Z.to_nat (w * h) ->
  Forall wf_pixel ps ->
  w * h * c <= Z.of_nat (length dest) < 2 ^ 32 ->
  Qoi.Decode (header_bytes w h c
                ++ concat (fst (encode_seq false enc_init ps)) ++ padding) dest =
    Returned (Qoi.mkOut (Qoi.mkDecoded (w * h * c) w h (c =? 4) None)
                (flat_map (px_out c) ps ++ skipn (Z.to_nat (w * h * c)) dest)
                padding).
Proof.
  intros Hw Hh Hc Hmax Hps Hwf Hdest.
  unfold qoiPixelsMax in Hmax.
  destruct (decode_encode_seq ps new_index start_pixel 0 new_index padding)
    as (D' & last & Hdec).
  { exact Hwf. }
  { unfold wf_pixel, is_byte. cbn. lia. }
  { apply codec_inv_init. }
  { lia. }
  { reflexivity. }
  fold enc_init in Hdec.
  cbn [Z.to_nat Nat.add repeat app] in Hdec.
  rewrite Hps in Hdec.
  unfold Qoi.Decode.
  rewrite DecodeHeader_header_bytes by exact Hc.
  cbn [width height channels].
  rewrite (u32_small w), (u32_small h) by nia.
  rewrite (u32_small (w * h)) by nia.
  replace (w * h =? 0) with false by nia.
  rewrite (u32_small (Z.of_nat (length dest))) by lia.
  rewrite (u32_small c) by lia.
  replace (w * h >? Z.of_nat (length dest) / c) with false.
  2:{ symmetry. rewrite Z.gtb_ltb. apply Z.ltb_ge. apply Z.div_le_lower_bound; lia. }
  rewrite decode_loop_pixels; [| lia | nia | lia | lia].
  unfold dec_init. rewrite Hdec. cbn [fst snd].
  unfold loop_result. cbn [d_rd width height channels app].
  rewrite Hps.
  replace (0 + Z.of_nat (Z.to_nat (w * h))) with (w * h) by lia.
  rewrite (u32_small c) by lia.
  rewrite (u32_small (w * h * c)) by nia.
  replace (Z.to_nat (w * h) * Z.to_nat c)%nat with (Z.to_nat (w * h * c)) by nia.
  reflexivity.
Qed.

(** The same for a destination of any length that passes the capacity
    check, which compares the pixel count with [uint32(len(dest))] divided by
    the channel count, and for any bytes [t] behind the chunks. *)
Lemma Decode_chunks_room (ps : list pixel) (w h c : Z) (dest t : list Z) :
  1 <= w -> 1 <= h -> c = 3 \/ c = 4 ->
  w * h < qoiPixelsMax ->
  length ps = Z.to_nat (w * h) ->
  Forall wf_pixel ps ->
  w * h * c <= u32 (Z.of_nat (length dest)) ->
  Qoi.Decode (header_bytes w h c
                ++ concat (fst (encode_seq false enc_init ps)) ++ t) dest =
    Returned (Qoi.mkOut (Qoi.mkDecoded (w * h * c) w h (c =? 4) None)
                (flat_map (px_out c) ps ++ skipn (Z.to_nat (w * h * c)) dest)
                t).
Proof.
  intros Hw Hh Hc Hmax Hps Hwf Hdest.
  unfold qoiPixelsMax in Hmax.
  pose proof (Z.mod_le (Z.of_nat (length dest)) (2 ^ 32) ltac:(lia) ltac:(lia)) as Hle.
  fold (u32 (Z.of_nat (length dest))) in Hle.
  destruct (decode_encode_seq ps new_index start_pixel 0 new_index t)
    as (D' & last & Hdec).
  { exact Hwf. }
  { unfold wf_pixel, is_byte. cbn. lia. }
  { apply codec_inv_init. }
  { lia. }
  { reflexivity. }
  fold enc_init in Hdec.
  cbn [Z.to_nat Nat.add repeat app] in Hdec.
  rewrite Hps in Hdec.
  unfold Qoi.Decode.
  rewrite DecodeHeader_header_bytes by exact Hc.
  cbn [width height channels].
  rewrite (u32_small w), (u32_small h) by nia.
  rewrite (u32_small (w * h)) by nia.
  replace (w * h =? 0) with false by nia.
  rewrite (u32_small c) by lia.
  replace (w * h >? u32 (Z.of_nat (length dest)) / c) with false.
  2:{ symmetry. rewrite Z.gtb_ltb. apply Z.ltb_ge. apply Z.div_le_lower_bound; lia. }
  rewrite decode_loop_pixels; [| lia | nia | lia | lia].
  unfold dec_init. rewrite Hdec. cbn [fst snd].
  unfold loop_result. cbn [d_rd width height channels app].
  rewrite Hps.
  replace (0 + Z.of_nat (Z.to_nat (w * h))) with (w * h) by lia.
  rewrite (u32_small c) by lia.
  rewrite (u32_small (w * h * c)) by nia.
  replace (Z.to_nat (w * h) * Z.to_nat c)%nat with (Z.to_nat (w * h * c)) by nia.
  reflexivity.
Qed.

(** C1 (as amended).  For every buffer of [w*h] pixels of [c] bytes, with
    [w, h >= 1], [c] 3 or 4 and fewer than 400,000,000 pixels, [Encode]
    succeeds and [Decode] of its stream, into any destination that passes the
    capacity check, returns without error, reports [w], [h], [w*h*c] bytes
    written and whether there is alpha, and has stored the original buffer,
    byte for byte, at the front of the destination, the rest of which it has
    left alone.  The capacity check takes the length of the destination as a
    [uint32]: it passes when [w*h*c <= uint32(len(dest))], so for every
    destination of at least [w*h*c] and fewer than 2^32 bytes. *)
Theorem Decode_Encode_roundtrip : forall (src : list Z) (w h c : Z) (dest : list Z),
  1 <= w -> 1 <= h -> c = 3 \/ c = 4 ->
  Z.of_nat (length src) = w * h * c ->
  Forall is_byte src ->
  w * h < qoiPixelsMax ->
  w * h * c <= u32 (Z.of_nat (length dest)) ->
  exists stream out,
    Qoi.Encode src w h = Returned (inr stream) /\
    Qoi.Decode stream dest = Returned out /\
    Qoi.ret out = Qoi.mkDecoded (w * h * c) w h (c =? 4) None /\
    Qoi.dest_after out = src ++ skipn (length src) dest.
Proof.
  intros src w h c dest Hw Hh Hc Hlen Hbytes Hmax Hdest.
  eexists. eexists. split.
  - apply (Encode_stream src w h c); assumption.
  - split.
    + apply Decode_chunks_room; try assumption.
      * apply pixels_of_length.
      * apply pixels_of_wf. exact Hbytes.
    + cbn [Qoi.ret Qoi.dest_after]. split; [reflexivity|].
      rewrite pixels_of_out by (try assumption; unfold qoiPixelsMax in Hmax; nia).
      replace (Z.to_nat (w * h * c)) with (length src) by lia.
      reflexivity.
Qed.

(** The round trip at a 3x2 RGBA image, decoded into a buffer of 26 bytes. *)
Lemma Decode_Encode_roundtrip_witness :
  exists stream out,
    Qoi.Encode [1; 2; 3; 77; 1; 2; 3; 77; 4; 5; 6; 77;
                200; 100; 50; 0; 1; 2; 3; 77; 0; 0; 0; 255] 3 2
      = Returned (inr stream) /\
    Qoi.Decode stream (repeat 9 26) = Returned out /\
    Qoi.ret out = Qoi.mkDecoded (3 * 2 * 4) 3 2 (4 =? 4) None /\
    Qoi.dest_after out =
      [1; 2; 3; 77; 1; 2; 3; 77; 4; 5; 6; 77;
       200; 100; 50; 0; 1; 2; 3; 77; 0; 0; 0; 255] ++ skipn 24 (repeat 9 26).
Proof.
  apply (Decode_Encode_roundtrip
           [1; 2; 3; 77; 1; 2; 3; 77; 4; 5; 6; 77;
            200; 100; 50; 0; 1; 2; 3; 77; 0; 0; 0; 255] 3 2 4 (repeat 9 26)).
  - lia.
  - lia.
  - right; reflexivity.
  - reflexivity.
  - repeat constructor; unfold is_byte; lia.
  - reflexivity.
  - vm_compute. discriminate.
Defined.

Lemma Encode_too_many src w h :
  i64 (w * h) <> 0 -> qoiPixelsMax <= i64 (w * h) ->
  Qoi.Encode src w h = Returned (inl ErrTooManyPixels).
Proof.
  intros H0 Hmax. unfold Qoi.Encode.
  replace (i64 (w * h) =? 0) with false by lia.
  replace (i64 (w * h) >=? qoiPixelsMax) with true; [reflexivity|].
  symmetry. apply Z.geb_le. exact Hmax.
Qed.

(** C1, as stated, fails at the pixel ceiling: a 400,000,000 x 1 RGB buffer
    meets every condition stated, and [Encode] refuses it ("image must
    have less than 400000000 pixels total"), so there is no stream to decode. *)
Lemma roundtrip_fails_at_pixel_ceiling :
  1 <= 400000000 /\ 1 <= 1 /\
  Z.of_nat (length ceiling_src) = 400000000 * 1 * 3 /\
  Forall is_byte ceiling_src /\
  Qoi.Encode ceiling_src 400000000 1 = Returned (inl ErrTooManyPixels) /\
  ~ (exists stream, Qoi.Encode ceiling_src 400000000 1 = Returned (inr stream)).
Proof.
  assert (HE : Qoi.Encode ceiling_src 400000000 1 = Returned (inl ErrTooManyPixels)).
  { apply Encode_too_many.
    - rewrite i64_small; lia.
    - rewrite i64_small; unfold qoiPixelsMax; lia. }
  split; [lia|]. split; [lia|]. split.
  { unfold ceiling_src. rewrite repeat_length. lia. }
  split.
  { unfold ceiling_src. apply Forall_forall. intros x Hx.
    apply repeat_spec in Hx. subst x. unfold is_byte. lia. }
  split; [exact HE|].
  intros [stream Hs]. rewrite HE in Hs. discriminate.
Qed.

(** ** The LUMA chunk *)

Lemma tag_of_luma b1 : Z.land b1 qoi_MASK_2 = qoi_LUMA -> tag_of b1 = TLUMA.
Proof.
  intros H. unfold tag_of. rewrite H.
  destruct (b1 =? qoi_RGB) eqn:E1.
  { apply Z.eqb_eq in E1. subst b1. discriminate. }
  destruct (b1 =? qoi_RGBA) eqn:E2.
  { apply Z.eqb_eq in E2. subst b1. discriminate. }
  reflexivity.
Qed.

Lemma shiftr4_byte b : is_byte b -> Z.land (Z.shiftr b 4) 15 = Z.shiftr b 4.
Proof.
  unfold is_byte. intros Hb.
  change 15 with (Z.ones 4). rewrite Z.land_ones by lia.
  rewrite Z.shiftr_div_pow2 by lia. change (2 ^ 4) with 16.
  apply Z.mod_small. Z.div_mod_to_equations. lia.
Qed.

Lemma luma_sum a x y :
  badd a (badd (bsub (bsub x 32) 8) y) = (a + (x - 32 - 8 + y)) mod 256.
Proof.
  unfold badd, bsub, u8.
  rewrite Zplus_mod_idemp_r.
  replace (a + (((x - 32) mod 256 - 8) mod 256 + y))
    with (((x - 32) mod 256 - 8) mod 256 + (y + a)) by lia.
  rewrite Zplus_mod_idemp_l.
  replace ((x - 32) mod 256 - 8 + (y + a)) with ((x - 32) mod 256 + (y + a - 8)) by lia.
  rewrite Zplus_mod_idemp_l. f_equal. lia.
Qed.

Lemma luma_green a x : badd a (bsub x 32) = (a + (x - 32)) mod 256.
Proof. unfold badd, bsub, u8. rewrite Zplus_mod_idemp_r. reflexivity. Qed.

Lemma new_pixel_chunk_two E prev p b1 b2 :
  fst (new_pixel_chunk E prev p) = [b1; b2] ->
  let vg := i8 (px1 p - px1 prev) in
  let vg_r := i8 (i8 (px0 p - px0 prev) - vg) in
  let vg_b := i8 (i8 (px2 p - px2 prev) - vg) in
  px3 p = px3 prev /\
  -32 <= vg <= 31 /\ -8 <= vg_r <= 7 /\ -8 <= vg_b <= 7 /\
  b1 = luma_byte1 vg /\ b2 = luma_byte2 vg_r vg_b.
Proof.
  unfold new_pixel_chunk.
  destruct (pixel_eqb (index_get E (slot p)) p); [discriminate|].
  destruct (px3 p =? px3 prev) eqn:Ha; [|discriminate].
  match goal with |- context [if ?c then _ else _] => destruct c eqn:Hd end;
    [discriminate|].
  match goal with |- context [if ?c then _ else _] => destruct c eqn:Hl end;
    [|discriminate].
  cbn [fst]. intros [= <- <-]. cbv zeta.
  split_andb. repeat split; lia.
Qed.

(** C6.  On a LUMA chunk (tag byte [b1] with top bits 10, second byte [b2])
    the decoder takes dg = (b1 & 63) - 32, which lies in [-32,31], and adds dg
    to green, dg - 8 + (b2 >> 4) to red and dg - 8 + (b2 & 15) to blue, each
    sum modulo 256; alpha, and the run counter, are as before.  The encoder
    writes a two-byte chunk only as a LUMA chunk, with first byte
    0x80 + (vg + 32) and second byte (vg_r + 8) * 16 + (vg_b + 8) for its
    deltas vg in [-32,31] and vg_r, vg_b in [-8,7], and the decoder, on that
    chunk and the encoder's previous pixel, yields the encoder's pixel. *)
Theorem luma_chunk_decoding :
  (forall b1 b2 rd index px run,
     is_byte b2 -> Z.land b1 qoi_MASK_2 = qoi_LUMA ->
     let dg := Z.land b1 63 - 32 in
     -32 <= dg <= 31 /\
     dispatch b1 (b2 :: rd) index px run =
       inr (rd,
            mkpx ((px0 px + (dg - 8 + Z.shiftr b2 4)) mod 256)
                 ((px1 px + dg) mod 256)
                 ((px2 px + (dg - 8 + Z.land b2 15)) mod 256)
                 (px3 px),
            run))
  /\
  (forall E prev p b1 b2,
     wf_pixel prev -> wf_pixel p ->
     fst (new_pixel_chunk E prev p) = [b1; b2] ->
     let vg := i8 (px1 p - px1 prev) in
     let vg_r := i8 (i8 (px0 p - px0 prev) - vg) in
     let vg_b := i8 (i8 (px2 p - px2 prev) - vg) in
     -32 <= vg <= 31 /\ -8 <= vg_r <= 7 /\ -8 <= vg_b <= 7 /\
     b1 = qoi_LUMA + (vg + 32) /\
     b2 = (vg_r + 8) * 16 + (vg_b + 8) /\
     Z.land b1 qoi_MASK_2 = qoi_LUMA /\
     forall rd index run, dispatch b1 (b2 :: rd) index prev run = inr (rd, p, run)).
Proof.
  split.
  - intros b1 b2 rd index px run Hb2 Htag dg. subst dg.
    pose proof (land63_range b1) as H63.
    split; [lia|].
    rewrite dispatch_tag, (tag_of_luma b1 Htag). cbv zeta.
    rewrite (shiftr4_byte b2 Hb2).
    rewrite !luma_sum, luma_green. reflexivity.
  - intros E prev p b1 b2 Hprev Hp Hchunk vg vg_r vg_b.
    destruct (new_pixel_chunk_two E prev p b1 b2 Hchunk)
      as (Ha & Hg & Hr & Hb & -> & ->).
    fold vg in Hg. fold vg vg_r in Hr. fold vg vg_b in Hb.
    fold vg. fold vg_r. fold vg_b.
    pose proof (luma1_facts vg Hg) as Hok1.
    pose proof (luma2_facts vg_r vg_b Hr Hb) as Hok2.
    unfold luma1_ok in Hok1. unfold luma2_ok in Hok2. cbv zeta in Hok1, Hok2.
    split_andb.
    repeat match goal with
           | H : (_ =? _) = true |- _ => apply Z.eqb_eq in H
           | H : tag_eqb _ _ = true |- _ => apply tag_eqb_eq in H
           end.
    repeat (split; [first [lia | assumption]|]).
    split.
    { match goal with H : luma_byte1 vg = _ |- _ => rewrite H end.
      assert (Hc : forall_range (-32) 64
                     (fun v => Z.land (qoi_LUMA + (v + 32)) qoi_MASK_2 =? qoi_LUMA) = true)
        by (vm_compute; reflexivity).
      apply Z.eqb_eq. apply (forall_range_spec _ _ _ Hc vg). simpl. lia. }
    intros rd index run.
    rewrite dispatch_tag.
    match goal with H : tag_of _ = TLUMA |- _ => rewrite H end.
    cbv zeta.
    repeat match goal with
           | H : Z.land _ _ = _ |- _ => rewrite H
           end.
    destruct Hprev as (Hp0 & Hp1 & Hp2 & Hp3). destruct Hp as (Hq0 & Hq1 & Hq2 & Hq3).
    subst vg vg_r vg_b.
    rewrite !luma_arith_rb, luma_arith_g by assumption.
    rewrite <- Ha. destruct p; reflexivity.
Qed.

(** The theorem at the tag byte 0xA2 (dg = 2) and the second byte 0x79. *)
Lemma luma_chunk_decoding_witness :
  dispatch 162 [121] new_index start_pixel 0 = inr ([], mkpx 1 2 3 255, 0).
Proof.
  destruct luma_chunk_decoding as [H _].
  destruct (H 162 121 [] new_index start_pixel 0) as [_ Hd].
  - unfold is_byte. lia.
  - reflexivity.
  - exact Hd.
Defined.

(** ** Images without pixels *)

(** C10.  When the header decodes and the product of its width and height,
    as the decoders compute it (in uint32; in particular when the width or the
    height is 0), is 0, [Decode] returns at once with no error, 0 bytes
    written, width and height 0 and includesAlpha false, and
    [DecodeIntoBuffer] returns a nil image and a nil error; both leave the
    reader right behind the 14 header bytes and the destination as it was,
    whatever its size. *)
Theorem Decode_zero_pixels : forall (reader dest : list Z) (header : Header) (rest : list Z),
  DecodeHeader reader = inr (header, rest) ->
  u32 (width header * height header) = 0 ->
  rest = skipn 14 reader /\
  Qoi.Decode reader dest =
    Returned (Qoi.mkOut (Qoi.mkDecoded 0 0 0 false None) dest rest) /\
  QoiImage.DecodeIntoBuffer reader dest =
    Returned (QoiImage.mkResult None None dest rest).
Proof.
  intros reader dest header rest Hh H0.
  split; [apply (DecodeHeader_leaves _ _ _ Hh)|].
  unfold Qoi.Decode, QoiImage.DecodeIntoBuffer.
  rewrite Hh, H0. split; reflexivity.
Qed.

(** The theorem at the header of a 0 x 7 image and an empty destination. *)
Lemma Decode_zero_pixels_witness :
  [254; 1] = skipn 14 [113; 111; 105; 102; 0; 0; 0; 0; 0; 0; 0; 7; 4; 0; 254; 1] /\
  Qoi.Decode [113; 111; 105; 102; 0; 0; 0; 0; 0; 0; 0; 7; 4; 0; 254; 1] [] =
    Returned (Qoi.mkOut (Qoi.mkDecoded 0 0 0 false None) [] [254; 1]) /\
  QoiImage.DecodeIntoBuffer [113; 111; 105; 102; 0; 0; 0; 0; 0; 0; 0; 7; 4; 0; 254; 1] [] =
    Returned (QoiImage.mkResult None None [] [254; 1]).
Proof.
  apply (Decode_zero_pixels
           [113; 111; 105; 102; 0; 0; 0; 0; 0; 0; 0; 7; 4; 0; 254; 1] []
           (mkHeader qoiMagic 0 7 4 0) [254; 1]).
  - reflexivity.
  - reflexivity.
Defined.

(** ** The capacity check *)

(** Without wrap-around ([width*height] below 2^32), [Decode] refuses a destination that is too small,
    leaving it and the reader behind the header untouched ... *)
Lemma Decode_dest_too_small reader dest header rest :
  DecodeHeader reader = inr (header, rest) ->
  0 < width header * height header < 2 ^ 32 ->
  Z.of_nat (length dest) < width header * height header * channels header ->
  Qoi.Decode reader dest =
    Returned (Qoi.mkOut
      (Qoi.mkDecoded 0 0 0 false
         (Some (ErrDestTooSmall (Z.of_nat (length dest))
                  (u32 (width header * height header * channels header)))))
      dest rest).
Proof.
  intros Hh Hn Hsmall. unfold Qoi.Decode. rewrite Hh.
  assert (Hc : channels header = 3 \/ channels header = 4).
  { revert Hh. clear. intros Hh.
    do 14 (destruct reader as [|? reader]; [discriminate|]).
    change (?a :: ?b :: ?c :: ?d :: ?e :: ?f :: ?g :: ?i :: ?j :: ?k :: ?l :: ?m :: ?n :: ?o :: reader)
      with ([a; b; c; d; e; f; g; i; j; k; l; m; n; o] ++ reader) in Hh.
    rewrite DecodeHeader_full in Hh.
    destruct (negb (list_eqb _ _)); [discriminate|].
    destruct ((_ <? 3) || (_ >? 4)) eqn:E; [discriminate|].
    destruct (negb _ && negb _); [discriminate|].
    injection Hh as <- _. cbn [channels].
    apply orb_false_iff in E. lia. }
  rewrite (u32_small (width header * height header)) by lia.
  replace (width header * height header =? 0) with false by lia.
  rewrite (u32_small (channels header)) by lia.
  assert (Hd : 0 <= u32 (Z.of_nat (length dest)) <= Z.of_nat (length dest)).
  { pose proof (u32_range (Z.of_nat (length dest))).
    split; [lia|]. unfold u32. apply Z.mod_le; lia. }
  replace (width header * height header
             >? u32 (Z.of_nat (length dest)) / channels header)
    with true; [reflexivity|].
  symmetry. rewrite Z.gtb_ltb. apply Z.ltb_lt.
  apply Z.div_lt_upper_bound; lia.
Qed.

Lemma DecodeHeader_channels reader header rest :
  DecodeHeader reader = inr (header, rest) ->
  channels header = 3 \/ channels header = 4.
Proof.
  intros Hh.
  do 14 (destruct reader as [|? reader]; [discriminate|]).
  change (?a :: ?b :: ?c :: ?d :: ?e :: ?f :: ?g :: ?i :: ?j :: ?k :: ?l :: ?m :: ?n :: ?o :: reader)
    with ([a; b; c; d; e; f; g; i; j; k; l; m; n; o] ++ reader) in Hh.
  rewrite DecodeHeader_full in Hh.
  destruct (negb (list_eqb _ _)); [discriminate|].
  destruct ((_ <? 3) || (_ >? 4)) eqn:E; [discriminate|].
  destruct (negb _ && negb _); [discriminate|].
  injection Hh as <- _. cbn [channels].
  apply orb_false_iff in E. lia.
Qed.

Lemma flat_map_px_out_length c ps :
  0 < c <= 4 -> length (flat_map (px_out c) ps) = (length ps * Z.to_nat c)%nat.
Proof.
  intros Hc. induction ps as [|p ps IH]; [reflexivity|].
  cbn [flat_map length Nat.mul]. rewrite length_app, IH.
  unfold px_out. rewrite length_firstn. cbn [px_bytes length]. lia.
Qed.

(** ... and a decode that passes the check stores pixels at the front of the
    destination only: behind the [todo] pixels everything is as before. *)
Lemma decode_loop_frame header numPixels c todo st n written dest out :
  0 < c <= 4 ->
  (todo * Z.to_nat c <= length dest)%nat ->
  0 <= n -> n + Z.of_nat todo < 2 ^ 32 ->
  Qoi.decode_loop header numPixels c todo st n written dest = Returned out ->
  length (Qoi.dest_after out) = (length written + length dest)%nat /\
  skipn (length written + todo * Z.to_nat c) (Qoi.dest_after out)
    = skipn (todo * Z.to_nat c) dest.
Proof.
  intros Hc Hroom Hn Hmax Hloop.
  rewrite decode_loop_pixels in Hloop by (assumption || lia).
  injection Hloop as <-.
  pose proof (decode_pixels_length todo st) as Hlen.
  destruct (decode_pixels todo st) as [ps r]. cbn [fst snd] in *.
  pose proof (flat_map_px_out_length c ps Hc) as Hps.
  assert (Hbuf : forall buf,
            buf = written ++ flat_map (px_out c) ps
                          ++ skipn (length ps * Z.to_nat c) dest ->
            length buf = (length written + length dest)%nat /\
            skipn (length written + todo * Z.to_nat c) buf
              = skipn (todo * Z.to_nat c) dest).
  { intros buf ->. split.
    - rewrite !length_app, Hps, length_skipn. nia.
    - rewrite skipn_app, (skipn_all2 written) by lia.
      cbn [app].
      replace (length written + todo * Z.to_nat c - length written)%nat
        with (todo * Z.to_nat c)%nat by lia.
      rewrite skipn_app, (skipn_all2 (flat_map _ _)) by (rewrite Hps; nia).
      cbn [app]. rewrite Hps, skipn_skipn. f_equal. nia. }
  unfold loop_result. destruct r; cbn [Qoi.dest_after]; apply Hbuf; reflexivity.
Qed.

Lemma Decode_frame reader dest header rest out :
  DecodeHeader reader = inr (header, rest) ->
  0 <= width header * height header < 2 ^ 32 ->
  width header * height header * channels header <= Z.of_nat (length dest) < 2 ^ 32 ->
  Qoi.Decode reader dest = Returned out ->
  length (Qoi.dest_after out) = length dest /\
  skipn (Z.to_nat (width header * height header * channels header)) (Qoi.dest_after out)
    = skipn (Z.to_nat (width header * height header * channels header)) dest.
Proof.
  intros Hh Hn Hroom. unfold Qoi.Decode. rewrite Hh.
  pose proof (DecodeHeader_channels _ _ _ Hh) as Hc.
  destruct (Z.eq_dec (u32 (width header * height header)) 0) as [H0 | H0].
  - rewrite H0. cbn [Z.eqb]. intros [= <-]. cbn [Qoi.dest_after].
    split; reflexivity.
  - replace (u32 (width header * height header) =? 0) with false by lia.
    pose proof (u32_range (width header * height header)) as Hr.
    rewrite (u32_small (width header * height header)) in * by lia.
    rewrite (u32_small (channels header)) by lia.
    rewrite (u32_small (Z.of_nat (length dest))) by lia.
    replace (width header * height header >? Z.of_nat (length dest) / channels header)
      with false.
    2:{ symmetry. rewrite Z.gtb_ltb. apply Z.ltb_ge. apply Z.div_le_lower_bound; lia. }
    intros Hloop.
    apply decode_loop_frame in Hloop; [| lia | nia | lia | lia].
    cbn [length Nat.add] in Hloop.
    replace (Z.to_nat (width header * height header * channels header))
      with (Z.to_nat (width header * height header) * Z.to_nat (channels header))%nat
      by nia.
    exact Hloop.
Qed.

(** C8 fails on the code where the product of width and height wraps around
    in uint32.  The header of [wrap_stream] announces 2147483649 x 2 pixels of
    3 bytes; the destination has 6 bytes, far fewer than the image needs; the
    decoders compute 2 pixels, pass the capacity check, read on behind the
    header and store 6 bytes in the destination, returning no error. *)
Theorem capacity_check_wraps :
  DecodeHeader wrap_stream
    = inr (mkHeader qoiMagic 2147483649 2 3 0, skipn 14 wrap_stream) /\
  Z.of_nat (length wrap_dest) < 2147483649 * 2 * 3 /\
  Qoi.Decode wrap_stream wrap_dest =
    Returned (Qoi.mkOut (Qoi.mkDecoded 6 2147483649 2 false None)
                        [1; 2; 3; 1; 2; 3] [0; 0; 0; 0; 0; 0; 0; 1]) /\
  QoiImage.DecodeIntoBuffer wrap_stream wrap_dest =
    Returned (QoiImage.mkResult
                (Some (QoiImage.mkImage [1; 2; 3; 1; 2; 3] 2147483649 2 3 0))
                None [1; 2; 3; 1; 2; 3] [0; 0; 0; 0; 0; 0; 0; 1]).
Proof.
  repeat split; vm_compute; reflexivity.
Qed.

(** ** The cache write of the decoder *)

Lemma dec_inv_init rd : dec_inv (dec_init rd).
Proof. split; [reflexivity | cbn; lia]. Qed.

Lemma read_chunk_stores st st' :
  length (d_index st) = 64%nat ->
  read_chunk st = StepOk st' ->
  length (d_index st') = 64%nat /\
  index_get (d_index st') (slot (d_px st')) = d_px st'.
Proof.
  intros Hl. unfold read_chunk.
  destruct (d_rd st) as [|b1 rd]; [discriminate|].
  destruct (dispatch b1 rd (d_index st) (d_px st) (d_run st)) as [e | [[rd' px] run]];
    [discriminate|].
  intros [= <-]. cbn [d_index d_px].
  rewrite index_set_length. split; [exact Hl|].
  apply index_get_set_eq; [exact Hl | apply slot_range].
Qed.

Lemma dec_inv_step st st' :
  dec_inv st -> decode_step st = StepOk st' ->
  dec_inv st' /\ index_get (d_index st') (slot (d_px st')) = d_px st'.
Proof.
  intros [Hl Hrun]. unfold decode_step.
  destruct (d_run st >? 0) eqn:Hpos.
  - intros [= <-]. cbn [d_index d_px d_run].
    assert (Hslot : index_get (d_index st) (slot (d_px st)) = d_px st)
      by (apply Hrun; lia).
    repeat split; auto.
  - intros Hread. destruct (read_chunk_stores st st' Hl Hread) as [Hl' Hs].
    repeat split; auto.
Qed.

Lemma reachable_inv rd st : reachable rd st -> dec_inv st.
Proof.
  induction 1 as [| st st' _ IH Hstep]; [apply dec_inv_init|].
  apply (dec_inv_step st st' IH Hstep).
Qed.

Lemma decode_step_spec_eq st : dec_inv st -> decode_step st = decode_step_spec st.
Proof.
  intros [Hl Hrun]. unfold decode_step, decode_step_spec, read_chunk.
  destruct (d_run st >? 0) eqn:Hpos.
  - rewrite <- (Hrun ltac:(lia)) at 3.
    rewrite index_set_same. reflexivity.
  - destruct (d_rd st) as [|b1 rd]; [reflexivity|].
    destruct (dispatch b1 rd (d_index st) (d_px st) (d_run st)) as [e | [[rd' px] run]];
      reflexivity.
Qed.

Lemma decode_pixels_spec_eq todo : forall st,
  dec_inv st -> decode_pixels todo st = decode_pixels_spec todo st.
Proof.
  induction todo as [|todo IH]; intros st Hinv; [reflexivity|].
  cbn [decode_pixels decode_pixels_spec].
  rewrite <- (decode_step_spec_eq st Hinv).
  destruct (decode_step st) as [| e | st'] eqn:Hstep; try reflexivity.
  rewrite (IH st'); [reflexivity|].
  apply (dec_inv_step st st' Hinv Hstep).
Qed.

(** C7.  In every state the decoder reaches from the start of any stream, an
    iteration leaves the cache as an unconditional write of the iteration's
    pixel at [hash(pixel) & 63] leaves it: the step of the source, whose
    store sits in the branch that reads a chunk, equals the step that stores
    in every iteration; after every iteration, one served from a pending run
    included, the slot holds the pixel of the iteration, so that the store
    there changes nothing; and whole runs of the two decoders agree. *)
Theorem cache_written_every_iteration : forall rd : list Z,
  (forall st, reachable rd st -> decode_step st = decode_step_spec st) /\
  (forall st st', reachable rd st -> decode_step st = StepOk st' ->
     index_get (d_index st') (slot (d_px st')) = d_px st' /\
     index_set (d_index st') (slot (d_px st')) (d_px st') = d_index st' /\
     (d_run st > 0 ->
        d_px st' = d_px st /\ d_rd st' = d_rd st /\
        d_index st' = index_set (d_index st) (slot (d_px st)) (d_px st))) /\
  (forall todo,
     decode_pixels todo (dec_init rd) = decode_pixels_spec todo (dec_init rd)).
Proof.
  intros rd. split; [|split].
  - intros st Hr. apply decode_step_spec_eq, (reachable_inv rd st Hr).
  - intros st st' Hr Hstep.
    pose proof (reachable_inv rd st Hr) as Hinv.
    destruct (dec_inv_step st st' Hinv Hstep) as [_ Hslot].
    split; [exact Hslot|]. split.
    + rewrite <- Hslot at 2. apply index_set_same.
    + intros Hpos. rewrite (decode_step_spec_eq st Hinv) in Hstep.
      unfold decode_step_spec in Hstep.
      replace (d_run st >? 0) with true in Hstep by lia.
      injection Hstep as <-. cbn [d_px d_rd d_index]. auto.
  - intros todo. apply decode_pixels_spec_eq, dec_inv_init.
Qed.

(** The theorem on a literal pixel followed by a RUN chunk for two more: of
    the three iterations the last is served from the pending run. *)
Lemma cache_written_every_iteration_witness :
  decode_pixels 3 (dec_init [254; 1; 2; 3; 193])
    = decode_pixels_spec 3 (dec_init [254; 1; 2; 3; 193]).
Proof.
  destruct (cache_written_every_iteration [254; 1; 2; 3; 193]) as (_ & _ & H).
  exact (H 3%nat).
Defined.

(** ** What the decoder consumes, and truncated streams *)

Lemma dispatch_consumes b1 rd ix px run rd' px' run' :
  dispatch b1 rd ix px run = inr (rd', px', run') ->
  exists c,
    rd = c ++ rd' /\
    (forall t, dispatch b1 (c ++ t) ix px run = inr (t, px', run')) /\
    (forall k, (k < length c)%nat ->
       exists e, dispatch b1 (firstn k c) ix px run = inl e).
Proof.
  rewrite dispatch_tag.
  destruct (tag_of b1) eqn:Htag.
  - destruct rd as [|a [|b [|c rd]]]; try discriminate.
    rewrite ReadFull_3. intros [= <- <- <-].
    exists [a; b; c]. split; [reflexivity|]. split.
    + intros t. rewrite dispatch_tag, Htag. reflexivity.
    + intros k Hk. rewrite dispatch_tag, Htag.
      destruct k as [|[|[|k]]]; cbn in Hk |- *; try lia; eexists; reflexivity.
  - destruct rd as [|a [|b [|c [|d rd]]]]; try discriminate.
    rewrite ReadFull_4. intros [= <- <- <-].
    exists [a; b; c; d]. split; [reflexivity|]. split.
    + intros t. rewrite dispatch_tag, Htag. reflexivity.
    + intros k Hk. rewrite dispatch_tag, Htag.
      destruct k as [|[|[|[|k]]]]; cbn in Hk |- *; try lia; eexists; reflexivity.
  - intros [= <- <- <-]. exists []. split; [reflexivity|]. split.
    + intros t. rewrite dispatch_tag, Htag. reflexivity.
    + intros k Hk. cbn in Hk. lia.
  - intros [= <- <- <-]. exists []. split; [reflexivity|]. split.
    + intros t. rewrite dispatch_tag, Htag. reflexivity.
    + intros k Hk. cbn in Hk. lia.
  - destruct rd as [|b2 rd]; [discriminate|].
    cbv zeta. intros [= <- <- <-].
    exists [b2]. split; [reflexivity|]. split.
    + intros t. rewrite dispatch_tag, Htag. reflexivity.
    + intros k Hk. rewrite dispatch_tag, Htag.
      destruct k as [|k]; cbn in Hk |- *; try lia. eexists; reflexivity.
  - intros [= <- <- <-]. exists []. split; [reflexivity|]. split.
    + intros t. rewrite dispatch_tag, Htag. reflexivity.
    + intros k Hk. cbn in Hk. lia.
  - intros [= <- <- <-]. exists []. split; [reflexivity|]. split.
    + intros t. rewrite dispatch_tag, Htag. reflexivity.
    + intros k Hk. cbn in Hk. lia.
Qed.

Lemma decode_step_consumes st st' :
  decode_step st = StepOk st' ->
  exists c,
    d_rd st = c ++ d_rd st' /\
    (forall t, decode_step (set_rd st (c ++ t)) = StepOk (set_rd st' t)) /\
    (forall k, (k < length c)%nat ->
       is_failure (decode_step (set_rd st (firstn k c))) = true).
Proof.
  unfold decode_step, set_rd. cbn [d_run].
  destruct (d_run st >? 0) eqn:Hpos.
  - intros [= <-]. exists []. cbn [d_rd d_index d_px d_run app].
    split; [reflexivity|]. split; [reflexivity|].
    intros k Hk. cbn in Hk. lia.
  - unfold read_chunk. cbn [d_rd d_index d_px d_run].
    destruct (d_rd st) as [|b1 rd] eqn:Hrd; [discriminate|].
    destruct (dispatch b1 rd (d_index st) (d_px st) (d_run st))
      as [e | [[rd' px] run]] eqn:Hd; [discriminate|].
    intros [= <-]. cbn [d_rd d_index d_px d_run].
    destruct (dispatch_consumes _ _ _ _ _ _ _ _ Hd) as (c & -> & Htail & Hshort).
    exists (b1 :: c). split; [reflexivity|]. split.
    + intros t. cbn [app]. rewrite Htail. reflexivity.
    + intros [|k] Hk; [reflexivity|].
      cbn [firstn]. cbn [length] in Hk.
      destruct (Hshort k ltac:(lia)) as [e ->]. reflexivity.
Qed.

Lemma decode_pixels_prefix : forall todo st ps st',
  decode_pixels todo st = (ps, StepOk st') ->
  exists c,
    d_rd st = c ++ d_rd st' /\
    (forall k, (k < length c)%nat ->
       is_failure (snd (decode_pixels todo (set_rd st (firstn k c)))) = true).
Proof.
  induction todo as [|todo IH]; intros st ps st' Hdec.
  - cbn in Hdec. injection Hdec as <- <-.
    exists []. split; [reflexivity|]. intros k Hk. cbn in Hk. lia.
  - cbn [decode_pixels] in Hdec.
    destruct (decode_step st) as [| e | st1] eqn:Hstep; try discriminate.
    destruct (decode_pixels todo st1) as [ps1 r1] eqn:Hrest.
    injection Hdec as <- ->.
    destruct (decode_step_consumes st st1 Hstep) as (c1 & Hc1 & Htail & Hshort).
    destruct (IH st1 ps1 st' Hrest) as (c2 & Hc2 & Hshort2).
    exists (c1 ++ c2). split; [rewrite Hc1, Hc2, app_assoc; reflexivity|].
    intros k Hk. rewrite length_app in Hk.
    cbn [decode_pixels].
    destruct (Nat.lt_ge_cases k (length c1)) as [Hlt | Hge].
    + rewrite firstn_app.
      replace (k - length c1)%nat with 0%nat by lia.
      cbn [firstn]. rewrite app_nil_r.
      specialize (Hshort k Hlt).
      destruct (decode_step (set_rd st (firstn k c1))); [reflexivity | reflexivity | discriminate].
    + rewrite firstn_app, (firstn_all2 c1) by lia.
      rewrite Htail.
      specialize (Hshort2 (k - length c1)%nat ltac:(lia)).
      destruct (decode_pixels todo (set_rd st1 (firstn (k - length c1) c2))) as [ps2 r2].
      exact Hshort2.
Qed.

Lemma DecodeHeader_short r :
  (length r < 14)%nat ->
  exists e, DecodeHeader r = inl e /\
            truncated_stream (ErrCouldNotDecodeHeader e) = true.
Proof.
  intros H.
  do 14 (destruct r as [|? r]; [eexists; split; reflexivity|]).
  simpl in H. lia.
Qed.

(** C2 (as amended).  Take the stream that [Encode] writes for a buffer of
    [w*h] pixels of [c] bytes ([w, h >= 1], [c] 3 or 4, fewer than 400,000,000
    pixels), cut it after [k] bytes, anywhere in front of the 8 bytes of the
    end marker, and decode it into any destination: [Decode] returns an error,
    never a success.  The error is one of those that report a stream that
    ended too early (a header field that could not be read, "unexpected EOF
    after ... pixels", io.EOF or io.ErrUnexpectedEOF from the middle of a
    chunk) whenever the cut is inside the header or the destination passes the
    capacity check ([w*h*c <= uint32(len(dest))]); when the header is complete
    and the destination does not pass it, the error is "dest of size ... bytes
    cannot fit image data totalling [w*h*c] bytes", which [Decode] returns
    before it reads a chunk. *)
Theorem Decode_truncated : forall (src : list Z) (w h c : Z) (dest stream : list Z) (k : nat),
  1 <= w -> 1 <= h -> c = 3 \/ c = 4 ->
  Z.of_nat (length src) = w * h * c ->
  Forall is_byte src ->
  w * h < qoiPixelsMax ->
  Qoi.Encode src w h = Returned (inr stream) ->
  (k + 8 < length stream)%nat ->
  exists out e,
    Qoi.Decode (firstn k stream) dest = Returned out /\
    Qoi.err (Qoi.ret out) = Some e /\
    ((k < 14)%nat \/ w * h * c <= u32 (Z.of_nat (length dest)) ->
     truncated_stream e = true) /\
    ((14 <= k)%nat -> u32 (Z.of_nat (length dest)) < w * h * c ->
     e = ErrDestTooSmall (Z.of_nat (length dest)) (w * h * c)).
Proof.
  intros src w h c dest stream k Hw Hh Hc Hlen Hbytes Hmax Henc Hk.
  pose proof Hmax as Hmax'. unfold qoiPixelsMax in Hmax'.
  rewrite (Encode_stream src w h c) in Henc by assumption.
  set (ps := pixels_of src c (c =? 4) (Z.to_nat (w * h))) in *.
  set (body := concat (fst (encode_seq false enc_init ps))) in *.
  assert (Hs : stream = header_bytes w h c ++ body ++ padding) by congruence.
  subst stream. clear Henc.
  rewrite !length_app in Hk. change (length padding) with 8%nat in Hk.
  rewrite header_bytes_length in Hk.
  destruct (Nat.lt_ge_cases k 14) as [Hshort | Hlong].
  - (* the cut is inside the header *)
    destruct (DecodeHeader_short (firstn k (header_bytes w h c ++ body ++ padding)))
      as (e & He & Ht).
    { rewrite length_firstn. lia. }
    unfold Qoi.Decode. rewrite He.
    eexists. exists (ErrCouldNotDecodeHeader e).
    split; [reflexivity|]. split; [reflexivity|].
    split; [intros _; exact Ht | intros Hge; lia].
  - (* the cut is behind the header *)
    rewrite firstn_app, header_bytes_length.
    rewrite (firstn_all2 (header_bytes w h c)) by (rewrite header_bytes_length; lia).
    rewrite firstn_app.
    replace (k - 14 - length body)%nat with 0%nat by lia.
    cbn [firstn]. rewrite app_nil_r.
    unfold Qoi.Decode.
    rewrite DecodeHeader_header_bytes by exact Hc.
    cbn [width height channels].
    rewrite (u32_small w), (u32_small h) by nia.
    rewrite (u32_small (w * h)) by nia.
    replace (w * h =? 0) with false by nia.
    rewrite (u32_small c) by lia.
    pose proof (u32_range (Z.of_nat (length dest))) as Hlr.
    pose proof (Z.mod_le (Z.of_nat (length dest)) (2 ^ 32) ltac:(lia) ltac:(lia)) as Hle.
    fold (u32 (Z.of_nat (length dest))) in Hle.
    destruct (Z_lt_le_dec (u32 (Z.of_nat (length dest))) (w * h * c)) as [Hsmall | Hroom].
    + (* the destination does not pass the capacity check *)
      replace (w * h >? u32 (Z.of_nat (length dest)) / c) with true.
      2:{ symmetry. apply Z.gtb_lt. apply Z.div_lt_upper_bound; lia. }
      rewrite (u32_small (w * h * c)) by nia.
      eexists. eexists. split; [reflexivity|]. split; [reflexivity|].
      split; [intros [Hlt | Hr]; lia | intros _ _; reflexivity].
    + (* it does: the chunks are read, and they end too early *)
      replace (w * h >? u32 (Z.of_nat (length dest)) / c) with false.
      2:{ symmetry. rewrite Z.gtb_ltb. apply Z.ltb_ge. apply Z.div_le_lower_bound; lia. }
      destruct (decode_encode_seq ps new_index start_pixel 0 new_index padding)
        as (D' & last & Hdec).
      { apply pixels_of_wf. exact Hbytes. }
      { unfold wf_pixel, is_byte. cbn. lia. }
      { apply codec_inv_init. }
      { lia. }
      { reflexivity. }
      fold enc_init in Hdec. fold body in Hdec.
      cbn [Z.to_nat Nat.add repeat app] in Hdec.
      assert (Hps : length ps = Z.to_nat (w * h)) by apply pixels_of_length.
      rewrite Hps in Hdec.
      destruct (decode_pixels_prefix _ _ _ _ Hdec) as (cns & Hcns & Hfail).
      cbn [d_rd] in Hcns. apply app_inv_tail in Hcns. subst cns.
      specialize (Hfail (k - 14)%nat ltac:(lia)).
      unfold set_rd in Hfail. cbn [d_index d_px d_run] in Hfail.
      rewrite decode_loop_pixels; [| lia | nia | lia | lia].
      unfold dec_init. clear Hdec.
      destruct (decode_pixels (Z.to_nat (w * h)) _) as [ps' r].
      cbn [fst snd] in *.
      unfold loop_result.
      destruct r as [| e | st']; [| | discriminate].
      * eexists. eexists. split; [reflexivity|]. split; [reflexivity|].
        split; [intros _; reflexivity | intros _ Hlt; lia].
      * eexists. eexists. split; [reflexivity|]. split; [reflexivity|].
        split; [intros _; reflexivity | intros _ Hlt; lia].
Qed.

(** The theorem at a 2x1 RGB image whose stream (14 + 5 + 8 bytes) is cut
    after 17 bytes, inside the literal chunk of the first pixel, and decoded
    into a destination of 6 bytes. *)
Lemma Decode_truncated_witness :
  exists out e,
    Qoi.Decode (firstn 17 [113; 111; 105; 102; 0; 0; 0; 2; 0; 0; 0; 1; 3; 0;
                           254; 10; 200; 30; 192; 0; 0; 0; 0; 0; 0; 0; 1])
               [0; 0; 0; 0; 0; 0] = Returned out /\
    Qoi.err (Qoi.ret out) = Some e /\
    ((17 < 14)%nat \/ 2 * 1 * 3 <= u32 (Z.of_nat (length [0; 0; 0; 0; 0; 0])) ->
     truncated_stream e = true) /\
    ((14 <= 17)%nat -> u32 (Z.of_nat (length [0; 0; 0; 0; 0; 0])) < 2 * 1 * 3 ->
     e = ErrDestTooSmall (Z.of_nat (length [0; 0; 0; 0; 0; 0])) (2 * 1 * 3)).
Proof.
  apply (Decode_truncated [10; 200; 30; 10; 200; 30] 2 1 3).
  - lia.
  - lia.
  - left; reflexivity.
  - reflexivity.
  - repeat constructor; unfold is_byte; lia.
  - reflexivity.
  - reflexivity.
  - simpl; lia.
Defined.

(** C2, as stated, fails on a destination that is too small: the same stream,
    cut after the same 17 bytes and decoded into 5 bytes, makes [Decode]
    return "dest of size 5 bytes cannot fit image data totalling 6 bytes",
    which says nothing of the truncation; the capacity check comes before the
    first chunk is read. *)
Lemma truncated_stream_into_small_dest :
  Qoi.Encode [10; 200; 30; 10; 200; 30] 2 1 =
    Returned (inr [113; 111; 105; 102; 0; 0; 0; 2; 0; 0; 0; 1; 3; 0;
                   254; 10; 200; 30; 192; 0; 0; 0; 0; 0; 0; 0; 1]) /\
  (17 + 8 < length [113; 111; 105; 102; 0; 0; 0; 2; 0; 0; 0; 1; 3; 0;
                    254; 10; 200; 30; 192; 0; 0; 0; 0; 0; 0; 0; 1])%nat /\
  Qoi.Decode (firstn 17 [113; 111; 105; 102; 0; 0; 0; 2; 0; 0; 0; 1; 3; 0;
                         254; 10; 200; 30; 192; 0; 0; 0; 0; 0; 0; 0; 1])
             [0; 0; 0; 0; 0] =
    Returned (Qoi.mkOut (Qoi.mkDecoded 0 0 0 false (Some (ErrDestTooSmall 5 6)))
                        [0; 0; 0; 0; 0] [254; 10; 200]) /\
  truncated_stream (ErrDestTooSmall 5 6) = false.
Proof.
  split; [vm_compute; reflexivity|].
  split; [cbn; lia|].
  split; [vm_compute; reflexivity | reflexivity].
Qed.

(** ** The worked example *)

(** C9.  The 1x1 image whose pixel is opaque black, (0,0,0,255), encodes to
    the 23 bytes of [black_1x1]: the header 71 6F 69 66, 00 00 00 01,
    00 00 00 01, 03, 00, the RUN chunk C0 and the terminator
    00 00 00 00 00 00 00 01; this holds for [Encode] on the RGB buffer of the
    pixel (alpha implicit) and for the image-based [Encode].  Decoding the 23
    bytes gives the pixel back: [Decode] stores 0,0,0 and reports a 1x1 image
    without alpha, and the image-based [Decode] returns the 1x1 image whose
    pixel reads as (0,0,0,255). *)
Theorem black_pixel_example :
  black_1x1 =
    [113; 111; 105; 102; 0; 0; 0; 1; 0; 0; 0; 1; 3; 0] ++ [192]
      ++ [0; 0; 0; 0; 0; 0; 0; 1] /\
  length black_1x1 = 23%nat /\
  Qoi.Encode [0; 0; 0] 1 1 = Returned (inr black_1x1) /\
  (forall dest,
     3 <= Z.of_nat (length dest) < 2 ^ 32 ->
     Qoi.Decode black_1x1 dest =
       Returned (Qoi.mkOut (Qoi.mkDecoded 3 1 1 false None)
                           ([0; 0; 0] ++ skipn 3 dest) padding)) /\
  QoiImage.Encode black_image = Returned (inr black_1x1) /\
  QoiImage.Decode black_1x1 =
    Returned (QoiImage.mkResult (Some (QoiImage.mkImage [0; 0; 0] 1 1 3 0))
                                None [] padding) /\
  QoiImage.Image_At (QoiImage.mkImage [0; 0; 0] 1 1 3 0) 0 0
    = Some (QoiImage.mkNRGBA 0 0 0 255).
Proof.
  split; [reflexivity|]. split; [reflexivity|].
  split; [vm_compute; reflexivity|].
  split.
  - intros dest Hdest.
    change black_1x1
      with (header_bytes 1 1 3
              ++ concat (fst (encode_seq false enc_init [start_pixel])) ++ padding).
    rewrite Decode_chunks; try first [lia | reflexivity | left; reflexivity].
    repeat constructor; unfold is_byte; cbn; lia.
  - repeat split; vm_compute; reflexivity.
Qed.

(** The decoding part of the example at a destination of four bytes. *)
Lemma black_pixel_example_witness :
  Qoi.Decode black_1x1 [9; 9; 9; 9] =
    Returned (Qoi.mkOut (Qoi.mkDecoded 3 1 1 false None)
                        ([0; 0; 0] ++ skipn 3 [9; 9; 9; 9]) padding).
Proof.
  destruct black_pixel_example as (_ & _ & _ & H & _).
  apply H. cbn. lia.
Defined.

(** ** Runs in the encoder *)

Lemma new_pixel_chunk_not_run E prev q :
  is_run_chunk (fst (new_pixel_chunk E prev q)) = false.
Proof.
  unfold new_pixel_chunk.
  destruct (pixel_eqb (index_get E (slot q)) q).
  - pose proof (index_facts (slot q) (slot_range q)) as Hok.
    unfold index_ok in Hok. cbv zeta in Hok. split_andb.
    cbn [fst]. apply negb_true_iff. assumption.
  - destruct (px3 q =? px3 prev); [|reflexivity].
    match goal with |- context [if ?c then _ else _] => destruct c eqn:Hd end.
    + split_andb.
      match goal with
      | |- context [diff_byte ?r ?g ?b] =>
          pose proof (diff_facts r g b ltac:(lia) ltac:(lia) ltac:(lia)) as Hok
      end.
      unfold diff_ok in Hok. cbv zeta in Hok. split_andb.
      cbn [fst]. apply negb_true_iff. assumption.
    + match goal with |- context [if ?c then _ else _] => destruct c end; reflexivity.
Qed.

Lemma run_chunk_value r :
  1 <= r <= 62 -> is_run_chunk (run_chunk r) = true /\ chunk_value (run_chunk r) = r - 1.
Proof.
  intros Hr. pose proof (run_facts r Hr) as Hok.
  unfold run_ok in Hok. cbv zeta in Hok. split_andb.
  unfold is_run_chunk, chunk_value, run_chunk. cbn [hd].
  repeat match goal with
         | H : tag_eqb _ _ = true |- _ => apply tag_eqb_eq in H
         | H : (_ =? _) = true |- _ => apply Z.eqb_eq in H
         end.
  split; [|assumption].
  match goal with H : tag_of _ = TRUN |- _ => revert H end.
  unfold tag_of.
  repeat match goal with |- context [if ?c then _ else _] => destruct c eqn:? end;
    try discriminate.
  intros _. reflexivity.
Qed.

(** A span of [n] pixels equal to the previous pixel [p], [r] of which are
    already counted, followed by a different pixel [q]: as long as the counter
    does not pass 62, the span is written as one RUN chunk (none when the
    counter is still 0), and the chunk of [q] follows. *)
Lemma encode_seq_span : forall n more E p r q rest,
  q <> p -> 0 <= r -> r + Z.of_nat n <= 62 -> (r = 62 -> False) ->
  encode_seq more (mkEnc E p r) (repeat p n ++ q :: rest) =
    let '(cs, st') :=
      encode_seq more (mkEnc (snd (new_pixel_chunk E p q)) q 0) rest in
    ((if r + Z.of_nat n >? 0 then [run_chunk (r + Z.of_nat n)] else [])
       ++ fst (new_pixel_chunk E p q) :: cs, st').
Proof.
  induction n as [|n IH]; intros more E p r q rest Hq Hr Hmax H62.
  - cbn [repeat app encode_seq].
    rewrite encode_pixel_neq by (apply pixel_eqb_neq; exact Hq).
    cbn [e_run e_index e_prev]. rewrite Z.add_0_r.
    replace (if r >? 0 then 0 else r) with 0 by (destruct (r >? 0) eqn:?; lia).
    destruct (encode_seq more _ rest) as [cs st'].
    rewrite <- app_assoc. reflexivity.
  - cbn [repeat app encode_seq].
    rewrite encode_pixel_eq by apply pixel_eqb_refl.
    cbn [e_run e_index e_prev].
    replace (is_nil (repeat p n ++ q :: rest)) with false
      by (destruct n; reflexivity).
    cbn [andb]. rewrite orb_false_r.
    destruct (r + 1 =? 62) eqn:E62.
    + assert (n = 0%nat) by lia. subst n.
      cbn [repeat app encode_seq].
      rewrite encode_pixel_neq by (apply pixel_eqb_neq; exact Hq).
      cbn [e_run e_index e_prev Z.gtb Z.compare app].
      destruct (encode_seq more _ rest) as [cs st'].
      replace (r + Z.of_nat 1) with (r + 1) by lia.
      replace (r + 1 >? 0) with true by lia.
      reflexivity.
    + rewrite IH; [| assumption | lia | lia | lia].
      destruct (encode_seq more _ rest) as [cs st'].
      replace (r + 1 + Z.of_nat n) with (r + Z.of_nat (S n)) by lia.
      reflexivity.
Qed.

(** The same span at the end of the image. *)
Lemma encode_seq_span_end : forall n E p r,
  0 <= r -> r + Z.of_nat (S n) <= 62 ->
  fst (encode_seq false (mkEnc E p r) (repeat p (S n))) = [run_chunk (r + Z.of_nat (S n))].
Proof.
  induction n as [|n IH]; intros E p r Hr Hmax.
  - cbn [repeat encode_seq is_nil andb negb].
    rewrite encode_pixel_eq by apply pixel_eqb_refl.
    cbn [e_run e_index e_prev]. rewrite orb_true_r. reflexivity.
  - change (repeat p (S (S n))) with (p :: repeat p (S n)).
    cbn [encode_seq].
    rewrite encode_pixel_eq by apply pixel_eqb_refl.
    cbn [e_run e_index e_prev repeat is_nil andb].
    rewrite orb_false_r.
    replace (r + 1 =? 62) with false by lia.
    specialize (IH E p (r + 1) ltac:(lia) ltac:(lia)).
    change (p :: repeat p n) with (repeat p (S n)).
    destruct (encode_seq false (mkEnc E p (r + 1)) (repeat p (S n))) as [cs st'].
    cbn [fst app] in *. rewrite IH. f_equal. f_equal. lia.
Qed.

Lemma encode_pixel_run_bound st p last :
  0 <= e_run st < 62 ->
  0 <= e_run (snd (encode_pixel st p last)) < 62 /\
  forall c, In c (fst (encode_pixel st p last)) -> is_run_chunk c = true ->
            0 <= chunk_value c <= 61.
Proof.
  intros Hr.
  destruct (pixel_eqb p (e_prev st)) eqn:Heq.
  - rewrite encode_pixel_eq by exact Heq.
    destruct ((e_run st + 1 =? 62) || last) eqn:Hf; cbn [fst snd e_run].
    + split; [lia|]. intros c [<- | []] _.
      destruct (run_chunk_value (e_run st + 1) ltac:(lia)) as [_ ->]. lia.
    + apply orb_false_iff in Hf as [H62 _]. split; [lia|]. intros c [].
  - rewrite encode_pixel_neq by exact Heq. cbn [fst snd e_run].
    split; [destruct (e_run st >? 0) eqn:?; lia|].
    intros c Hin Hrun. apply in_app_or in Hin as [Hin | [<- | []]].
    + destruct (e_run st >? 0) eqn:Hpos; [|destruct Hin].
      destruct Hin as [<- | []].
      destruct (run_chunk_value (e_run st) ltac:(lia)) as [_ ->]. lia.
    + rewrite new_pixel_chunk_not_run in Hrun. discriminate.
Qed.

Lemma encode_seq_run_bound : forall ps more st c,
  0 <= e_run st < 62 ->
  In c (fst (encode_seq more st ps)) -> is_run_chunk c = true ->
  0 <= chunk_value c <= 61.
Proof.
  induction ps as [|p ps IH]; intros more st c Hr Hin Hrun; [destruct Hin|].
  cbn [encode_seq] in Hin.
  destruct (encode_pixel_run_bound st p (is_nil ps && negb more) Hr) as [Hr' Hc].
  destruct (encode_pixel st p (is_nil ps && negb more)) as [cs st1].
  cbn [fst snd] in *.
  specialize (IH more st1 c Hr').
  destruct (encode_seq more st1 ps) as [cs' st2]. cbn [fst] in *.
  apply in_app_or in Hin as [Hin | Hin]; auto.
Qed.

Lemma count_run_chunks_app a b :
  count_run_chunks (a ++ b) = (count_run_chunks a + count_run_chunks b)%nat.
Proof. unfold count_run_chunks. rewrite filter_app, length_app. reflexivity. Qed.

Lemma encode_seq_new_pixel more E prev p l :
  p <> prev ->
  encode_seq more (mkEnc E prev 0) (p :: l) =
    let '(cs, st') := encode_seq more (mkEnc (snd (new_pixel_chunk E prev p)) p 0) l in
    (fst (new_pixel_chunk E prev p) :: cs, st').
Proof.
  intros Hp. cbn [encode_seq].
  rewrite encode_pixel_neq by (apply pixel_eqb_neq; exact Hp).
  cbn [e_run e_index e_prev Z.gtb Z.compare app].
  destruct (encode_seq more _ l) as [cs st']. reflexivity.
Qed.

Lemma count_run_span E p q k :
  0 <= k <= 62 ->
  (count_run_chunks ((if k >? 0 then [run_chunk k] else [])
                       ++ [fst (new_pixel_chunk E p q)]) <= 1)%nat.
Proof.
  intros Hk. rewrite count_run_chunks_app.
  unfold count_run_chunks at 2. cbn [filter].
  rewrite new_pixel_chunk_not_run. cbn [length].
  destruct (k >? 0) eqn:Hpos; unfold count_run_chunks; cbn [filter length]; [|lia].
  destruct (is_run_chunk (run_chunk k)); cbn [length]; lia.
Qed.

(** C5 (as amended).  (A) When 62 consecutive pixels equal the pixel before
    them (the start pixel (0,0,0,255) at the beginning of the image) and the
    run counter is 0 in front of them, and a different pixel follows, the
    encoder writes exactly one RUN chunk, the byte 0xFD with value 61, and
    right after it the chunk of the next pixel, which is not a RUN chunk.
    (A') When the 62 identical pixels differ from the pixel before them, the
    first is written as its own chunk and the other 61 as one RUN chunk, 0xFC
    with value 60.  (B) No RUN chunk the encoder writes has a value above 61.
    (C) For a span of at most 62 identical pixels that starts with the run
    counter at 0, whether a different pixel follows or the image ends, the
    encoder writes at most one RUN chunk.  (D) The stream of [Encode] is the
    header, the chunks of this fold and the padding, so (B) holds of it. *)
Theorem run_boundary :
  (forall more E p q rest, q <> p ->
     fst (encode_seq more (mkEnc E p 0) (repeat p 62 ++ q :: rest)) =
       [253] :: fst (new_pixel_chunk E p q)
             :: fst (encode_seq more (mkEnc (snd (new_pixel_chunk E p q)) q 0) rest) /\
     is_run_chunk [253] = true /\ chunk_value [253] = 61 /\
     is_run_chunk (fst (new_pixel_chunk E p q)) = false) /\
  (forall more E prev p q rest, p <> prev -> q <> p ->
     let E1 := snd (new_pixel_chunk E prev p) in
     fst (encode_seq more (mkEnc E prev 0) (repeat p 62 ++ q :: rest)) =
       fst (new_pixel_chunk E prev p) :: [252] :: fst (new_pixel_chunk E1 p q)
         :: fst (encode_seq more (mkEnc (snd (new_pixel_chunk E1 p q)) q 0) rest) /\
     is_run_chunk (fst (new_pixel_chunk E prev p)) = false /\
     is_run_chunk [252] = true /\ chunk_value [252] = 60 /\
     is_run_chunk (fst (new_pixel_chunk E1 p q)) = false) /\
  (forall more st ps c,
     0 <= e_run st < 62 ->
     In c (fst (encode_seq more st ps)) -> is_run_chunk c = true ->
     0 <= chunk_value c <= 61) /\
  (forall more E prev p q n, (1 <= n <= 62)%nat -> q <> p ->
     (count_run_chunks
        (fst (encode_seq more (mkEnc E prev 0) (repeat p n ++ [q]))) <= 1)%nat /\
     (count_run_chunks
        (fst (encode_seq false (mkEnc E prev 0) (repeat p n))) <= 1)%nat) /\
  (forall src w h c,
     1 <= w -> 1 <= h -> c = 3 \/ c = 4 ->
     Z.of_nat (length src) = w * h * c -> w * h < qoiPixelsMax ->
     let chunks :=
       fst (encode_seq false enc_init (pixels_of src c (c =? 4) (Z.to_nat (w * h)))) in
     Qoi.Encode src w h =
       Returned (inr (header_bytes w h c ++ concat chunks ++ padding)) /\
     forall c0, In c0 chunks -> is_run_chunk c0 = true -> 0 <= chunk_value c0 <= 61).
Proof.
  split; [|split; [|split; [|split]]].
  - intros more E p q rest Hq.
    rewrite (encode_seq_span 62 more E p 0 q rest) by (assumption || lia).
    destruct (encode_seq more _ rest) as [cs st'].
    repeat split; try reflexivity. apply new_pixel_chunk_not_run.
  - intros more E prev p q rest Hp Hq E1.
    change (repeat p 62) with (p :: repeat p 61). cbn [app].
    rewrite encode_seq_new_pixel by exact Hp. fold E1.
    rewrite (encode_seq_span 61 more E1 p 0 q rest) by (assumption || lia).
    destruct (encode_seq more _ rest) as [cs st'].
    repeat split; try reflexivity; apply new_pixel_chunk_not_run.
  - intros more st ps c. apply encode_seq_run_bound.
  - intros more E prev p q n Hn Hq.
    destruct (pixel_eqb p prev) eqn:Heq.
    + apply pixel_eqb_eq in Heq. subst prev. split.
      * rewrite (encode_seq_span n more E p 0 q []) by (assumption || lia).
        cbn [encode_seq fst]. apply count_run_span. lia.
      * destruct n as [|n]; [lia|].
        rewrite encode_seq_span_end by lia.
        unfold count_run_chunks. cbn [filter].
        destruct (is_run_chunk _); cbn [length]; lia.
    + apply pixel_eqb_neq in Heq.
      destruct n as [|n]; [lia|].
      change (repeat p (S n)) with (p :: repeat p n). cbn [app].
      rewrite !encode_seq_new_pixel by exact Heq.
      set (E1 := snd (new_pixel_chunk E prev p)).
      split.
      * rewrite (encode_seq_span n more E1 p 0 q []) by (assumption || lia).
        cbn [encode_seq fst].
        change (?a :: ?l) with ([a] ++ l) at 1.
        rewrite count_run_chunks_app.
        unfold count_run_chunks at 1. cbn [filter].
        rewrite new_pixel_chunk_not_run. cbn [length Nat.add].
        apply count_run_span. lia.
      * destruct n as [|n].
        -- cbn [repeat encode_seq fst]. unfold count_run_chunks. cbn [filter].
           rewrite new_pixel_chunk_not_run. cbn [length]. lia.
        -- pose proof (encode_seq_span_end n E1 p 0 ltac:(lia) ltac:(lia)) as Hend.
           destruct (encode_seq false (mkEnc E1 p 0) (repeat p (S n))) as [cs st'].
           cbn [fst] in *. subst cs.
           unfold count_run_chunks. cbn [filter].
           rewrite new_pixel_chunk_not_run.
           destruct (is_run_chunk _); cbn [length]; lia.
  - intros src w h c Hw Hh Hc Hlen Hmax chunks. split.
    + apply Encode_stream; assumption.
    + intros c0. apply encode_seq_run_bound. cbn. lia.
Qed.

(** Part (A) at the beginning of an image: 62 start pixels, then (1,2,3,255),
    which ends the image; the chunks are RUN 61 and a LUMA chunk. *)
Lemma run_boundary_witness :
  fst (encode_seq false (mkEnc new_index start_pixel 0)
         (repeat start_pixel 62 ++ [mkpx 1 2 3 255])) =
    [[253]; [162; 121]].
Proof.
  destruct run_boundary as (HA & _).
  destruct (HA false new_index start_pixel (mkpx 1 2 3 255) []) as (H & _).
  - discriminate.
  - rewrite H. reflexivity.
Defined.

(** C5, as stated, fails on a run that differs from the pixel before it.  The
    63x1 image [run62_src] is a run of exactly 62 pixels (1,1,1) followed by
    the different pixel (2,2,2).  The encoder writes the first (1,1,1) as a
    DIFF chunk, the other 61 as the RUN chunk 0xFC, whose value is 60, and
    (2,2,2) as a DIFF chunk: no RUN chunk of value 61 is written. *)
Lemma run_of_62_gives_run_value_60 :
  pixels_of run62_src 3 false 63 = repeat (mkpx 1 1 1 255) 62 ++ [mkpx 2 2 2 255] /\
  Qoi.Encode run62_src 63 1 =
    Returned (inr (header_bytes 63 1 3 ++ concat [[127]; [252]; [127]] ++ padding)) /\
  fst (encode_seq false enc_init (pixels_of run62_src 3 false 63))
    = [[127]; [252]; [127]] /\
  count_run_chunks [[127]; [252]; [127]] = 1%nat /\
  chunk_value [252] = 60 /\
  ~ In [253] [[127]; [252]; [127]].
Proof.
  repeat split; try (vm_compute; reflexivity).
  intros [H | [H | [H | []]]]; discriminate.
Qed.

(** ** The channel count the encoders write *)

Lemma RGBA_alpha_opaque c : QoiImage.cA c = 255 -> QoiImage.RGBA_alpha c = 65535.
Proof. intros H. unfold QoiImage.RGBA_alpha. rewrite H. reflexivity. Qed.

Lemma opaque_row_true im y : forall cols x,
  (forall x', x <= x' < x + Z.of_nat cols -> QoiImage.cA (QoiImage.At im x' y) = 255) ->
  QoiImage.opaque_row im cols x y = true.
Proof.
  induction cols as [|cols IH]; intros x H; [reflexivity|].
  cbn [QoiImage.opaque_row].
  rewrite RGBA_alpha_opaque by (apply H; lia).
  cbn [Z.eqb Pos.eqb negb]. apply IH. intros x' Hx'. apply H. lia.
Qed.

Lemma opaque_rows_true im x0 cols : forall rows y,
  (forall x' y', x0 <= x' < x0 + Z.of_nat cols -> y <= y' < y + Z.of_nat rows ->
                 QoiImage.cA (QoiImage.At im x' y') = 255) ->
  QoiImage.opaque_rows im rows y x0 cols = true.
Proof.
  induction rows as [|rows IH]; intros y H; [reflexivity|].
  cbn [QoiImage.opaque_rows].
  rewrite opaque_row_true by (intros x' Hx'; apply H; lia).
  apply IH. intros x' y' Hx' Hy'. apply H; lia.
Qed.

Lemma isOpaqueImage_true im :
  (forall x y,
     QoiImage.MinX (QoiImage.Bounds im) <= x < QoiImage.MaxX (QoiImage.Bounds im) ->
     QoiImage.MinY (QoiImage.Bounds im) <= y < QoiImage.MaxY (QoiImage.Bounds im) ->
     QoiImage.cA (QoiImage.At im x y) = 255) ->
  QoiImage.Opaque im <> Some false ->
  QoiImage.isOpaqueImage im = true.
Proof.
  intros Hpix Hcap. unfold QoiImage.isOpaqueImage.
  destruct (QoiImage.Opaque im) as [[|]|]; [reflexivity | congruence |].
  apply opaque_rows_true. intros x' y' Hx' Hy'. apply Hpix; lia.
Qed.

Lemma image_Encode_stream img stream :
  QoiImage.Encode img = Returned (inr stream) ->
  exists w h chunks,
    stream =
      header_bytes w h (if QoiImage.isOpaqueImage img then 3 else 4)
        ++ concat chunks ++ padding.
Proof.
  unfold QoiImage.Encode.
  repeat match goal with |- context [if ?c then _ else _] =>
           lazymatch c with
           | negb (QoiImage.isOpaqueImage img) => fail
           | _ => destruct c; [discriminate|]
           end
         end.
  destruct (encode_rows _ _ _ _ _ _ _ _ _) as [[st chunks]|]; [|discriminate].
  intros [= <-].
  eexists _, _, chunks.
  destruct (QoiImage.isOpaqueImage img); reflexivity.
Qed.

(** ** The image-based codec *)

Lemma body_loop_pixels numPixels c : forall todo st n written dest,
  0 < c ->
  (todo * Z.to_nat c <= length dest)%nat ->
  0 <= n -> n + Z.of_nat todo < 2 ^ 63 ->
  QoiImage.body_loop numPixels c todo st n written dest =
    Returned (body_result numPixels c n written dest
                (fst (decode_pixels todo st)) (snd (decode_pixels todo st))).
Proof.
  induction todo as [|todo IH]; intros st n written dest Hc Hroom Hn Hmax.
  - cbn [QoiImage.body_loop decode_pixels fst snd]. unfold body_result.
    cbn [length flat_map Nat.mul skipn app]. reflexivity.
  - cbn [QoiImage.body_loop decode_pixels].
    destruct (decode_step st) as [| e | st'] eqn:Hstep.
    + cbn [fst snd]. unfold body_result.
      cbn [length flat_map Nat.mul skipn app]. rewrite Z.add_0_r. reflexivity.
    + cbn [fst snd]. unfold body_result.
      cbn [length flat_map Nat.mul skipn app]. reflexivity.
    + rewrite copy_px_ok by nia.
      rewrite (i64_small (n + 1)) by lia.
      rewrite IH; [| lia | rewrite length_skipn; nia | lia | lia].
      destruct (decode_pixels todo st') as [ps r]. cbn [fst snd].
      unfold body_result. cbn [length flat_map].
      rewrite skipn_skipn.
      replace (length ps * Z.to_nat c + Z.to_nat c)%nat
        with (S (length ps) * Z.to_nat c)%nat by lia.
      replace (n + 1 + Z.of_nat (length ps)) with (n + Z.of_nat (S (length ps))) by lia.
      rewrite <- !app_assoc. reflexivity.
Qed.

Lemma image_Encode_pixels img w h :
  QoiImage.Bounds img = QoiImage.mkRect 0 0 w h ->
  1 <= w -> 1 <= h -> w * h < qoiPixelsMax ->
  QoiImage.Encode img =
    Returned (inr (header_bytes w h (if QoiImage.isOpaqueImage img then 3 else 4)
                   ++ concat (fst (encode_seq false enc_init
                                     (image_pixels img w (Z.to_nat (w * h)))))
                   ++ padding)).
Proof.
  intros Hb Hw Hh Hmax. unfold QoiImage.Encode. rewrite Hb.
  cbn [QoiImage.MinX QoiImage.MinY QoiImage.MaxX QoiImage.MaxY].
  pose proof Hmax as Hmax'. unfold qoiPixelsMax in Hmax'.
  rewrite !Z.sub_0_r.
  rewrite (i64_small w), (i64_small h) by nia.
  rewrite (i64_small (w * h)) by nia.
  replace (w * h =? 0) with false by nia.
  replace (w * h >=? qoiPixelsMax) with false by (unfold qoiPixelsMax; lia).
  rewrite (i64_small (w - 1)), (i64_small (h - 1)) by nia.
  rewrite (encode_rows_fold _ (fun i => image_pixel img (i mod w) (i / w)) w h); try lia.
  - cbn [Z.mul].
    replace (Z.to_nat h * Z.to_nat w)%nat with (Z.to_nat (w * h)) by nia.
    fold (image_pixels img w (Z.to_nat (w * h))).
    destruct (encode_seq false enc_init _) as [cs st'].
    cbn [fst app].
    destruct (QoiImage.isOpaqueImage img); reflexivity.
  - intros x y Hx Hy. unfold image_pixel.
    rewrite Z.add_comm, Z_mod_plus_full, Z_div_plus_full by lia.
    rewrite Z.mod_small, Z.div_small by lia.
    rewrite Z.add_0_l. reflexivity.
Qed.

Lemma image_pixels_length img w n : length (image_pixels img w n) = n.
Proof. unfold image_pixels. rewrite length_map. apply zrange_length. Qed.

Lemma image_pixels_wf img w n :
  (forall x y, wf_color (QoiImage.At img x y)) ->
  Forall wf_pixel (image_pixels img w n).
Proof.
  intros H. unfold image_pixels. apply Forall_map, Forall_forall.
  intros i _. apply (H (i mod w) (i / w)).
Qed.

(** Decoding what the image-based encoder wrote for an image with bounds
    (0,0)-(w,h): the image returned has the encoder's channel count and, as
    [Pix], the first [c] bytes of every pixel. *)
Lemma image_Decode_Encode img w h :
  QoiImage.Bounds img = QoiImage.mkRect 0 0 w h ->
  1 <= w -> 1 <= h -> w * h < qoiPixelsMax ->
  (forall x y, wf_color (QoiImage.At img x y)) ->
  let c := if QoiImage.isOpaqueImage img then 3 else 4 in
  exists stream,
    QoiImage.Encode img = Returned (inr stream) /\
    DecodeHeader stream =
      inr (mkHeader qoiMagic w h c 0, skipn 14 stream) /\
    QoiImage.Decode stream =
      Returned (QoiImage.mkResult
        (Some (QoiImage.mkImage
                 (flat_map (px_out c) (image_pixels img w (Z.to_nat (w * h))))
                 w h c 0))
        None [] padding).
Proof.
  intros Hb Hw Hh Hmax Hwf c.
  pose proof Hmax as Hmax'. unfold qoiPixelsMax in Hmax'.
  assert (Hc : c = 3 \/ c = 4) by (subst c; destruct (QoiImage.isOpaqueImage img); auto).
  eexists. split; [apply (image_Encode_pixels img w h); assumption|].
  fold c.
  set (ps := image_pixels img w (Z.to_nat (w * h))).
  destruct (decode_encode_seq ps new_index start_pixel 0 new_index padding)
    as (D' & last & Hdec).
  { apply image_pixels_wf. exact Hwf. }
  { unfold wf_pixel, is_byte. cbn. lia. }
  { apply codec_inv_init. }
  { lia. }
  { reflexivity. }
  fold enc_init in Hdec.
  cbn [Z.to_nat Nat.add repeat app] in Hdec.
  assert (Hps : length ps = Z.to_nat (w * h)) by apply image_pixels_length.
  rewrite Hps in Hdec.
  assert (Hhdr : DecodeHeader
                   (header_bytes w h c ++ concat (fst (encode_seq false enc_init ps)) ++ padding)
                 = inr (mkHeader qoiMagic w h c 0,
                        concat (fst (encode_seq false enc_init ps)) ++ padding)).
  { rewrite DecodeHeader_header_bytes by exact Hc.
    rewrite (u32_small w), (u32_small h) by nia. reflexivity. }
  split.
  { rewrite Hhdr. reflexivity. }
  unfold QoiImage.Decode. rewrite Hhdr.
  cbn [width height channels colorspace QoiImage.Channels QoiImage.Width
       QoiImage.Height QoiImage.Colorspace].
  rewrite (u32_small (w * h)) by nia.
  rewrite (u32_small c) by lia.
  rewrite (u32_small (w * h * c)) by nia.
  unfold QoiImage.decodeBody. rewrite repeat_length.
  replace (c =? 0) with false by (symmetry; apply Z.eqb_neq; lia).
  replace (Z.quot (Z.of_nat (Z.to_nat (w * h * c))) c) with (w * h)
    by (rewrite Z2Nat.id by nia; symmetry; apply Z.quot_mul; lia).
  rewrite body_loop_pixels; [| lia | rewrite repeat_length; nia | lia | lia].
  unfold dec_init. rewrite Hdec. cbn [fst snd].
  unfold body_result. cbn [d_rd app].
  rewrite Hps.
  replace (Z.to_nat (w * h) * Z.to_nat c)%nat with (Z.to_nat (w * h * c)) by nia.
  rewrite skipn_all2 by (rewrite repeat_length; lia).
  rewrite app_nil_r. reflexivity.
Qed.

Lemma px_out_length c p : 0 <= c <= 4 -> length (px_out c p) = Z.to_nat c.
Proof.
  intros Hc. unfold px_out. rewrite length_firstn. cbn [px_bytes length]. lia.
Qed.

Lemma skipn_flat_map_px_out c : forall i ps,
  0 <= c <= 4 ->
  skipn (i * Z.to_nat c) (flat_map (px_out c) ps) = flat_map (px_out c) (skipn i ps).
Proof.
  induction i as [|i IH]; intros ps Hc; [reflexivity|].
  destruct ps as [|p ps]; [cbn; apply skipn_nil|].
  cbn [flat_map skipn Nat.mul].
  rewrite Nat.add_comm, <- skipn_skipn, skipn_app.
  rewrite (skipn_all2 (px_out c p)) by (rewrite px_out_length; lia).
  rewrite px_out_length by lia.
  rewrite Nat.sub_diag. cbn [app skipn]. apply IH. exact Hc.
Qed.

Lemma flat_pixel_flat_map c ps i d :
  c = 3 \/ c = 4 -> (i < length ps)%nat ->
  flat_pixel (flat_map (px_out c) ps) c (c =? 4) (Z.of_nat i) =
    mkpx (px0 (nth i ps d)) (px1 (nth i ps d)) (px2 (nth i ps d))
         (if c =? 4 then px3 (nth i ps d) else 255).
Proof.
  intros Hc Hi.
  assert (Hout : px_out c (flat_pixel (flat_map (px_out c) ps) c (c =? 4) (Z.of_nat i))
                 = px_out c (nth i ps d)).
  { rewrite px_out_flat; [| exact Hc | lia |].
    - replace (Z.to_nat (Z.of_nat i * c)) with (i * Z.to_nat c)%nat by nia.
      rewrite skipn_flat_map_px_out by lia.
      rewrite <- (firstn_skipn i ps) in Hi.
      destruct (skipn i ps) as [|p rest] eqn:Hsk.
      + exfalso. rewrite app_nil_r, length_firstn in Hi.
        assert (length (skipn i ps) = 0%nat) by (rewrite Hsk; reflexivity).
        rewrite length_skipn in *. lia.
      + assert (Hnth : nth i ps d = p).
        { rewrite <- (firstn_skipn i ps), Hsk.
          rewrite app_nth2 by (rewrite length_firstn; lia).
          rewrite length_firstn.
          assert (length (skipn i ps) > 0)%nat by (rewrite Hsk; cbn; lia).
          rewrite length_skipn in *.
          replace (i - Nat.min i (length ps))%nat with 0%nat by lia. reflexivity. }
        rewrite Hnth. cbn [flat_map].
        rewrite firstn_app, px_out_length, Nat.sub_diag by lia.
        cbn [firstn]. rewrite app_nil_r.
        apply firstn_all2. rewrite px_out_length; lia.
    - rewrite flat_map_px_out_length by lia. nia. }
  remember (flat_map (px_out c) ps) as l eqn:Hl. clear Hl.
  unfold flat_pixel in *. unfold px_out, px_bytes in Hout.
  cbn [px0 px1 px2 px3] in Hout.
  destruct Hc as [-> | ->];
    cbn [Z.eqb Pos.eqb Z.to_nat Pos.to_nat Pos.iter_op Nat.add firstn] in Hout |- *;
    injection Hout; intros; f_equal; assumption.
Qed.

Lemma Image_At_src_pixel pix w h c cs x y :
  QoiImage.Image_At (QoiImage.mkImage pix w h c cs) x y =
    match Qoi.src_pixel pix w c (c =? 4) x y with
    | Some p => Some (QoiImage.mkNRGBA (px0 p) (px1 p) (px2 p) (px3 p))
    | None => None
    end.
Proof.
  unfold QoiImage.Image_At, Qoi.src_pixel.
  cbn [QoiImage.Pix QoiImage.Width QoiImage.Channels].
  repeat match goal with
         | |- context [match slice_get ?a ?b with _ => _ end] =>
             destruct (slice_get a b)
         | |- context [if ?b then _ else _] => destruct b
         end; reflexivity.
Qed.

Lemma nth_zrange_map {A} (f : Z -> A) n i d :
  (i < n)%nat -> nth i (map f (zrange 0 n)) d = f (Z.of_nat i).
Proof.
  intros Hi.
  assert (H : forall n lo i, (i < n)%nat ->
            nth i (map f (zrange lo n)) d = f (lo + Z.of_nat i)).
  { clear. induction n as [|n IH]; intros lo i Hi; [lia|].
    destruct i as [|i]; cbn [zrange map nth].
    - f_equal. lia.
    - rewrite IH by lia. f_equal. lia. }
  rewrite H by exact Hi. reflexivity.
Qed.

(** Reading a pixel of the decoded image of [image_Decode_Encode]. *)
Lemma decoded_image_At img w h c x y :
  c = 3 \/ c = 4 ->
  1 <= w -> 1 <= h -> w * h < qoiPixelsMax ->
  0 <= x < w -> 0 <= y < h ->
  QoiImage.Image_At
    (QoiImage.mkImage (flat_map (px_out c) (image_pixels img w (Z.to_nat (w * h))))
                      w h c 0) x y =
    Some (QoiImage.mkNRGBA (QoiImage.cR (QoiImage.At img x y))
                           (QoiImage.cG (QoiImage.At img x y))
                           (QoiImage.cB (QoiImage.At img x y))
                           (if c =? 4 then QoiImage.cA (QoiImage.At img x y) else 255)).
Proof.
  intros Hc Hw Hh Hmax Hx Hy.
  pose proof Hmax as Hmax'. unfold qoiPixelsMax in Hmax'.
  rewrite Image_At_src_pixel.
  assert (Hlen : Z.of_nat (length (flat_map (px_out c)
                                     (image_pixels img w (Z.to_nat (w * h)))))
                 = w * h * c)
    by (rewrite flat_map_px_out_length, image_pixels_length by lia; nia).
  rewrite (src_pixel_flat _ w h c x y Hc) by (assumption || lia).
  replace (y * w + x) with (Z.of_nat (Z.to_nat (y * w + x))) by nia.
  rewrite (flat_pixel_flat_map c _ _ zero_pixel) by
    (try assumption; rewrite image_pixels_length; nia).
  unfold image_pixels. rewrite nth_zrange_map by nia.
  rewrite Z2Nat.id by nia.
  rewrite Z.add_comm, Z_mod_plus_full, Z_div_plus_full by lia.
  rewrite Z.mod_small, Z.div_small by lia.
  rewrite Z.add_0_l. unfold image_pixel. cbn [px0 px1 px2 px3].
  reflexivity.
Qed.

(** C3 (as amended).  (1) For every fully opaque image of [color.NRGBA]
    pixels (every pixel's alpha is 255; an [Opaque()] method, if the image
    has one, does not deny it) with bounds (0,0)-(w,h) and fewer than
    400,000,000 pixels, the image-based [Encode], which chooses the channel
    count by [isOpaqueImage], writes a header whose channels field is 3, and
    decoding the stream returns a 3-channel image of the same size whose
    buffer has 3 bytes per pixel and whose pixels read as the original ones,
    alpha 255 included.  (2) Whatever the bounds, a stream that this [Encode]
    returns for a fully opaque image has 3 in its channels field.  (3) The
    byte-buffer [Encode] does not look at alpha: the channels field is the
    number of bytes per pixel of the buffer it is given, and decoding, into a
    destination of at least [w*h*c] and fewer than 2^32 bytes, returns that
    buffer (so, for an RGB buffer, three bytes per pixel and includesAlpha
    false). *)
Theorem opaque_image_channels :
  (forall img w h,
     QoiImage.Bounds img = QoiImage.mkRect 0 0 w h ->
     1 <= w -> 1 <= h -> w * h < qoiPixelsMax ->
     (forall x y, wf_color (QoiImage.At img x y)) ->
     (forall x y, 0 <= x < w -> 0 <= y < h -> QoiImage.cA (QoiImage.At img x y) = 255) ->
     QoiImage.Opaque img <> Some false ->
     exists stream pix,
       QoiImage.Encode img = Returned (inr stream) /\
       DecodeHeader stream = inr (mkHeader qoiMagic w h 3 0, skipn 14 stream) /\
       nth 12 stream 0 = 3 /\
       QoiImage.Decode stream =
         Returned (QoiImage.mkResult (Some (QoiImage.mkImage pix w h 3 0))
                                     None [] padding) /\
       Z.of_nat (length pix) = w * h * 3 /\
       forall x y, 0 <= x < w -> 0 <= y < h ->
         QoiImage.Image_At (QoiImage.mkImage pix w h 3 0) x y
           = Some (QoiImage.At img x y)) /\
  (forall img stream,
     (forall x y,
        QoiImage.MinX (QoiImage.Bounds img) <= x < QoiImage.MaxX (QoiImage.Bounds img) ->
        QoiImage.MinY (QoiImage.Bounds img) <= y < QoiImage.MaxY (QoiImage.Bounds img) ->
        QoiImage.cA (QoiImage.At img x y) = 255) ->
     QoiImage.Opaque img <> Some false ->
     QoiImage.Encode img = Returned (inr stream) ->
     nth 12 stream 0 = 3) /\
  (forall src w h c dest,
     1 <= w -> 1 <= h -> c = 3 \/ c = 4 ->
     Z.of_nat (length src) = w * h * c ->
     Forall is_byte src ->
     w * h < qoiPixelsMax ->
     w * h * c <= Z.of_nat (length dest) < 2 ^ 32 ->
     exists stream,
       Qoi.Encode src w h = Returned (inr stream) /\
       nth 12 stream 0 = c /\
       Qoi.Decode stream dest =
         Returned (Qoi.mkOut (Qoi.mkDecoded (w * h * c) w h (c =? 4) None)
                             (src ++ skipn (length src) dest) padding)).
Proof.
  split; [|split].
  - intros img w h Hb Hw Hh Hmax Hwf Halpha Hcap.
    assert (Hop : QoiImage.isOpaqueImage img = true).
    { apply isOpaqueImage_true; [|exact Hcap].
      rewrite Hb. cbn [QoiImage.MinX QoiImage.MinY QoiImage.MaxX QoiImage.MaxY].
      exact Halpha. }
    destruct (image_Decode_Encode img w h Hb Hw Hh Hmax Hwf) as (stream & Henc & Hhdr & Hdec).
    rewrite Hop in Hhdr, Hdec.
    exists stream, (flat_map (px_out 3) (image_pixels img w (Z.to_nat (w * h)))).
    split; [exact Henc|]. split; [exact Hhdr|]. split.
    { rewrite (image_Encode_pixels img w h Hb Hw Hh Hmax), Hop in Henc.
      injection Henc as <-. reflexivity. }
    split; [exact Hdec|]. split.
    { unfold qoiPixelsMax in Hmax.
      rewrite flat_map_px_out_length, image_pixels_length by lia. nia. }
    intros x y Hx Hy.
    rewrite (decoded_image_At img w h 3 x y) by (auto; lia).
    cbn [Z.eqb Pos.eqb]. rewrite <- (Halpha x y Hx Hy).
    destruct (QoiImage.At img x y); reflexivity.
  - intros img stream Halpha Hcap Henc.
    destruct (image_Encode_stream img stream Henc) as (w & h & chunks & ->).
    rewrite (isOpaqueImage_true img Halpha Hcap). reflexivity.
  - intros src w h c dest Hw Hh Hc Hlen Hbytes Hmax Hdest.
    eexists. split; [apply (Encode_stream src w h c); assumption|].
    split; [reflexivity|].
    rewrite Decode_chunks; try assumption.
    + rewrite pixels_of_out by (try assumption; unfold qoiPixelsMax in Hmax; nia).
      replace (Z.to_nat (w * h * c)) with (length src) by lia.
      reflexivity.
    + apply pixels_of_length.
    + apply pixels_of_wf. exact Hbytes.
Qed.

(** Part (1) at the 1x1 opaque black image. *)
Lemma opaque_image_channels_witness :
  exists stream pix,
    QoiImage.Encode black_image = Returned (inr stream) /\
    DecodeHeader stream = inr (mkHeader qoiMagic 1 1 3 0, skipn 14 stream) /\
    nth 12 stream 0 = 3 /\
    QoiImage.Decode stream =
      Returned (QoiImage.mkResult (Some (QoiImage.mkImage pix 1 1 3 0))
                                  None [] padding) /\
    Z.of_nat (length pix) = 1 * 1 * 3 /\
    forall x y, 0 <= x < 1 -> 0 <= y < 1 ->
      QoiImage.Image_At (QoiImage.mkImage pix 1 1 3 0) x y
        = Some (QoiImage.At black_image x y).
Proof.
  destruct opaque_image_channels as (H & _).
  apply (H black_image 1 1).
  - reflexivity.
  - lia.
  - lia.
  - reflexivity.
  - intros x y. unfold wf_color, is_byte. cbn. lia.
  - intros x y _ _. reflexivity.
  - discriminate.
Defined.

(** C3, as stated, fails on the byte-buffer [Encode]: the 1x1 RGBA buffer
    whose pixel is (0,0,0,255) is fully opaque, and the header written for it
    has 4 in its channels field; decoding stores the alpha byte as well. *)
Lemma opaque_rgba_buffer_keeps_four_channels :
  pixels_of [0; 0; 0; 255] 4 true 1 = [mkpx 0 0 0 255] /\
  Qoi.Encode [0; 0; 0; 255] 1 1 = Returned (inr black_rgba_1x1) /\
  DecodeHeader black_rgba_1x1 = inr (mkHeader qoiMagic 1 1 4 0, skipn 14 black_rgba_1x1) /\
  nth 12 black_rgba_1x1 0 = 4 /\
  nth 12 black_rgba_1x1 0 <> 3 /\
  Qoi.Decode black_rgba_1x1 [9; 9; 9; 9] =
    Returned (Qoi.mkOut (Qoi.mkDecoded 4 1 1 true None) [0; 0; 0; 255] padding).
Proof.
  repeat split; try (vm_compute; reflexivity).
  vm_compute. discriminate.
Qed.

(** * Further properties of the code *)

(** ** What [Encode] accepts *)

Lemma Encode_rejects_length src w h :
  0 < w * h < qoiPixelsMax ->
  ~ (Z.of_nat (length src) = w * h * 3 \/ Z.of_nat (length src) = w * h * 4) ->
  Qoi.Encode src w h = Returned (inl ErrNeither3Nor4).
Proof.
  unfold qoiPixelsMax. intros Hn Hlen. unfold Qoi.Encode.
  rewrite (i64_small (w * h)) by lia.
  replace (w * h =? 0) with false by lia.
  replace (w * h >=? qoiPixelsMax) with false by (unfold qoiPixelsMax; lia).
  set (bpp := u8 (Z.quot (Z.of_nat (length src)) (w * h))).
  destruct (negb (i64 (w * h * bpp) =? Z.of_nat (length src))
            || negb (bpp =? 3) && negb (bpp =? 4)) eqn:E; [reflexivity|].
  exfalso. apply Hlen.
  apply orb_false_iff in E as [E1 E2].
  apply negb_false_iff, Z.eqb_eq in E1.
  assert (Hb : bpp = 3 \/ bpp = 4).
  { destruct (bpp =? 3) eqn:E3; [left; lia|].
    destruct (bpp =? 4) eqn:E4; [right; lia|]. discriminate. }
  destruct Hb as [Hb | Hb]; rewrite Hb in E1; rewrite i64_small in E1 by lia;
    [left | right]; lia.
Qed.

(** X1.  For dimensions [w, h >= 0] whose product fits an [int], [Encode]
    returns "bad image size 0" when the product is 0, "image must have less
    than 400000000 pixels total" when it is 400,000,000 or more, "len(src) /
    (width * height) is neither 3 nor 4" when the buffer has neither
    [w*h*3] nor [w*h*4] bytes, and a stream otherwise: it never panics, and a
    buffer is accepted exactly when its length is [w*h*3] or [w*h*4]. *)
Theorem Encode_outcome : forall (src : list Z) (w h : Z),
  0 <= w -> 0 <= h -> w * h < 2 ^ 63 ->
  (w * h = 0 -> Qoi.Encode src w h = Returned (inl ErrBadImageSize0)) /\
  (qoiPixelsMax <= w * h -> Qoi.Encode src w h = Returned (inl ErrTooManyPixels)) /\
  (0 < w * h < qoiPixelsMax ->
   ~ (Z.of_nat (length src) = w * h * 3 \/ Z.of_nat (length src) = w * h * 4) ->
   Qoi.Encode src w h = Returned (inl ErrNeither3Nor4)) /\
  (0 < w * h < qoiPixelsMax ->
   Z.of_nat (length src) = w * h * 3 \/ Z.of_nat (length src) = w * h * 4 ->
   exists stream, Qoi.Encode src w h = Returned (inr stream)).
Proof.
  intros src w h Hw Hh Hmax.
  split; [|split; [|split]].
  - intros H0. unfold Qoi.Encode. rewrite H0. reflexivity.
  - intros Hbig. apply Encode_too_many.
    + rewrite i64_small; unfold qoiPixelsMax in Hbig; lia.
    + rewrite i64_small; unfold qoiPixelsMax in *; lia.
  - apply Encode_rejects_length.
  - intros Hn [Hlen | Hlen]; eexists.
    + apply (Encode_stream src w h 3); try nia; left; reflexivity.
    + apply (Encode_stream src w h 4); try nia; right; reflexivity.
Qed.

(** The theorem at a 2x1 image given five bytes. *)
Lemma Encode_outcome_witness :
  Qoi.Encode [1; 2; 3; 4; 5] 2 1 = Returned (inl ErrNeither3Nor4).
Proof.
  destruct (Encode_outcome [1; 2; 3; 4; 5] 2 1) as (_ & _ & H & _); try lia.
  apply H.
  - unfold qoiPixelsMax. lia.
  - cbn. lia.
Defined.

(** X2.  [Encode] does not reject negative dimensions.  When the width and
    the height are both negative (and the buffer has [w*h*c] bytes, [c] 3 or
    4, [w*h] below the ceiling) it returns a stream with the header, whose
    width and height fields hold the two values modulo 2^32, and the padding,
    but no chunk: the loops over the rows and columns do not run.  When the
    product [w*h] is negative (one of the two negative, the other positive)
    and fits an [int], it returns "len(src) / (width * height) is neither 3
    nor 4", whatever the buffer (of a length that fits an [int]).  When the
    product is 0 (one of the two 0, whatever the sign of the other) it
    returns "bad image size 0". *)
Theorem Encode_negative_dimensions : forall (src : list Z) (w h c : Z),
  (w < 0 -> h < 0 -> w * h < qoiPixelsMax -> c = 3 \/ c = 4 ->
   Z.of_nat (length src) = w * h * c ->
   Qoi.Encode src w h = Returned (inr (header_bytes w h c ++ padding)) /\
   firstn 14 (header_bytes w h c) =
     qoiMagic ++ be_put_uint32 (2 ^ 32 + w) ++ be_put_uint32 (2 ^ 32 + h) ++ [c; 0]) /\
  (w * h < 0 -> - 2 ^ 63 <= w * h -> Z.of_nat (length src) < 2 ^ 63 ->
   Qoi.Encode src w h = Returned (inl ErrNeither3Nor4)) /\
  (w * h = 0 -> Qoi.Encode src w h = Returned (inl ErrBadImageSize0)).
Proof.
  intros src w h c. split; [|split].
  - intros Hw Hh Hmax Hc Hlen.
    pose proof Hmax as Hmax'. unfold qoiPixelsMax in Hmax'.
    assert (Hwb : - 400000000 < w) by nia.
    assert (Hhb : - 400000000 < h) by nia.
    split.
    + unfold Qoi.Encode.
      rewrite (i64_small (w * h)) by nia.
      replace (w * h =? 0) with false by nia.
      replace (w * h >=? qoiPixelsMax) with false by (unfold qoiPixelsMax; lia).
      replace (Z.quot (Z.of_nat (length src)) (w * h)) with c
        by (rewrite Hlen, (Z.mul_comm (w * h) c); symmetry; apply Z.quot_mul; nia).
      rewrite (u8_small c) by lia.
      rewrite (i64_small (w * h * c)) by nia.
      replace (w * h * c =? Z.of_nat (length src)) with true by lia.
      replace (negb (c =? 3) && negb (c =? 4)) with false
        by (destruct Hc as [-> | ->]; reflexivity).
      cbn [negb orb].
      replace (Z.to_nat h) with 0%nat by lia.
      reflexivity.
    + unfold header_bytes.
      replace (u32 w) with (2 ^ 32 + w)
        by (unfold u32; apply (Z.mod_unique _ _ (-1)); lia).
      replace (u32 h) with (2 ^ 32 + h)
        by (unfold u32; apply (Z.mod_unique _ _ (-1)); lia).
      reflexivity.
  - intros Hneg Hmin Hsrc. unfold Qoi.Encode.
    rewrite (i64_small (w * h)) by lia.
    replace (w * h =? 0) with false by lia.
    replace (w * h >=? qoiPixelsMax) with false by (unfold qoiPixelsMax; lia).
    set (bpp := u8 (Z.quot (Z.of_nat (length src)) (w * h))).
    destruct (negb (i64 (w * h * bpp) =? Z.of_nat (length src))
              || negb (bpp =? 3) && negb (bpp =? 4)) eqn:E; [reflexivity|].
    exfalso.
    apply orb_false_iff in E as [E1 E2].
    apply negb_false_iff, Z.eqb_eq in E1.
    assert (Hb : bpp = 3 \/ bpp = 4).
    { destruct (bpp =? 3) eqn:E3; [left; lia|].
      destruct (bpp =? 4) eqn:E4; [right; lia|]. discriminate. }
    (* the quotient is -k for some k >= 252, so 252 * |w*h| <= len(src) *)
    set (k := Z.of_nat (length src) / (- (w * h))).
    assert (Hq : Z.quot (Z.of_nat (length src)) (w * h) = - k).
    { replace (w * h) with (- (- (w * h))) at 1 by lia.
      rewrite Z.quot_opp_r by lia.
      rewrite Z.quot_div_nonneg by lia. reflexivity. }
    assert (Hk : 0 <= k /\ k * (- (w * h)) <= Z.of_nat (length src)).
    { unfold k. split.
      - apply Z.div_pos; lia.
      - rewrite Z.mul_comm. apply Z.mul_div_le. lia. }
    assert (Hk252 : 252 <= k).
    { subst bpp. rewrite Hq in Hb. unfold u8 in Hb.
      destruct (Z_lt_le_dec k 252) as [Hlt|]; [|assumption]. exfalso.
      destruct (Z.eq_dec k 0) as [-> | Hk0]; [cbn in Hb; lia|].
      assert (Hm : (- k) mod 256 = 256 - k)
        by (symmetry; apply (Z.mod_unique _ _ (-1)); lia).
      lia. }
    assert (Hsmall : - 2 ^ 63 <= w * h * bpp < 0) by nia.
    rewrite i64_small in E1 by lia. lia.
  - intros H0. unfold Qoi.Encode. rewrite H0. reflexivity.
Qed.

(** The theorem at [w = -2], [h = -3] with an 18-byte buffer: a header with
    no chunk. *)
Lemma Encode_negative_dimensions_witness :
  Qoi.Encode (repeat 7 18) (-2) (-3) =
    Returned (inr (header_bytes (-2) (-3) 3 ++ padding)).
Proof.
  destruct (Encode_negative_dimensions (repeat 7 18) (-2) (-3) 3) as [H _].
  apply H.
  - lia.
  - lia.
  - unfold qoiPixelsMax. lia.
  - left. reflexivity.
  - reflexivity.
Defined.

(** ** The decoders never panic and write a prefix of the buffer *)

(** The buffer after [ps] pixels have been stored in front of it. *)
Lemma stored_prefix c ps (dest : list Z) :
  0 < c <= 4 ->
  (length ps * Z.to_nat c <= length dest)%nat ->
  length (flat_map (px_out c) ps ++ skipn (length ps * Z.to_nat c) dest) = length dest /\
  skipn (length ps * Z.to_nat c)
        (flat_map (px_out c) ps ++ skipn (length ps * Z.to_nat c) dest)
    = skipn (length ps * Z.to_nat c) dest /\
  firstn (length ps * Z.to_nat c)
         (flat_map (px_out c) ps ++ skipn (length ps * Z.to_nat c) dest)
    = flat_map (px_out c) ps.
Proof.
  intros Hc Hlen.
  pose proof (flat_map_px_out_length c ps Hc) as Hfl.
  split; [|split].
  - rewrite length_app, length_skipn, Hfl. lia.
  - rewrite skipn_app, Hfl, Nat.sub_diag.
    rewrite skipn_all2 by lia. reflexivity.
  - rewrite firstn_app, Hfl, Nat.sub_diag.
    rewrite firstn_all2 by lia. cbn. apply app_nil_r.
Qed.

(** [Decode] once the header is read and the capacity check passed. *)
Lemma Decode_body reader dest header rest :
  DecodeHeader reader = inr (header, rest) ->
  u32 (width header * height header) <> 0 ->
  u32 (width header * height header)
    <= u32 (Z.of_nat (length dest)) / u32 (channels header) ->
  let numPixels := u32 (width header * height header) in
  let dp := decode_pixels (Z.to_nat numPixels) (dec_init rest) in
  Qoi.Decode reader dest =
    Returned (loop_result header numPixels (channels header) 0 [] dest (fst dp) (snd dp)) /\
  Z.of_nat (length (fst dp)) <= numPixels /\
  numPixels * channels header <= u32 (Z.of_nat (length dest)).
Proof.
  intros Hhdr Hn0 Hcap numPixels dp.
  pose proof (DecodeHeader_channels _ _ _ Hhdr) as Hc.
  pose proof (u32_range (width header * height header)) as Hnp.
  pose proof (u32_range (Z.of_nat (length dest))) as Hld.
  assert (Hcu : u32 (channels header) = channels header)
    by (apply u32_small; lia).
  rewrite Hcu in Hcap.
  assert (Hfit : numPixels * channels header <= u32 (Z.of_nat (length dest))).
  { subst numPixels.
    pose proof (Z.mul_div_le (u32 (Z.of_nat (length dest))) (channels header) ltac:(lia)).
    nia. }
  split; [|split].
  - unfold Qoi.Decode. rewrite Hhdr. cbv zeta.
    replace (u32 (width header * height header) =? 0) with false by lia.
    rewrite Hcu.
    replace (u32 (width header * height header)
               >? u32 (Z.of_nat (length dest)) / channels header) with false
      by (symmetry; rewrite Z.gtb_ltb; apply Z.ltb_ge; exact Hcap).
    apply decode_loop_pixels; try lia.
    pose proof (Z.mod_le (Z.of_nat (length dest)) (2 ^ 32) ltac:(lia) ltac:(lia)) as Hle.
    fold (u32 (Z.of_nat (length dest))) in Hle.
    fold numPixels. nia.
  - pose proof (decode_pixels_length (Z.to_nat numPixels) (dec_init rest)).
    subst dp numPixels. lia.
  - exact Hfit.
Qed.

(** X3.  [Decode] never panics, whatever the reader holds and however long
    [dest] is.  It returns with [0 <= bytesWritten <= len(dest)], and it has
    changed nothing in [dest] beyond the first [bytesWritten] bytes, also
    when it returns an error.  When the error is nil and the header does not
    announce zero pixels, [bytesWritten] is [channels] times the pixel count
    (width * height taken modulo 2^32), and the width, height and alpha flag
    returned are those of the header. *)
Theorem Decode_writes_prefix : forall (reader dest : list Z),
  exists out,
    Qoi.Decode reader dest = Returned out /\
    0 <= Qoi.bytesWritten (Qoi.ret out) <= Z.of_nat (length dest) /\
    length (Qoi.dest_after out) = length dest /\
    skipn (Z.to_nat (Qoi.bytesWritten (Qoi.ret out))) (Qoi.dest_after out)
      = skipn (Z.to_nat (Qoi.bytesWritten (Qoi.ret out))) dest /\
    (Qoi.err (Qoi.ret out) = None ->
     exists header rest,
       DecodeHeader reader = inr (header, rest) /\
       (u32 (width header * height header) = 0 \/
        Qoi.bytesWritten (Qoi.ret out)
          = u32 (width header * height header) * channels header /\
        Qoi.r_width (Qoi.ret out) = width header /\
        Qoi.r_height (Qoi.ret out) = height header /\
        Qoi.includesAlpha (Qoi.ret out) = (channels header =? 4))).
Proof.
  intros reader dest.
  destruct (DecodeHeader reader) as [e | [header rest]] eqn:Hhdr.
  { eexists. split; [unfold Qoi.Decode; rewrite Hhdr; reflexivity|].
    cbn. repeat split; try lia. discriminate. }
  destruct (Z.eq_dec (u32 (width header * height header)) 0) as [H0 | Hn0].
  { eexists. split.
    - unfold Qoi.Decode. rewrite Hhdr. cbv zeta. rewrite H0. reflexivity.
    - cbn. repeat split; try lia. intros _. exists header, rest. auto. }
  pose proof (DecodeHeader_channels _ _ _ Hhdr) as Hc.
  destruct (Z_lt_le_dec (u32 (Z.of_nat (length dest)) / u32 (channels header))
                        (u32 (width header * height header))) as [Hsmall | Hcap].
  { eexists. split.
    - unfold Qoi.Decode. rewrite Hhdr. cbv zeta.
      replace (u32 (width header * height header) =? 0) with false by lia.
      replace (u32 (width header * height header)
                 >? u32 (Z.of_nat (length dest)) / u32 (channels header)) with true
        by (symmetry; apply Z.gtb_lt; exact Hsmall).
      reflexivity.
    - cbn. repeat split; try lia. discriminate. }
  destruct (Decode_body reader dest header rest Hhdr Hn0 Hcap) as (Hdec & Hps & Hfit).
  cbv zeta in Hdec, Hps, Hfit.
  set (numPixels := u32 (width header * height header)) in *.
  set (dp := decode_pixels (Z.to_nat numPixels) (dec_init rest)) in *.
  eexists. split; [exact Hdec|].
  pose proof (Z.mod_le (Z.of_nat (length dest)) (2 ^ 32) ltac:(lia) ltac:(lia)) as Hle.
  fold (u32 (Z.of_nat (length dest))) in Hle.
  pose proof (u32_range (Z.of_nat (length dest))) as Hld.
  assert (Hcu : u32 (channels header) = channels header) by (apply u32_small; lia).
  assert (Hbw : u32 ((0 + Z.of_nat (length (fst dp))) * u32 (channels header))
                = Z.of_nat (length (fst dp) * Z.to_nat (channels header))).
  { rewrite Hcu, u32_small; nia. }
  assert (Hfits : (length (fst dp) * Z.to_nat (channels header) <= length dest)%nat) by nia.
  destruct (stored_prefix (channels header) (fst dp) dest ltac:(lia) Hfits)
    as (Hlen & Hskip & _).
  assert (Hbw' : Qoi.bytesWritten
                   (Qoi.ret (loop_result header numPixels (channels header) 0 [] dest
                                         (fst dp) (snd dp)))
                 = Z.of_nat (length (fst dp) * Z.to_nat (channels header)))
    by (unfold loop_result; destruct (snd dp); cbn; exact Hbw).
  assert (Hda : Qoi.dest_after
                  (loop_result header numPixels (channels header) 0 [] dest
                               (fst dp) (snd dp))
                = flat_map (px_out (channels header)) (fst dp)
                    ++ skipn (length (fst dp) * Z.to_nat (channels header)) dest)
    by (unfold loop_result; destruct (snd dp); reflexivity).
  rewrite Hbw', Hda, Nat2Z.id.
  split; [lia|]. split; [exact Hlen|]. split; [exact Hskip|].
  intros Herr. exists header, rest. split; [reflexivity|]. right.
  unfold loop_result in Herr |- *.
  destruct (snd dp) as [| e | st'] eqn:Hr; cbn in Herr; try discriminate.
  cbn.
  (* with a nil error every iteration has stored its pixel *)
  assert (Hall : length (fst dp) = Z.to_nat numPixels).
  { clear - Hr. subst dp. revert Hr. generalize (dec_init rest).
    induction (Z.to_nat numPixels) as [| k IH]; intros st Hr; [reflexivity|].
    cbn in Hr |- *. destruct (decode_step st) as [| e | st1]; try discriminate.
    specialize (IH st1). destruct (decode_pixels k st1) as [ps r]. cbn in *.
    f_equal. apply IH. exact Hr. }
  repeat split.
  rewrite Hall. nia.
Qed.

(** [decodeBody] on a buffer of any length: it stores the pixels that
    [len(dest) / bytesPerPixel] iterations of the decoder step produce. *)
Lemma decodeBody_pixels r dest c stride :
  c = 3 \/ c = 4 ->
  Z.of_nat (length dest) < 2 ^ 63 ->
  let n := Z.of_nat (length dest) / c in
  let dp := decode_pixels (Z.to_nat n) (dec_init r) in
  QoiImage.decodeBody r dest c stride =
    Returned (body_result n c 0 [] dest (fst dp) (snd dp)) /\
  (length (fst dp) * Z.to_nat c <= length dest)%nat.
Proof.
  intros Hc Hlen n dp.
  assert (Hn : 0 <= n /\ n * c <= Z.of_nat (length dest)).
  { subst n. split.
    - apply Z.div_pos; lia.
    - rewrite Z.mul_comm. apply Z.mul_div_le. lia. }
  split.
  - unfold QoiImage.decodeBody.
    replace (c =? 0) with false by (symmetry; apply Z.eqb_neq; lia).
    rewrite Z.quot_div_nonneg by lia. fold n.
    apply body_loop_pixels; lia || nia.
  - pose proof (decode_pixels_length (Z.to_nat n) (dec_init r)). subst dp. nia.
Qed.

Lemma body_result_buffer n c dest ps r :
  snd (fst (body_result n c 0 [] dest ps r))
    = flat_map (px_out c) ps ++ skipn (length ps * Z.to_nat c) dest.
Proof. unfold body_result. destruct r; reflexivity. Qed.

Lemma u32_mul_idemp a b : u32 (u32 a * u32 b) = u32 (a * b).
Proof. unfold u32. symmetry. apply Z.mul_mod. lia. Qed.

(** The image-returning [Decode] once the header is read. *)
Lemma image_Decode_image reader header rest :
  DecodeHeader reader = inr (header, rest) ->
  exists pix e rest',
    QoiImage.Decode reader =
      Returned (QoiImage.mkResult
        (Some (QoiImage.mkImage pix (width header) (height header)
                                (channels header) (colorspace header)))
        e [] rest') /\
    Z.of_nat (length pix) = u32 (width header * height header * channels header).
Proof.
  intros Hhdr. unfold QoiImage.Decode. rewrite Hhdr.
  pose proof (DecodeHeader_channels _ _ _ Hhdr) as Hc.
  cbv zeta. cbn [QoiImage.Channels QoiImage.Width QoiImage.Height QoiImage.Colorspace].
  rewrite u32_mul_idemp.
  set (total := u32 (width header * height header * channels header)).
  pose proof (u32_range (width header * height header * channels header)) as Ht.
  fold total in Ht.
  set (pix := repeat 0 (Z.to_nat total)).
  assert (Hpix : Z.of_nat (length pix) = total)
    by (subst pix; rewrite repeat_length; lia).
  destruct (decodeBody_pixels rest pix (channels header)
              (i64 (width header * channels header)) Hc ltac:(lia)) as (Hbody & Hfit).
  cbv zeta in Hbody, Hfit. rewrite Hbody.
  set (dp := decode_pixels (Z.to_nat (Z.of_nat (length pix) / channels header))
                           (dec_init rest)) in *.
  pose proof (body_result_buffer (Z.of_nat (length pix) / channels header)
                (channels header) pix (fst dp) (snd dp)) as Hbuf.
  destruct (body_result (Z.of_nat (length pix) / channels header) (channels header)
                        0 [] pix (fst dp) (snd dp)) as [[e pix'] rest'].
  cbn in Hbuf. subst pix'.
  eexists _, e, rest'. split; [reflexivity|].
  destruct (stored_prefix (channels header) (fst dp) pix ltac:(lia) Hfit) as (Hlen & _).
  rewrite Hlen. exact Hpix.
Qed.

(** X4.  The image-returning [Decode] never panics.  When the header cannot
    be decoded it returns a nil image and the header's error.  Otherwise it
    returns an image, also when the body fails: its width, height, channels
    and colorspace are the header's, and its [Pix] has
    [width * height * channels] bytes modulo 2^32, the product being taken in
    [uint32]. *)
Theorem image_Decode_total : forall (reader : list Z),
  exists res,
    QoiImage.Decode reader = Returned res /\
    (forall e, DecodeHeader reader = inl e ->
       QoiImage.image res = None /\ QoiImage.error res = Some (ErrHeader e)) /\
    (forall header rest, DecodeHeader reader = inr (header, rest) ->
       exists img,
         QoiImage.image res = Some img /\
         QoiImage.Width img = width header /\
         QoiImage.Height img = height header /\
         QoiImage.Channels img = channels header /\
         QoiImage.Colorspace img = colorspace header /\
         Z.of_nat (length (QoiImage.Pix img))
           = u32 (width header * height header * channels header)).
Proof.
  intros reader.
  destruct (DecodeHeader reader) as [e | [header rest]] eqn:Hhdr.
  - eexists. split; [unfold QoiImage.Decode; rewrite Hhdr; reflexivity|]. split.
    + intros e' He'. injection He' as <-. split; reflexivity.
    + intros ? ? Hx. discriminate.
  - destruct (image_Decode_image reader header rest Hhdr) as (pix & e & rest' & Hdec & Hlen).
    eexists. split; [exact Hdec|]. split; [intros ? Hx; discriminate|].
    intros header' rest'' Heq. injection Heq as <- <-.
    eexists. split; [reflexivity|]. cbn. repeat split. exact Hlen.
Qed.

(** X5.  That product can wrap.  For a header with
    [2^32 <= width * height * channels] the image [Decode] returns has fewer
    bytes than its dimensions need, and reading its last pixel with [At]
    panics, whether or not [Decode] returned an error. *)
Theorem image_Decode_wrapped_size : forall (reader : list Z) header rest res,
  DecodeHeader reader = inr (header, rest) ->
  2 ^ 32 <= width header * height header * channels header < 2 ^ 63 ->
  0 < width header -> 0 < height header ->
  QoiImage.Decode reader = Returned res ->
  exists img,
    QoiImage.image res = Some img /\
    Z.of_nat (length (QoiImage.Pix img))
      < QoiImage.Width img * QoiImage.Height img * QoiImage.Channels img /\
    QoiImage.Image_At img (QoiImage.Width img - 1) (QoiImage.Height img - 1) = None.
Proof.
  intros reader header rest res Hhdr Hbig Hw Hh Hdec.
  destruct (image_Decode_image reader header rest Hhdr) as (pix & e & rest' & Hdec' & Hlen).
  rewrite Hdec in Hdec'. injection Hdec' as ->.
  eexists. split; [reflexivity|].
  set (img := QoiImage.mkImage pix (width header) (height header)
                               (channels header) (colorspace header)).
  assert (HW : QoiImage.Width img = width header) by reflexivity.
  assert (HH : QoiImage.Height img = height header) by reflexivity.
  assert (HC : QoiImage.Channels img = channels header) by reflexivity.
  change pix with (QoiImage.Pix img) in Hlen.
  clearbody img.
  pose proof (DecodeHeader_channels _ _ _ Hhdr) as Hc.
  pose proof (u32_range (width header * height header * channels header)) as Hr.
  rewrite HW, HH, HC. split; [lia|].
  unfold QoiImage.Image_At. rewrite HW, HC.
  set (w := width header) in *. set (h := height header) in *.
  set (c := channels header) in *.
  assert (Hidx : (h - 1) * w + (w - 1) = w * h - 1) by lia.
  rewrite (i64_small ((h - 1) * w)) by nia.
  rewrite Hidx.
  rewrite (i64_small (w * h - 1)) by nia.
  rewrite (i64_small ((w * h - 1) * c)) by nia.
  assert (Hout : forall i, Z.of_nat (length (QoiImage.Pix img)) <= i ->
                           slice_get (QoiImage.Pix img) i = None).
  { intros i Hi'. unfold slice_get.
    destruct (i <? 0) eqn:Hneg; [reflexivity|].
    apply nth_error_None. lia. }
  destruct Hc as [Hc3 | Hc4].
  - rewrite (i64_small ((w * h - 1) * c + 2)) by nia.
    rewrite (Hout ((w * h - 1) * c + 2)) by nia.
    destruct (slice_get _ _); [destruct (slice_get _ _)|]; reflexivity.
  - rewrite (i64_small ((w * h - 1) * c + 3)) by nia.
    rewrite (Hout ((w * h - 1) * c + 3)) by nia.
    replace (c =? 4) with true by lia.
    destruct (slice_get _ _); [destruct (slice_get _ _); [destruct (slice_get _ _)|]|];
      reflexivity.
Qed.

(** The theorem at a 65536x65536 header: [Decode] returns an image with an
    empty [Pix] and a nil error. *)
Lemma image_Decode_wrapped_size_witness :
  exists img,
    QoiImage.image (QoiImage.mkResult
      (Some (QoiImage.mkImage [] 65536 65536 3 0)) None [] []) = Some img /\
    Z.of_nat (length (QoiImage.Pix img))
      < QoiImage.Width img * QoiImage.Height img * QoiImage.Channels img /\
    QoiImage.Image_At img (QoiImage.Width img - 1) (QoiImage.Height img - 1) = None.
Proof.
  apply (image_Decode_wrapped_size (header_bytes 65536 65536 3)
           (mkHeader qoiMagic 65536 65536 3 0) []).
  - reflexivity.
  - cbn. lia.
  - cbn. lia.
  - cbn. lia.
  - vm_compute. reflexivity.
Defined.

Lemma skipn_firstn_rest {A} (l : list A) k n :
  (k <= n <= length l)%nat ->
  skipn k (firstn n l) ++ skipn n l = skipn k l.
Proof.
  intros H. rewrite <- (firstn_skipn n l) at 3.
  rewrite skipn_app, length_firstn.
  replace (k - Nat.min n (length l))%nat with 0%nat by lia.
  reflexivity.
Qed.

(** [DecodeIntoBuffer] once the header is read and the capacity check
    passed: the image's [Pix] is the front of the caller's buffer. *)
Lemma DecodeIntoBuffer_body r dest header rest :
  DecodeHeader r = inr (header, rest) ->
  u32 (width header * height header) <> 0 ->
  u32 (width header * height header) * channels header <= Z.of_nat (length dest) ->
  let numPixels := u32 (width header * height header) in
  let c := channels header in
  let dp := decode_pixels (Z.to_nat numPixels) (dec_init rest) in
  let k := (length (fst dp) * Z.to_nat c)%nat in
  let n := Z.to_nat (numPixels * c) in
  exists e rest',
    body_result numPixels c 0 [] dest (fst dp) (snd dp)
      = (e, flat_map (px_out c) (fst dp) ++ skipn k dest, rest') /\
    QoiImage.DecodeIntoBuffer r dest =
      Returned (QoiImage.mkResult
        (Some (QoiImage.mkImage
                 (firstn n (flat_map (px_out c) (fst dp) ++ skipn k dest))
                 (width header) (height header) c (colorspace header)))
        e (flat_map (px_out c) (fst dp) ++ skipn k dest) rest') /\
    (k <= n <= length dest)%nat.
Proof.
  intros Hhdr Hn0 Hfit numPixels c dp k n.
  pose proof (DecodeHeader_channels _ _ _ Hhdr) as Hc. fold c in Hc.
  pose proof (u32_range (width header * height header)) as Hnp. fold numPixels in Hnp.
  fold numPixels c in Hfit. fold numPixels in Hn0.
  assert (Hdiv : Z.of_nat (length (firstn n dest)) / c = numPixels).
  { rewrite length_firstn. replace (Nat.min n (length dest)) with n by lia.
    subst n. rewrite Z2Nat.id by nia. apply Z.div_mul. lia. }
  destruct (decodeBody_pixels rest (firstn n dest) c (i64 (width header * c)) Hc)
    as (Hbody & Hk).
  { rewrite length_firstn. lia. }
  cbv zeta in Hbody, Hk. rewrite Hdiv in Hbody, Hk. fold dp in Hbody, Hk. fold k in Hk.
  assert (Hkn : (k <= n <= length dest)%nat).
  { rewrite length_firstn in Hk. lia. }
  assert (Hbuf : flat_map (px_out c) (fst dp) ++ skipn k (firstn n dest) ++ skipn n dest
                 = flat_map (px_out c) (fst dp) ++ skipn k dest).
  { f_equal. apply skipn_firstn_rest. exact Hkn. }
  assert (Hpix : flat_map (px_out c) (fst dp) ++ skipn k (firstn n dest)
                 = firstn n (flat_map (px_out c) (fst dp) ++ skipn k dest)).
  { rewrite <- Hbuf, app_assoc.
    set (A := flat_map (px_out c) (fst dp) ++ skipn k (firstn n dest)).
    assert (Hl : length A = n).
    { subst A. rewrite length_app, length_skipn, length_firstn.
      rewrite (flat_map_px_out_length c (fst dp)) by lia. fold k. lia. }
    rewrite firstn_app, Hl, Nat.sub_diag.
    rewrite (firstn_all2 A) by lia.
    cbn. rewrite app_nil_r. reflexivity. }
  unfold QoiImage.DecodeIntoBuffer. rewrite Hhdr. cbv zeta.
  fold numPixels c.
  replace (numPixels =? 0) with false by lia.
  rewrite (i64_small (numPixels * c)) by nia.
  replace (numPixels * c >? Z.of_nat (length dest)) with false
    by (symmetry; rewrite Z.gtb_ltb; apply Z.ltb_ge; lia).
  cbn [QoiImage.Pix QoiImage.Channels QoiImage.Width QoiImage.Height QoiImage.Colorspace].
  fold n. rewrite Hbody.
  unfold body_result. cbv zeta. cbn [app].
  destruct (snd dp) as [| e | st']; fold k; rewrite <- app_assoc, Hbuf, Hpix;
    eexists _, _; (split; [reflexivity|]); (split; [reflexivity|exact Hkn]).
Qed.

(** X6.  [DecodeIntoBuffer] never panics and never changes the length of the
    caller's buffer.  When it returns no image the buffer is untouched.  When
    it returns an image, also with an error, the image has the header's
    dimensions, its [Pix] is the first [width * height * channels] bytes of
    the caller's buffer (the pixel count taken modulo 2^32) as the call leaves
    it, and the bytes behind are untouched. *)
Theorem DecodeIntoBuffer_writes_prefix : forall (r dest : list Z),
  exists res,
    QoiImage.DecodeIntoBuffer r dest = Returned res /\
    length (QoiImage.buffer_after res) = length dest /\
    (QoiImage.image res = None -> QoiImage.buffer_after res = dest) /\
    (forall img, QoiImage.image res = Some img ->
       exists header rest,
         DecodeHeader r = inr (header, rest) /\
         QoiImage.Width img = width header /\
         QoiImage.Height img = height header /\
         QoiImage.Channels img = channels header /\
         Z.of_nat (length (QoiImage.Pix img))
           = u32 (width header * height header) * channels header /\
         QoiImage.Pix img
           = firstn (length (QoiImage.Pix img)) (QoiImage.buffer_after res) /\
         skipn (length (QoiImage.Pix img)) (QoiImage.buffer_after res)
           = skipn (length (QoiImage.Pix img)) dest).
Proof.
  intros r dest.
  destruct (DecodeHeader r) as [e | [header rest]] eqn:Hhdr.
  { eexists. split; [unfold QoiImage.DecodeIntoBuffer; rewrite Hhdr; reflexivity|].
    cbn. repeat split. intros ? Hx. discriminate. }
  destruct (Z.eq_dec (u32 (width header * height header)) 0) as [H0 | Hn0].
  { eexists. split.
    - unfold QoiImage.DecodeIntoBuffer. rewrite Hhdr. cbv zeta. rewrite H0. reflexivity.
    - cbn. repeat split. intros ? Hx. discriminate. }
  pose proof (DecodeHeader_channels _ _ _ Hhdr) as Hc.
  pose proof (u32_range (width header * height header)) as Hnp.
  destruct (Z_lt_le_dec (Z.of_nat (length dest))
                        (u32 (width header * height header) * channels header))
    as [Hsmall | Hfit].
  { eexists. split.
    - unfold QoiImage.DecodeIntoBuffer. rewrite Hhdr. cbv zeta.
      replace (u32 (width header * height header) =? 0) with false by lia.
      rewrite i64_small by nia.
      replace (u32 (width header * height header) * channels header
                 >? Z.of_nat (length dest)) with true
        by (symmetry; apply Z.gtb_lt; exact Hsmall).
      reflexivity.
    - cbn. repeat split. intros ? Hx. discriminate. }
  destruct (DecodeIntoBuffer_body r dest header rest Hhdr Hn0 Hfit)
    as (e & rest' & _ & Hdec & Hkn).
  cbv zeta in Hdec, Hkn.
  set (dp := decode_pixels (Z.to_nat (u32 (width header * height header)))
                           (dec_init rest)) in *.
  set (k := (length (fst dp) * Z.to_nat (channels header))%nat) in *.
  set (n := Z.to_nat (u32 (width header * height header) * channels header)) in *.
  destruct (stored_prefix (channels header) (fst dp) dest ltac:(lia) ltac:(fold k; lia))
    as (Hlen & Hskip & _).
  fold k in Hlen, Hskip.
  set (buf := flat_map (px_out (channels header)) (fst dp) ++ skipn k dest) in *.
  eexists. split; [exact Hdec|]. cbn.
  split; [exact Hlen|]. split; [discriminate|].
  intros img Himg. injection Himg as <-.
  exists header, rest. cbn.
  assert (Hpl : length (firstn n buf) = n) by (rewrite length_firstn; lia).
  rewrite Hpl.
  repeat split.
  - subst n. rewrite Z2Nat.id by nia. reflexivity.
  - (* the bytes between the pixels stored and the end of [Pix] *)
    replace n with ((n - k) + k)%nat by lia.
    rewrite <- !skipn_skipn. f_equal. exact Hskip.
Qed.

(** X7.  The byte-buffer [Decode] and [DecodeIntoBuffer] are the same decoder:
    on the same reader and a buffer of less than 2^32 bytes both return, leave
    the same bytes in the buffer and the same bytes in the reader, and return
    the same error, except that the "cannot fit" errors may state different
    totals ([Decode] computes the total in [uint32]). *)
Theorem decoders_agree : forall (r dest : list Z),
  Z.of_nat (length dest) < 2 ^ 32 ->
  exists out res,
    Qoi.Decode r dest = Returned out /\
    QoiImage.DecodeIntoBuffer r dest = Returned res /\
    QoiImage.buffer_after res = Qoi.dest_after out /\
    QoiImage.stream_after res = Qoi.reader_after out /\
    (QoiImage.error res = Qoi.err (Qoi.ret out) \/
     exists size total total',
       QoiImage.error res = Some (ErrDestTooSmall size total) /\
       Qoi.err (Qoi.ret out) = Some (ErrDestTooSmall size total')).
Proof.
  intros r dest Hlen.
  destruct (DecodeHeader r) as [e | [header rest]] eqn:Hhdr.
  { eexists _, _.
    split; [unfold Qoi.Decode; rewrite Hhdr; reflexivity|].
    split; [unfold QoiImage.DecodeIntoBuffer; rewrite Hhdr; reflexivity|].
    cbn. auto. }
  destruct (Z.eq_dec (u32 (width header * height header)) 0) as [H0 | Hn0].
  { eexists _, _.
    split; [unfold Qoi.Decode; rewrite Hhdr; cbv zeta; rewrite H0; reflexivity|].
    split; [unfold QoiImage.DecodeIntoBuffer; rewrite Hhdr; cbv zeta; rewrite H0;
            reflexivity|].
    cbn. auto. }
  pose proof (DecodeHeader_channels _ _ _ Hhdr) as Hc.
  pose proof (u32_range (width header * height header)) as Hnp.
  assert (Hcu : u32 (channels header) = channels header) by (apply u32_small; lia).
  assert (Hlu : u32 (Z.of_nat (length dest)) = Z.of_nat (length dest))
    by (apply u32_small; lia).
  pose proof (Z.mul_div_le (Z.of_nat (length dest)) (channels header) ltac:(lia)) as Hq1.
  pose proof (Z.mul_succ_div_gt (Z.of_nat (length dest)) (channels header) ltac:(lia))
    as Hq2.
  destruct (Z_lt_le_dec (Z.of_nat (length dest))
                        (u32 (width header * height header) * channels header))
    as [Hsmall | Hfit].
  - eexists _, _. split; [|split].
    + unfold Qoi.Decode. rewrite Hhdr. cbv zeta.
      replace (u32 (width header * height header) =? 0) with false by lia.
      rewrite Hcu, Hlu.
      replace (u32 (width header * height header)
                 >? Z.of_nat (length dest) / channels header) with true
        by (symmetry; apply Z.gtb_lt; nia).
      reflexivity.
    + unfold QoiImage.DecodeIntoBuffer. rewrite Hhdr. cbv zeta.
      replace (u32 (width header * height header) =? 0) with false by lia.
      rewrite i64_small by nia.
      replace (u32 (width header * height header) * channels header
                 >? Z.of_nat (length dest)) with true
        by (symmetry; apply Z.gtb_lt; exact Hsmall).
      reflexivity.
    + cbn. repeat split. right. eexists _, _, _. split; reflexivity.
  - assert (Hcap : u32 (width header * height header)
                     <= u32 (Z.of_nat (length dest)) / u32 (channels header)).
    { rewrite Hcu, Hlu. apply Z.div_le_lower_bound; lia. }
    destruct (Decode_body r dest header rest Hhdr Hn0 Hcap) as (Hdec & _ & _).
    destruct (DecodeIntoBuffer_body r dest header rest Hhdr Hn0 Hfit)
      as (e & rest' & Hbr & Hinto & _).
    cbv zeta in Hdec, Hbr, Hinto.
    set (numPixels := u32 (width header * height header)) in *.
    set (dp := decode_pixels (Z.to_nat numPixels) (dec_init rest)) in *.
    eexists _, _. split; [exact Hdec|]. split; [exact Hinto|].
    cbn. unfold loop_result, body_result in *. cbv zeta in *.
    destruct (snd dp) as [| e' | st']; injection Hbr as <- <-; cbn; auto.
Qed.

(** The theorem at a truncated 1x1 stream and a 4-byte buffer. *)
Lemma decoders_agree_witness :
  exists out res,
    Qoi.Decode (header_bytes 1 1 4) [9; 9; 9; 9] = Returned out /\
    QoiImage.DecodeIntoBuffer (header_bytes 1 1 4) [9; 9; 9; 9] = Returned res /\
    QoiImage.buffer_after res = Qoi.dest_after out /\
    QoiImage.stream_after res = Qoi.reader_after out /\
    (QoiImage.error res = Qoi.err (Qoi.ret out) \/
     exists size total total',
       QoiImage.error res = Some (ErrDestTooSmall size total) /\
       Qoi.err (Qoi.ret out) = Some (ErrDestTooSmall size total')).
Proof.
  apply (decoders_agree (header_bytes 1 1 4) [9; 9; 9; 9]).
  cbn. lia.
Defined.

(** ** Headers that announce no pixel *)

(** X8.  When the header's width times height is 0 modulo 2^32, neither
    image decoder reads past the header and neither returns an error:
    [Decode] returns an image of the header's dimensions with an empty [Pix],
    [DecodeIntoBuffer] returns a nil image (with the nil error) and leaves the
    buffer as it is. *)
Theorem image_decoders_zero_pixels : forall (r : list Z) header rest,
  DecodeHeader r = inr (header, rest) ->
  u32 (width header * height header) = 0 ->
  QoiImage.Decode r =
    Returned (QoiImage.mkResult
      (Some (QoiImage.mkImage [] (width header) (height header)
                              (channels header) (colorspace header)))
      None [] rest) /\
  (forall dest,
     QoiImage.DecodeIntoBuffer r dest =
       Returned (QoiImage.mkResult None None dest rest)).
Proof.
  intros r header rest Hhdr H0. split.
  - unfold QoiImage.Decode. rewrite Hhdr. cbv zeta. rewrite H0.
    pose proof (DecodeHeader_channels _ _ _ Hhdr) as Hc.
    replace (u32 (0 * u32 (channels header))) with 0 by reflexivity.
    cbn [Z.to_nat repeat QoiImage.Channels QoiImage.Width QoiImage.Height
         QoiImage.Colorspace].
    unfold QoiImage.decodeBody. cbn [length Z.of_nat].
    replace (channels header =? 0) with false by (symmetry; apply Z.eqb_neq; lia).
    rewrite Z.quot_0_l by lia. reflexivity.
  - intros dest. unfold QoiImage.DecodeIntoBuffer. rewrite Hhdr. cbv zeta.
    rewrite H0. reflexivity.
Qed.

(** The theorem at the header of a 0x5 image. *)
Lemma image_decoders_zero_pixels_witness :
  QoiImage.Decode (header_bytes 0 5 3 ++ [1; 2]) =
    Returned (QoiImage.mkResult (Some (QoiImage.mkImage [] 0 5 3 0)) None [] [1; 2]) /\
  (forall dest,
     QoiImage.DecodeIntoBuffer (header_bytes 0 5 3 ++ [1; 2]) dest =
       Returned (QoiImage.mkResult None None dest [1; 2])).
Proof.
  apply (image_decoders_zero_pixels (header_bytes 0 5 3 ++ [1; 2])
           (mkHeader qoiMagic 0 5 3 0) [1; 2]).
  - reflexivity.
  - reflexivity.
Defined.

(** ** [DecodeConfig] *)

(** Every stream the byte-buffer [Encode] returns starts with a header. *)
Lemma Encode_shape src w h stream :
  Qoi.Encode src w h = Returned (inr stream) ->
  exists c chunks,
    (c = 3 \/ c = 4) /\
    stream = header_bytes w h c ++ concat chunks ++ padding.
Proof.
  unfold Qoi.Encode.
  destruct (i64 (w * h) =? 0); [discriminate|].
  destruct (i64 (w * h) >=? qoiPixelsMax); [discriminate|].
  set (bpp := u8 (Z.quot (Z.of_nat (length src)) (i64 (w * h)))).
  destruct (negb (i64 (i64 (w * h) * bpp) =? Z.of_nat (length src))
            || negb (bpp =? 3) && negb (bpp =? 4)) eqn:E; [discriminate|].
  apply orb_false_iff in E as [_ E].
  assert (Hb : bpp = 3 \/ bpp = 4).
  { destruct (bpp =? 3) eqn:E3; [left; lia|].
    destruct (bpp =? 4) eqn:E4; [right; lia|]. discriminate. }
  cbv zeta.
  destruct (encode_rows _ _ _ _ _ _ _ _ _) as [[st chunks] |]; [|discriminate].
  intros H. exists bpp, chunks. split; [exact Hb|]. congruence.
Qed.

(** ... and so does every stream the image-based [Encode] returns. *)
Lemma image_Encode_shape img stream :
  QoiImage.Encode img = Returned (inr stream) ->
  exists c chunks,
    (c = 3 \/ c = 4) /\
    stream =
      header_bytes
        (i64 (QoiImage.MaxX (QoiImage.Bounds img) - QoiImage.MinX (QoiImage.Bounds img)))
        (i64 (QoiImage.MaxY (QoiImage.Bounds img) - QoiImage.MinY (QoiImage.Bounds img)))
        c ++ concat chunks ++ padding.
Proof.
  unfold QoiImage.Encode. cbv zeta.
  destruct (i64 (_ * _) =? 0); [discriminate|].
  destruct (i64 (_ * _) >=? qoiPixelsMax); [discriminate|].
  destruct (encode_rows _ _ _ _ _ _ _ _ _) as [[st chunks] |]; [|discriminate].
  intros H.
  exists (u8 (if negb (QoiImage.isOpaqueImage img) then i64 (3 + 1) else 3)), chunks.
  split; [destruct (QoiImage.isOpaqueImage img); [left | right]; reflexivity|].
  congruence.
Qed.

(** X9.  [DecodeConfig] reads back what the encoders were given: on a stream
    returned by the byte-buffer [Encode] for a width and a height that fit
    [uint32] it returns the NRGBA colour model with that width and height,
    and on a stream returned by the image-based [Encode] the width and height
    of the image's bounds. *)
Theorem DecodeConfig_Encode :
  (forall src w h stream,
     0 <= w < 2 ^ 32 -> 0 <= h < 2 ^ 32 ->
     Qoi.Encode src w h = Returned (inr stream) ->
     DecodeConfig stream = inr (mkConfig NRGBAModel w h)) /\
  (forall img stream,
     0 <= QoiImage.MaxX (QoiImage.Bounds img) - QoiImage.MinX (QoiImage.Bounds img)
       < 2 ^ 32 ->
     0 <= QoiImage.MaxY (QoiImage.Bounds img) - QoiImage.MinY (QoiImage.Bounds img)
       < 2 ^ 32 ->
     QoiImage.Encode img = Returned (inr stream) ->
     DecodeConfig stream =
       inr (mkConfig NRGBAModel
              (QoiImage.MaxX (QoiImage.Bounds img) - QoiImage.MinX (QoiImage.Bounds img))
              (QoiImage.MaxY (QoiImage.Bounds img) - QoiImage.MinY (QoiImage.Bounds img)))).
Proof.
  split.
  - intros src w h stream Hw Hh Henc.
    destruct (Encode_shape _ _ _ _ Henc) as (c & chunks & Hc & ->).
    unfold DecodeConfig. rewrite DecodeHeader_header_bytes by exact Hc.
    cbn [width height].
    rewrite !u32_small by lia. reflexivity.
  - intros img stream Hw Hh Henc.
    destruct (image_Encode_shape _ _ Henc) as (c & chunks & Hc & ->).
    unfold DecodeConfig. rewrite DecodeHeader_header_bytes by exact Hc.
    cbn [width height].
    rewrite !i64_small by lia.
    rewrite !u32_small by lia. reflexivity.
Qed.

(** The theorem at the 1x1 black image. *)
Lemma DecodeConfig_Encode_witness :
  DecodeConfig black_1x1 = inr (mkConfig NRGBAModel 1 1).
Proof.
  destruct DecodeConfig_Encode as [H _].
  apply (H [0; 0; 0] 1 1 black_1x1).
  - lia.
  - lia.
  - vm_compute. reflexivity.
Defined.

(** ** [isOpaqueImage] *)

Lemma RGBA_alpha_byte c :
  is_byte (QoiImage.cA c) -> QoiImage.RGBA_alpha c = 65535 -> QoiImage.cA c = 255.
Proof.
  unfold is_byte, QoiImage.RGBA_alpha. intros Hb.
  rewrite lor_shiftl_add by lia. lia.
Qed.

Lemma opaque_row_inv im y : forall cols x,
  QoiImage.opaque_row im cols x y = true ->
  forall x', x <= x' < x + Z.of_nat cols ->
             QoiImage.RGBA_alpha (QoiImage.At im x' y) = 65535.
Proof.
  induction cols as [| cols IH]; intros x H x' Hx; [lia|].
  cbn [QoiImage.opaque_row] in H.
  destruct (QoiImage.RGBA_alpha (QoiImage.At im x y) =? 65535) eqn:E;
    cbn [negb] in H; [|discriminate].
  destruct (Z.eq_dec x' x) as [-> | Hne]; [apply Z.eqb_eq; exact E|].
  apply (IH (x + 1) H). lia.
Qed.

Lemma opaque_rows_inv im x0 cols : forall rows y,
  QoiImage.opaque_rows im rows y x0 cols = true ->
  forall x' y', x0 <= x' < x0 + Z.of_nat cols -> y <= y' < y + Z.of_nat rows ->
                QoiImage.RGBA_alpha (QoiImage.At im x' y') = 65535.
Proof.
  induction rows as [| rows IH]; intros y H x' y' Hx Hy; [lia|].
  cbn [QoiImage.opaque_rows] in H.
  destruct (QoiImage.opaque_row im cols x0 y) eqn:E; [|discriminate].
  destruct (Z.eq_dec y' y) as [-> | Hne].
  - apply (opaque_row_inv im y cols x0 E). exact Hx.
  - apply (IH (y + 1) H); lia.
Qed.

(** X10.  [isOpaqueImage] is exact.  For an image whose type has an
    [Opaque()] method it is that method's answer, whatever the pixels hold;
    for any other image it is true exactly when every pixel inside the bounds
    has alpha 255 (pixels outside the bounds are not looked at; an image with
    empty bounds is opaque). *)
Theorem isOpaqueImage_exact : forall (im : QoiImage.image_Image),
  (forall x y, is_byte (QoiImage.cA (QoiImage.At im x y))) ->
  (forall b, QoiImage.Opaque im = Some b -> QoiImage.isOpaqueImage im = b) /\
  (QoiImage.Opaque im = None ->
   (QoiImage.isOpaqueImage im = true <->
    forall x y,
      QoiImage.MinX (QoiImage.Bounds im) <= x < QoiImage.MaxX (QoiImage.Bounds im) ->
      QoiImage.MinY (QoiImage.Bounds im) <= y < QoiImage.MaxY (QoiImage.Bounds im) ->
      QoiImage.cA (QoiImage.At im x y) = 255)).
Proof.
  intros im Hbyte. split.
  - intros b Hb. unfold QoiImage.isOpaqueImage. rewrite Hb. reflexivity.
  - intros Hnone. split.
    + intros Hop x y Hx Hy. apply RGBA_alpha_byte; [apply Hbyte|].
      unfold QoiImage.isOpaqueImage in Hop. rewrite Hnone in Hop. cbv zeta in Hop.
      apply (opaque_rows_inv im _ _ _ _ Hop); lia.
    + intros Hall. apply isOpaqueImage_true; [exact Hall|].
      rewrite Hnone. discriminate.
Qed.

(** The theorem at a 2x1 image whose second pixel has alpha 254. *)
Lemma isOpaqueImage_exact_witness :
  QoiImage.isOpaqueImage
    (QoiImage.mkSource (QoiImage.mkRect 0 0 2 1)
       (fun x _ => QoiImage.mkNRGBA 1 2 3 (if x =? 1 then 254 else 255)) None) = true <->
  (forall x y, 0 <= x < 2 -> 0 <= y < 1 -> (if x =? 1 then 254 else 255) = 255).
Proof.
  destruct (isOpaqueImage_exact
              (QoiImage.mkSource (QoiImage.mkRect 0 0 2 1)
                 (fun x _ => QoiImage.mkNRGBA 1 2 3 (if x =? 1 then 254 else 255)) None)) as [_ H].
  - intros x y. cbn [QoiImage.At QoiImage.cA]. unfold is_byte.
    destruct (x =? 1); lia.
  - apply H. reflexivity.
Defined.

(** ** The end marker *)

(** Decoding what the encoder wrote for [ps], whatever follows it. *)
Lemma decode_pixels_encoded ps t :
  Forall wf_pixel ps ->
  exists D' last,
    decode_pixels (length ps)
      (dec_init (concat (fst (encode_seq false enc_init ps)) ++ t))
    = (ps, StepOk (mkDec t D' last 0)).
Proof.
  intros Hwf.
  destruct (decode_encode_seq ps new_index start_pixel 0 new_index t)
    as (D' & last & Hdec).
  { exact Hwf. }
  { unfold wf_pixel, is_byte. cbn. lia. }
  { apply codec_inv_init. }
  { lia. }
  { reflexivity. }
  exists D', last. exact Hdec.
Qed.

(** X11.  [Decode] never looks at the end marker.  Take the stream [Encode]
    returns and put any bytes [t] in place of its last 8 bytes (none at all,
    for instance): into a destination that passes the capacity check
    ([w*h*c <= uint32(len(dest))]), [Decode] returns, whatever [t] is,
    [w*h*c] bytes written, the width, the height, the alpha flag and a nil
    error, with the original buffer at the front of [dest]. *)
Theorem Decode_ignores_end_marker :
  forall (src : list Z) (w h c : Z) (dest stream t : list Z),
  1 <= w -> 1 <= h -> c = 3 \/ c = 4 ->
  Z.of_nat (length src) = w * h * c ->
  Forall is_byte src ->
  w * h < qoiPixelsMax ->
  w * h * c <= u32 (Z.of_nat (length dest)) ->
  Qoi.Encode src w h = Returned (inr stream) ->
  stream = firstn (length stream - 8) stream ++ padding /\
  exists out,
    Qoi.Decode (firstn (length stream - 8) stream ++ t) dest = Returned out /\
    Qoi.ret out = Qoi.mkDecoded (w * h * c) w h (c =? 4) None /\
    Qoi.dest_after out = src ++ skipn (Z.to_nat (w * h * c)) dest.
Proof.
  intros src w h c dest stream t Hw Hh Hc Hlen Hbytes Hmax Hdest Henc.
  pose proof Hmax as Hmax'. unfold qoiPixelsMax in Hmax'.
  rewrite (Encode_stream src w h c) in Henc by assumption.
  set (ps := pixels_of src c (c =? 4) (Z.to_nat (w * h))) in *.
  set (body := concat (fst (encode_seq false enc_init ps))) in *.
  assert (Hs : stream = (header_bytes w h c ++ body) ++ padding)
    by (rewrite <- app_assoc; congruence).
  assert (Hcut : firstn (length stream - 8) stream = header_bytes w h c ++ body).
  { rewrite Hs at 2. rewrite firstn_app.
    replace (length stream - 8)%nat with (length (header_bytes w h c ++ body))
      by (rewrite Hs, (length_app _ padding); change (length padding) with 8%nat; lia).
    rewrite Nat.sub_diag, firstn_all, firstn_O. apply app_nil_r. }
  rewrite Hcut. split; [exact Hs|].
  rewrite <- app_assoc. subst body.
  rewrite (Decode_chunks_room ps w h c dest t); try assumption.
  - eexists. split; [reflexivity|]. cbn [Qoi.ret Qoi.dest_after].
    split; [reflexivity|].
    subst ps. rewrite pixels_of_out; [reflexivity | exact Hc |].
    rewrite Hlen. rewrite Z2Nat.id by nia. reflexivity.
  - apply pixels_of_length.
  - apply pixels_of_wf. exact Hbytes.
Qed.

(** The theorem at the 1x1 black image, cut before its end marker. *)
Lemma Decode_ignores_end_marker_witness :
  black_1x1 = firstn (length black_1x1 - 8) black_1x1 ++ padding /\
  exists out,
    Qoi.Decode (firstn (length black_1x1 - 8) black_1x1 ++ []) [9; 9; 9] = Returned out /\
    Qoi.ret out = Qoi.mkDecoded (1 * 1 * 3) 1 1 (3 =? 4) None /\
    Qoi.dest_after out = [0; 0; 0] ++ skipn (Z.to_nat (1 * 1 * 3)) [9; 9; 9].
Proof.
  apply (Decode_ignores_end_marker [0; 0; 0] 1 1 3 [9; 9; 9] black_1x1 []).
  - lia.
  - lia.
  - left. reflexivity.
  - reflexivity.
  - repeat constructor; unfold is_byte; lia.
  - unfold qoiPixelsMax. lia.
  - vm_compute. discriminate.
  - vm_compute. reflexivity.
Defined.

(** ** The tests of the repository *)

Lemma NRGBA_eqb_eq c d : QoiTest.NRGBA_eqb c d = true <-> c = d.
Proof.
  unfold QoiTest.NRGBA_eqb. destruct c, d. cbn. split.
  - intros H. split_andb. f_equal; lia.
  - intros H. injection H as -> -> -> ->. rewrite !Z.eqb_refl. reflexivity.
Qed.

Lemma equals_row_nil a b y : forall cols x,
  QoiTest.equals_row a b cols x y = Returned None <->
  (forall x', x <= x' < x + Z.of_nat cols -> same_at a b x' y).
Proof.
  induction cols as [| cols IH]; intros x.
  - cbn. split; [intros _ x' Hx; lia | reflexivity].
  - cbn [QoiTest.equals_row]. cbv zeta. split.
    + intros H x' Hx.
      destruct (QoiTest.At a _ _) as [ca |] eqn:Ea; [|discriminate].
      destruct (QoiTest.At b _ _) as [cb |] eqn:Eb; [|discriminate].
      destruct (QoiTest.Color_eq ca cb) as [[|] |] eqn:E; cbn [negb] in H;
        try discriminate.
      destruct (Z.eq_dec x' x) as [-> | Hne].
      * exists ca, cb. repeat split; assumption.
      * apply (proj1 (IH (x + 1)) H). lia.
    + intros H.
      destruct (H x ltac:(lia)) as (ca & cb & Ha & Hb & E). rewrite Ha, Hb, E.
      cbn [negb]. apply IH. intros x' Hx. apply H. lia.
Qed.

Lemma equals_rows_nil a b cols : forall rows y,
  QoiTest.equals_rows a b rows y cols = Returned None <->
  (forall x' y', 0 <= x' < Z.of_nat cols -> y <= y' < y + Z.of_nat rows -> same_at a b x' y').
Proof.
  induction rows as [| rows IH]; intros y.
  - cbn. split; [intros _ x' y' _ Hy; lia | reflexivity].
  - cbn [QoiTest.equals_rows]. split.
    + intros H x' y' Hx Hy.
      destruct (QoiTest.equals_row a b cols 0 y) as [[e |] |] eqn:E; try discriminate.
      destruct (Z.eq_dec y' y) as [-> | Hne].
      * apply (proj1 (equals_row_nil a b y cols 0) E). lia.
      * apply (proj1 (IH (y + 1)) H); lia.
    + intros H.
      replace (QoiTest.equals_row a b cols 0 y) with (@Returned (option QoiTest.equals_error) None).
      * apply IH. intros x' y' Hx Hy. apply H; lia.
      * symmetry. apply equals_row_nil. intros x' Hx. apply H; lia.
Qed.

Lemma equals_row_error a b y e : forall cols x,
  QoiTest.equals_row a b cols x y = Returned (Some e) -> e = QoiTest.ErrImagesNotEqual.
Proof.
  induction cols as [| cols IH]; intros x; cbn [QoiTest.equals_row]; [discriminate|].
  cbv zeta.
  destruct (QoiTest.At a _ _) as [ca |]; [|discriminate].
  destruct (QoiTest.At b _ _) as [cb |]; [|discriminate].
  destruct (QoiTest.Color_eq ca cb) as [[|] |]; cbn [negb];
    [apply IH | congruence | discriminate].
Qed.

Lemma equals_rows_error a b cols e : forall rows y,
  QoiTest.equals_rows a b rows y cols = Returned (Some e) -> e = QoiTest.ErrImagesNotEqual.
Proof.
  induction rows as [| rows IH]; intros y; cbn [QoiTest.equals_rows]; [discriminate|].
  destruct (QoiTest.equals_row a b cols 0 y) as [[e' |] |] eqn:E.
  - intros H. apply (equals_row_error a b y e cols 0). congruence.
  - apply IH.
  - discriminate.
Qed.

Lemma imageEquals_nil a b :
  QoiTest.sameRectDimensions (QoiTest.Bounds a) (QoiTest.Bounds b) = true ->
  (forall x y, 0 <= x < QoiTest.Dx (QoiTest.Bounds a) ->
               0 <= y < QoiTest.Dy (QoiTest.Bounds a) -> same_at a b x y) ->
  QoiTest.imageEquals a b = Returned None.
Proof.
  intros Hdim Hsame. unfold QoiTest.imageEquals. rewrite Hdim. cbn [negb]. cbv zeta.
  apply equals_rows_nil. intros x y Hx Hy. apply Hsame; lia.
Qed.

(** X12.  [imageEquals] is exact: it returns nil exactly when the two bounds
    have the same width and height and, at every offset inside them, both
    images hold equal colours (each read at its own origin; the read must
    not panic), where two [color.Color] values are equal as [==] on
    interface values has it: the same dynamic type and equal values.  It
    returns "dimensions not equal" exactly when the widths or the heights
    differ.  So two images of equal dimensions of which, at some offset, one
    holds a [color.NRGBA] and the other a colour of another type are never
    found equal, not even when the two colours have the same channels. *)
Theorem imageEquals_exact : forall (a b : QoiTest.Img),
  (QoiTest.imageEquals a b = Returned None <->
   QoiTest.Dx (QoiTest.Bounds a) = QoiTest.Dx (QoiTest.Bounds b) /\
   QoiTest.Dy (QoiTest.Bounds a) = QoiTest.Dy (QoiTest.Bounds b) /\
   forall x y, 0 <= x < QoiTest.Dx (QoiTest.Bounds a) ->
               0 <= y < QoiTest.Dy (QoiTest.Bounds a) -> same_at a b x y) /\
  (QoiTest.imageEquals a b = Returned (Some QoiTest.ErrDimensionsNotEqual) <->
   QoiTest.Dx (QoiTest.Bounds a) <> QoiTest.Dx (QoiTest.Bounds b) \/
   QoiTest.Dy (QoiTest.Bounds a) <> QoiTest.Dy (QoiTest.Bounds b)) /\
  (forall x y c ty data,
     0 <= x < QoiTest.Dx (QoiTest.Bounds a) ->
     0 <= y < QoiTest.Dy (QoiTest.Bounds a) ->
     QoiTest.At a (i64 (QoiImage.MinX (QoiTest.Bounds a) + x))
                  (i64 (QoiImage.MinY (QoiTest.Bounds a) + y))
       = Some (QoiTest.Color_NRGBA c) ->
     QoiTest.At b (i64 (QoiImage.MinX (QoiTest.Bounds b) + x))
                  (i64 (QoiImage.MinY (QoiTest.Bounds b) + y))
       = Some (QoiTest.Color_other ty data) ->
     QoiTest.imageEquals a b <> Returned None).
Proof.
  intros a b.
  assert (Hdim : QoiTest.sameRectDimensions (QoiTest.Bounds a) (QoiTest.Bounds b) = true <->
                 QoiTest.Dx (QoiTest.Bounds a) = QoiTest.Dx (QoiTest.Bounds b) /\
                 QoiTest.Dy (QoiTest.Bounds a) = QoiTest.Dy (QoiTest.Bounds b)).
  { unfold QoiTest.sameRectDimensions. rewrite andb_true_iff, !Z.eqb_eq. reflexivity. }
  assert (Hnil : QoiTest.imageEquals a b = Returned None ->
                 forall x y, 0 <= x < QoiTest.Dx (QoiTest.Bounds a) ->
                             0 <= y < QoiTest.Dy (QoiTest.Bounds a) -> same_at a b x y).
  { intros H x y Hxr Hyr. unfold QoiTest.imageEquals in H.
    destruct (QoiTest.sameRectDimensions _ _); cbn [negb] in H; [|discriminate].
    cbv zeta in H. apply (proj1 (equals_rows_nil a b _ _ _) H); lia. }
  split; [split | split; [split|]].
  - intros H. split; [|split].
    + unfold QoiTest.imageEquals in H.
      destruct (QoiTest.sameRectDimensions _ _) eqn:E; cbn [negb] in H; [|discriminate].
      apply (proj1 Hdim eq_refl).
    + unfold QoiTest.imageEquals in H.
      destruct (QoiTest.sameRectDimensions _ _) eqn:E; cbn [negb] in H; [|discriminate].
      apply (proj1 Hdim eq_refl).
    + apply Hnil, H.
  - intros (Hx & Hy & Hsame). apply imageEquals_nil; [|exact Hsame].
    apply Hdim. split; assumption.
  - intros H. unfold QoiTest.imageEquals in H.
    destruct (QoiTest.sameRectDimensions _ _) eqn:E; cbn [negb] in H.
    + cbv zeta in H. apply equals_rows_error in H. discriminate.
    + destruct (Z.eq_dec (QoiTest.Dx (QoiTest.Bounds a)) (QoiTest.Dx (QoiTest.Bounds b)));
        [|left; assumption].
      destruct (Z.eq_dec (QoiTest.Dy (QoiTest.Bounds a)) (QoiTest.Dy (QoiTest.Bounds b)));
        [|right; assumption].
      assert (false = true) by (apply Hdim; split; assumption).
      discriminate.
  - intros H. unfold QoiTest.imageEquals.
    destruct (QoiTest.sameRectDimensions _ _) eqn:E; [|reflexivity].
    destruct (proj1 Hdim eq_refl). lia.
  - intros x y c ty data Hx Hy Ha Hb H.
    destruct (Hnil H x y Hx Hy) as (ca & cb & Ha' & Hb' & E).
    rewrite Ha in Ha'. rewrite Hb in Hb'.
    injection Ha' as <-. injection Hb' as <-. discriminate.
Qed.

(** The image decoded from the stream of [img] equals [img] in the sense of
    [imageEquals]. *)
Lemma imageEquals_decoded img w h c :
  QoiImage.Bounds img = QoiImage.mkRect 0 0 w h ->
  1 <= w -> 1 <= h -> w * h < qoiPixelsMax ->
  c = 3 \/ c = 4 ->
  (c = 3 -> forall x y, 0 <= x < w -> 0 <= y < h ->
                        QoiImage.cA (QoiImage.At img x y) = 255) ->
  QoiTest.imageEquals
    (QoiTest.of_Image
       (QoiImage.mkImage (flat_map (px_out c) (image_pixels img w (Z.to_nat (w * h))))
                         w h c 0))
    (QoiTest.of_source img) = Returned None.
Proof.
  intros Hb Hw Hh Hmax Hc Halpha.
  pose proof Hmax as Hmax'. unfold qoiPixelsMax in Hmax'.
  assert (Hbounds : Image_Bounds
            (QoiImage.mkImage (flat_map (px_out c) (image_pixels img w (Z.to_nat (w * h))))
                              w h c 0) = QoiImage.mkRect 0 0 w h).
  { unfold Image_Bounds, image_Rect. cbn [QoiImage.Width QoiImage.Height].
    replace (0 >? w) with false by lia. replace (0 >? h) with false by lia.
    reflexivity. }
  apply imageEquals_nil.
  - unfold QoiTest.of_Image, QoiTest.of_source. cbn [QoiTest.Bounds].
    rewrite Hbounds, Hb. unfold QoiTest.sameRectDimensions.
    rewrite !Z.eqb_refl. reflexivity.
  - unfold QoiTest.of_Image, QoiTest.of_source. cbn [QoiTest.Bounds].
    rewrite Hbounds. unfold QoiTest.Dx, QoiTest.Dy. cbn [QoiImage.MinX QoiImage.MinY
      QoiImage.MaxX QoiImage.MaxY].
    rewrite !Z.sub_0_r, (i64_small w), (i64_small h) by nia.
    intros x y Hx Hy. unfold same_at. cbn [QoiTest.Bounds QoiTest.At].
    rewrite Hb. cbn [QoiImage.MinX QoiImage.MinY].
    rewrite !Z.add_0_l, (i64_small x), (i64_small y) by nia.
    rewrite (decoded_image_At img w h c x y) by assumption.
    eexists. eexists. split; [reflexivity|]. split; [reflexivity|].
    cbn [QoiTest.Color_eq]. f_equal. apply NRGBA_eqb_eq.
    destruct (QoiImage.At img x y) as [r g b a] eqn:E. cbn.
    destruct Hc as [-> | ->]; cbn; [|reflexivity].
    specialize (Halpha eq_refl x y Hx Hy). rewrite E in Halpha. cbn in Halpha.
    congruence.
Qed.

(** When [isOpaqueImage] answers true for an image whose [Opaque()] method,
    if any, is truthful, its pixels have alpha 255. *)
Lemma isOpaqueImage_alpha img w h :
  QoiImage.Bounds img = QoiImage.mkRect 0 0 w h ->
  (forall x y, wf_color (QoiImage.At img x y)) ->
  (QoiImage.Opaque img = Some true ->
   forall x y, 0 <= x < w -> 0 <= y < h -> QoiImage.cA (QoiImage.At img x y) = 255) ->
  QoiImage.isOpaqueImage img = true ->
  forall x y, 0 <= x < w -> 0 <= y < h -> QoiImage.cA (QoiImage.At img x y) = 255.
Proof.
  intros Hb Hwf Htruth Hop x y Hx Hy.
  unfold QoiImage.isOpaqueImage in Hop.
  destruct (QoiImage.Opaque img) as [[|] |] eqn:E.
  - apply Htruth; [reflexivity | exact Hx | exact Hy].
  - discriminate.
  - apply RGBA_alpha_byte; [apply Hwf|]. cbv zeta in Hop. rewrite Hb in Hop.
    cbn [QoiImage.MinX QoiImage.MinY QoiImage.MaxX QoiImage.MaxY] in Hop.
    apply (opaque_rows_inv img _ _ _ _ Hop); lia.
Qed.

(** X13.  [TestDecode] passes for every image of [color.NRGBA] pixels:
    whatever image whose [At] returns [color.NRGBA] values (an
    [*image.NRGBA]), with bounds (0,0)-(w,h), fewer than 400,000,000 pixels
    and a truthful [Opaque()] method (if it has one), takes the place of the
    decoded PNG file, [Encode] returns no error, [image.Decode] returns no
    error, and [imageEquals] finds the decoded image equal to the original. *)
Theorem TestDecode_passes : forall (img : QoiImage.image_Image) (w h : Z),
  QoiImage.Bounds img = QoiImage.mkRect 0 0 w h ->
  1 <= w -> 1 <= h -> w * h < qoiPixelsMax ->
  (forall x y, wf_color (QoiImage.At img x y)) ->
  (QoiImage.Opaque img = Some true ->
   forall x y, 0 <= x < w -> 0 <= y < h -> QoiImage.cA (QoiImage.At img x y) = 255) ->
  QoiTest.TestDecode img = Returned QoiTest.Pass.
Proof.
  intros img w h Hb Hw Hh Hmax Hwf Htruth.
  destruct (image_Decode_Encode img w h Hb Hw Hh Hmax Hwf) as (stream & Henc & _ & Hdec).
  unfold QoiTest.TestDecode, decode. rewrite Henc, Hdec.
  cbn [QoiImage.error QoiImage.image].
  rewrite imageEquals_decoded; try assumption.
  - reflexivity.
  - destruct (QoiImage.isOpaqueImage img); auto.
  - intros Hc. apply (isOpaqueImage_alpha img w h Hb Hwf Htruth).
    destruct (QoiImage.isOpaqueImage img); [reflexivity | discriminate].
Qed.

(** The theorem at a 2x2 image with four different colours, one of them
    translucent. *)
Lemma TestDecode_passes_witness :
  QoiTest.TestDecode
    (QoiImage.mkSource (QoiImage.mkRect 0 0 2 2)
       (fun x y => QoiImage.mkNRGBA (Z.b2z (x =? 1)) (Z.b2z (y =? 1)) 7
                                    (if x =? y then 255 else 100))
       None) = Returned QoiTest.Pass.
Proof.
  apply (TestDecode_passes _ 2 2).
  - reflexivity.
  - lia.
  - lia.
  - unfold qoiPixelsMax. lia.
  - intros x y. unfold wf_color, is_byte. cbn [QoiImage.At QoiImage.cR QoiImage.cG
      QoiImage.cB QoiImage.cA].
    destruct (x =? 1), (y =? 1), (x =? y); cbn; lia.
  - discriminate.
Defined.

Lemma bigBuf_length : Z.of_nat (length QoiTest.bigBuf) = 4194304.
Proof. unfold QoiTest.bigBuf. rewrite repeat_length. lia. Qed.

(** X14.  [TestDecodeWithBuffer] passes exactly for the images that fit its
    buffer of 4 MiB: for an image as above ([At] returning [color.NRGBA]
    values, bounds (0,0)-(w,h), fewer than 400,000,000 pixels, a truthful
    [Opaque()] if any) with [c] channels (3 when [isOpaqueImage], else 4) it
    passes when [w * h * c <= 4194304], and otherwise fails with
    [DecodeIntoBuffer]'s "dest of size 4194304 bytes cannot fit image data
    totalling w*h*c bytes". *)
Theorem TestDecodeWithBuffer_outcome : forall (img : QoiImage.image_Image) (w h : Z),
  QoiImage.Bounds img = QoiImage.mkRect 0 0 w h ->
  1 <= w -> 1 <= h -> w * h < qoiPixelsMax ->
  (forall x y, wf_color (QoiImage.At img x y)) ->
  (QoiImage.Opaque img = Some true ->
   forall x y, 0 <= x < w -> 0 <= y < h -> QoiImage.cA (QoiImage.At img x y) = 255) ->
  let c := if QoiImage.isOpaqueImage img then 3 else 4 in
  QoiTest.TestDecodeWithBuffer img =
    Returned (if w * h * c <=? 4194304 then QoiTest.Pass
              else QoiTest.FatalDecode (ErrDestTooSmall 4194304 (w * h * c))).
Proof.
  intros img w h Hb Hw Hh Hmax Hwf Htruth c.
  pose proof Hmax as Hmax'. unfold qoiPixelsMax in Hmax'.
  assert (Hc : c = 3 \/ c = 4) by (subst c; destruct (QoiImage.isOpaqueImage img); auto).
  unfold QoiTest.TestDecodeWithBuffer.
  rewrite (image_Encode_pixels img w h Hb Hw Hh Hmax). fold c.
  set (ps := image_pixels img w (Z.to_nat (w * h))).
  set (body := concat (fst (encode_seq false enc_init ps))).
  assert (Hps : length ps = Z.to_nat (w * h)) by apply image_pixels_length.
  assert (Hhdr : DecodeHeader (header_bytes w h c ++ body ++ padding)
                 = inr (mkHeader qoiMagic w h c 0, body ++ padding)).
  { rewrite DecodeHeader_header_bytes by exact Hc.
    rewrite (u32_small w), (u32_small h) by nia. reflexivity. }
  pose proof bigBuf_length as Hlen.
  set (buf := QoiTest.bigBuf) in *. clearbody buf.
  destruct (w * h * c <=? 4194304) eqn:Efit.
  - apply Z.leb_le in Efit.
    destruct (DecodeIntoBuffer_body _ buf _ _ Hhdr) as (e & rest' & Hbr & Hdec & _).
    { cbn [width height]. rewrite u32_small by nia. nia. }
    { cbn [width height channels]. rewrite u32_small by nia. lia. }
    cbv zeta in Hbr, Hdec. cbn [width height channels colorspace] in Hbr, Hdec.
    rewrite (u32_small (w * h)) in Hbr, Hdec by nia.
    destruct (decode_pixels_encoded ps padding (image_pixels_wf img w _ Hwf))
      as (D' & last & Hdp).
    fold ps body in Hdp. rewrite Hps in Hdp. rewrite Hdp in Hbr, Hdec.
    cbn [fst snd] in Hbr, Hdec.
    unfold body_result in Hbr. cbv zeta in Hbr.
    assert (He : e = None) by congruence. subst e.
    rewrite Hdec. cbn [QoiImage.error QoiImage.image].
    assert (Hk : (length ps * Z.to_nat c)%nat = Z.to_nat (w * h * c)) by nia.
    rewrite <- Hk.
    destruct (stored_prefix c ps buf ltac:(lia) ltac:(nia)) as (_ & _ & Hfirst).
    rewrite Hfirst. unfold ps.
    rewrite imageEquals_decoded; try assumption.
    + reflexivity.
    + intros Hc3. apply (isOpaqueImage_alpha img w h Hb Hwf Htruth).
      subst c. destruct (QoiImage.isOpaqueImage img); [reflexivity | discriminate].
  - apply Z.leb_gt in Efit.
    unfold QoiImage.DecodeIntoBuffer. rewrite Hhdr. cbv zeta.
    cbn [width height channels].
    rewrite (u32_small (w * h)) by nia.
    replace (w * h =? 0) with false by nia.
    rewrite i64_small by nia.
    replace (w * h * c >? Z.of_nat (length buf)) with true
      by (symmetry; apply Z.gtb_lt; lia).
    cbn [QoiImage.error]. rewrite Hlen. reflexivity.
Qed.

(** The theorem at a 2x2 image: it fits the buffer. *)
Lemma TestDecodeWithBuffer_outcome_witness :
  QoiTest.TestDecodeWithBuffer
    (QoiImage.mkSource (QoiImage.mkRect 0 0 2 2)
       (fun x y => QoiImage.mkNRGBA (Z.b2z (x =? 1)) (Z.b2z (y =? 1)) 7
                                    (if x =? y then 255 else 100))
       None) = Returned QoiTest.Pass.
Proof.
  apply (TestDecodeWithBuffer_outcome
           (QoiImage.mkSource (QoiImage.mkRect 0 0 2 2)
              (fun x y => QoiImage.mkNRGBA (Z.b2z (x =? 1)) (Z.b2z (y =? 1)) 7
                                           (if x =? y then 255 else 100))
              None) 2 2).
  - reflexivity.
  - lia.
  - lia.
  - unfold qoiPixelsMax. lia.
  - intros x y. unfold wf_color, is_byte. cbn [QoiImage.At QoiImage.cR QoiImage.cG
      QoiImage.cB QoiImage.cA].
    destruct (x =? 1), (y =? 1), (x =? y); cbn; lia.
  - discriminate.
Defined.

(** ** The size of the stream *)

(** One pixel costs at most 5 bytes, 4 when its alpha is that of the pixel
    before, counting a pending run as one byte still to be written. *)
Lemma encode_pixel_size st p last :
  0 <= e_run st ->
  Z.of_nat (length (concat (fst (encode_pixel st p last))))
    + (if e_run (snd (encode_pixel st p last)) >? 0 then 1 else 0)
    <= (if e_run st >? 0 then 1 else 0)
       + (if px3 p =? px3 (e_prev st) then 4 else 5) /\
  0 <= e_run (snd (encode_pixel st p last)) /\
  e_prev (snd (encode_pixel st p last)) = p.
Proof.
  intros Hrun. unfold encode_pixel. cbv zeta.
  destruct (pixel_eqb p (e_prev st)) eqn:Eeq.
  - destruct ((e_run st + 1 =? 62) || last); cbn [fst snd e_run e_prev concat app length].
    + unfold run_chunk. change (0 >? 0) with false.
      destruct (e_run st >? 0), (px3 p =? px3 (e_prev st));
        cbn [concat app length]; repeat split; lia.
    + replace (e_run st + 1 >? 0) with true by (symmetry; apply Z.gtb_lt; lia).
      destruct (e_run st >? 0), (px3 p =? px3 (e_prev st)); repeat split; cbn [concat app length]; lia.
  - assert (Hfl : forall l : list chunk,
              Z.of_nat (length (concat ((if e_run st >? 0 then [run_chunk (e_run st)] else [])
                                        ++ l)))
              = (if e_run st >? 0 then 1 else 0) + Z.of_nat (length (concat l))).
    { intros l. rewrite concat_app, length_app.
      destruct (e_run st >? 0); unfold run_chunk; cbn [concat app length]; lia. }
    assert (Hr0 : ((if e_run st >? 0 then 0 else e_run st) >? 0) = false).
    { destruct (e_run st >? 0) eqn:E; [reflexivity | exact E]. }
    assert (Hr1 : 0 <= (if e_run st >? 0 then 0 else e_run st)).
    { destruct (e_run st >? 0); lia. }
    destruct (pixel_eqb (index_get _ _) p).
    { cbn [fst snd e_run e_prev]. rewrite Hfl, Hr0. cbn [concat app length].
      destruct (px3 p =? px3 (e_prev st)); repeat split; cbn [concat app length]; lia. }
    destruct (px3 p =? px3 (e_prev st)).
    + destruct (_ && _).
      { cbn [fst snd e_run e_prev]. rewrite Hfl, Hr0. cbn [concat app length].
        repeat split; cbn [concat app length]; lia. }
      destruct (_ && _).
      { cbn [fst snd e_run e_prev]. rewrite Hfl, Hr0. cbn [concat app length].
        repeat split; cbn [concat app length]; lia. }
      cbn [fst snd e_run e_prev]. rewrite Hfl, Hr0. cbn [concat app length].
      repeat split; cbn [concat app length]; lia.
    + cbn [fst snd e_run e_prev]. rewrite Hfl, Hr0. cbn [concat app length].
      repeat split; cbn [concat app length]; lia.
Qed.

Lemma encode_seq_size : forall ps more st,
  0 <= e_run st ->
  Z.of_nat (length (concat (fst (encode_seq more st ps))))
    <= (if e_run st >? 0 then 1 else 0) + 5 * Z.of_nat (length ps).
Proof.
  induction ps as [| p ps IH]; intros more st Hrun.
  - cbn. destruct (e_run st >? 0); lia.
  - cbn [encode_seq length].
    pose proof (encode_pixel_size st p (is_nil ps && negb more) Hrun) as (H1 & H2 & _).
    destruct (encode_pixel st p (is_nil ps && negb more)) as [cs st1].
    cbn [fst snd] in *.
    specialize (IH more st1 H2).
    destruct (encode_seq more st1 ps) as [cs' st2]. cbn [fst] in *.
    rewrite concat_app, length_app.
    destruct (px3 p =? px3 (e_prev st)); lia.
Qed.

Lemma encode_seq_size_rgb a : forall ps more st,
  0 <= e_run st -> px3 (e_prev st) = a ->
  Forall (fun p => px3 p = a) ps ->
  Z.of_nat (length (concat (fst (encode_seq more st ps))))
    <= (if e_run st >? 0 then 1 else 0) + 4 * Z.of_nat (length ps).
Proof.
  induction ps as [| p ps IH]; intros more st Hrun Hprev Hall.
  - cbn. destruct (e_run st >? 0); lia.
  - cbn [encode_seq length].
    inversion Hall as [| ? ? Hp Hps]; subst.
    pose proof (encode_pixel_size st p (is_nil ps && negb more) Hrun) as (H1 & H2 & H3).
    destruct (encode_pixel st p (is_nil ps && negb more)) as [cs st1].
    cbn [fst snd] in *.
    specialize (IH more st1 H2 ltac:(rewrite H3; exact Hp) Hps).
    destruct (encode_seq more st1 ps) as [cs' st2]. cbn [fst] in *.
    rewrite concat_app, length_app.
    rewrite Hp, Z.eqb_refl in H1. lia.
Qed.

(** X15.  The stream [Encode] returns is never longer than the header, the
    end marker and [channels + 1] bytes per pixel: at most
    [14 + w * h * (c + 1) + 8] bytes for a buffer of [w * h * c] bytes. *)
Theorem Encode_size_bound : forall (src : list Z) (w h c : Z) (stream : list Z),
  1 <= w -> 1 <= h -> c = 3 \/ c = 4 ->
  Z.of_nat (length src) = w * h * c ->
  w * h < qoiPixelsMax ->
  Qoi.Encode src w h = Returned (inr stream) ->
  22 <= Z.of_nat (length stream) <= 14 + w * h * (c + 1) + 8.
Proof.
  intros src w h c stream Hw Hh Hc Hlen Hmax Henc.
  rewrite (Encode_stream src w h c) in Henc by assumption.
  assert (Hs : stream = header_bytes w h c
                 ++ concat (fst (encode_seq false enc_init
                                   (pixels_of src c (c =? 4) (Z.to_nat (w * h)))))
                 ++ padding) by congruence.
  rewrite Hs, !length_app, header_bytes_length.
  change (length padding) with 8%nat.
  set (ps := pixels_of src c (c =? 4) (Z.to_nat (w * h))).
  assert (Hps : Z.of_nat (length ps) = w * h).
  { subst ps. rewrite pixels_of_length. nia. }
  split; [lia|].
  destruct Hc as [-> | ->].
  - pose proof (encode_seq_size_rgb 255 ps false enc_init) as Hb.
    cbn [e_run e_prev enc_init] in Hb.
    assert (Hall : Forall (fun p => px3 p = 255) ps).
    { subst ps. unfold pixels_of. apply Forall_forall. intros p Hin.
      apply in_map_iff in Hin as (i & <- & _). reflexivity. }
    specialize (Hb ltac:(lia) eq_refl Hall).
    change (0 >? 0) with false in Hb. lia.
  - pose proof (encode_seq_size ps false enc_init) as Hb.
    cbn [e_run enc_init] in Hb. specialize (Hb ltac:(lia)).
    change (0 >? 0) with false in Hb. lia.
Qed.

(** The theorem at the 1x1 black image: 23 bytes. *)
Lemma Encode_size_bound_witness :
  22 <= Z.of_nat (length black_1x1) <= 14 + 1 * 1 * (3 + 1) + 8.
Proof.
  apply (Encode_size_bound [0; 0; 0] 1 1 3 black_1x1).
  - lia.
  - lia.
  - left. reflexivity.
  - reflexivity.
  - unfold qoiPixelsMax. lia.
  - vm_compute. reflexivity.
Defined.

(** ** The two encoders *)

Lemma pixels_of_flat_map c ps :
  c = 3 \/ c = 4 ->
  (c = 3 -> Forall (fun p => px3 p = 255) ps) ->
  pixels_of (flat_map (px_out c) ps) c (c =? 4) (length ps) = ps.
Proof.
  intros Hc Halpha.
  apply (nth_ext _ _ zero_pixel zero_pixel).
  - apply pixels_of_length.
  - intros i Hi. rewrite pixels_of_length in Hi.
    unfold pixels_of. rewrite nth_zrange_map by exact Hi.
    rewrite (flat_pixel_flat_map c ps i zero_pixel Hc Hi).
    assert (Hin : In (nth i ps zero_pixel) ps) by (apply nth_In; exact Hi).
    destruct (nth i ps zero_pixel) as [r g b a]. cbn [px0 px1 px2 px3].
    destruct Hc as [-> | ->]; cbn [Z.eqb Pos.eqb]; [|reflexivity].
    specialize (Halpha eq_refl). rewrite Forall_forall in Halpha.
    specialize (Halpha _ Hin). cbn in Halpha. congruence.
Qed.

(** X16.  The image-based [Encode] writes the stream the byte-buffer [Encode]
    writes for the image's pixels laid out row by row, as R, G, B bytes when
    [isOpaqueImage] holds and as R, G, B, A bytes otherwise (bounds
    (0,0)-(w,h), a truthful [Opaque()] method if there is one). *)
Theorem encoders_agree : forall (img : QoiImage.image_Image) (w h : Z),
  QoiImage.Bounds img = QoiImage.mkRect 0 0 w h ->
  1 <= w -> 1 <= h -> w * h < qoiPixelsMax ->
  (forall x y, wf_color (QoiImage.At img x y)) ->
  (QoiImage.Opaque img = Some true ->
   forall x y, 0 <= x < w -> 0 <= y < h -> QoiImage.cA (QoiImage.At img x y) = 255) ->
  let c := if QoiImage.isOpaqueImage img then 3 else 4 in
  QoiImage.Encode img =
    Qoi.Encode (flat_map (px_out c) (image_pixels img w (Z.to_nat (w * h)))) w h.
Proof.
  intros img w h Hb Hw Hh Hmax Hwf Htruth c.
  pose proof Hmax as Hmax'. unfold qoiPixelsMax in Hmax'.
  assert (Hc : c = 3 \/ c = 4) by (subst c; destruct (QoiImage.isOpaqueImage img); auto).
  set (ps := image_pixels img w (Z.to_nat (w * h))).
  assert (Hps : length ps = Z.to_nat (w * h)) by apply image_pixels_length.
  rewrite (image_Encode_pixels img w h Hb Hw Hh Hmax). fold c ps.
  rewrite (Encode_stream (flat_map (px_out c) ps) w h c); try assumption.
  2:{ rewrite flat_map_px_out_length by lia. nia. }
  rewrite <- Hps, pixels_of_flat_map; [reflexivity | exact Hc |].
  intros Hc3. apply Forall_forall. intros p Hin.
  subst ps. unfold image_pixels in Hin. apply in_map_iff in Hin as (i & <- & Hi).
  unfold image_pixel. cbn [px3].
  assert (Hrange : 0 <= i < w * h).
  { clear - Hi Hw Hh. revert Hi.
    assert (G : forall n lo, In i (zrange lo n) -> lo <= i < lo + Z.of_nat n).
    { induction n as [| n IH]; intros lo; cbn; [tauto|].
      intros [<- | Hin]; [lia|]. apply IH in Hin. lia. }
    intros Hi. apply G in Hi. nia. }
  apply (isOpaqueImage_alpha img w h Hb Hwf Htruth).
  - subst c. destruct (QoiImage.isOpaqueImage img); [reflexivity | discriminate].
  - apply Z.mod_pos_bound. lia.
  - split; [apply Z.div_pos; lia|]. apply Z.div_lt_upper_bound; lia.
Qed.

(** The theorem at a 2x2 image with a translucent pixel. *)
Lemma encoders_agree_witness :
  QoiImage.Encode
    (QoiImage.mkSource (QoiImage.mkRect 0 0 2 2)
       (fun x y => QoiImage.mkNRGBA (Z.b2z (x =? 1)) (Z.b2z (y =? 1)) 7
                                    (if x =? y then 255 else 100))
       None) =
  Qoi.Encode [0; 0; 7; 255; 1; 0; 7; 100; 0; 1; 7; 100; 1; 1; 7; 255] 2 2.
Proof.
  apply (encoders_agree
           (QoiImage.mkSource (QoiImage.mkRect 0 0 2 2)
              (fun x y => QoiImage.mkNRGBA (Z.b2z (x =? 1)) (Z.b2z (y =? 1)) 7
                                           (if x =? y then 255 else 100))
              None) 2 2).
  - reflexivity.
  - lia.
  - lia.
  - unfold qoiPixelsMax. lia.
  - intros x y. unfold wf_color, is_byte. cbn [QoiImage.At QoiImage.cR QoiImage.cG
      QoiImage.cB QoiImage.cA].
    destruct (x =? 1), (y =? 1), (x =? y); cbn; lia.
  - discriminate.
Defined.

(** ** Truncated streams and the image decoders *)

(** Once an iteration has failed the loop is over. *)
Lemma decode_pixels_stops : forall a b st,
  is_failure (snd (decode_pixels a st)) = true ->
  decode_pixels (a + b) st = decode_pixels a st.
Proof.
  induction a as [| a IH]; intros b st Hfail; [discriminate|].
  cbn [Nat.add decode_pixels] in *.
  destruct (decode_step st) as [| e | st1]; try reflexivity.
  specialize (IH b st1).
  destruct (decode_pixels a st1) as [ps r]. cbn [snd] in *.
  rewrite IH by exact Hfail. reflexivity.
Qed.

(** Iterations that went well, followed by more iterations. *)
Lemma decode_pixels_seq : forall a b st st1 ps1 ps2 r,
  decode_pixels a st = (ps1, StepOk st1) ->
  decode_pixels b st1 = (ps2, r) ->
  decode_pixels (a + b) st = (ps1 ++ ps2, r).
Proof.
  induction a as [| a IH]; intros b st st1 ps1 ps2 r Ha Hb.
  - cbn in Ha. injection Ha as <- <-. exact Hb.
  - cbn [Nat.add decode_pixels] in *.
    destruct (decode_step st) as [| e | st0]; try discriminate.
    destruct (decode_pixels a st0) as [ps0 r0] eqn:E0.
    injection Ha as <- ->.
    rewrite (IH b st0 st1 ps0 ps2 r E0 Hb). reflexivity.
Qed.

(** The decoder follows the encoder through one pixel, whether or not the
    pixel is taken for the last one: it reads the chunks written for the
    pixel and has then produced every pixel but those of the pending run. *)
Lemma decode_encode_pixel E prev run D p last :
  wf_pixel prev -> wf_pixel p -> codec_inv E D prev -> 0 <= run < 62 ->
  exists cs st',
    encode_pixel (mkEnc E prev run) p last = (cs, st') /\
    e_prev st' = p /\ 0 <= e_run st' < 62 /\
    forall t, exists m ps D',
      decode_pixels m (mkDec (concat cs ++ t) D prev 0) = (ps, StepOk (mkDec t D' p 0)) /\
      codec_inv (e_index st') D' p /\
      Z.of_nat m + e_run st' = run + 1.
Proof.
  intros Hprev Hp Hinv Hrun.
  destruct (pixel_eqb p prev) eqn:Heq.
  - rewrite encode_pixel_eq by exact Heq.
    apply pixel_eqb_eq in Heq. subst p. cbn [e_run e_index e_prev].
    destruct ((run + 1 =? 62) || last) eqn:Hflush.
    + eexists. eexists. split; [reflexivity|]. cbn [e_prev e_run e_index].
      split; [reflexivity|]. split; [lia|].
      intros t. exists (Z.to_nat (run + 1) + 0)%nat. eexists. eexists.
      split; [|split].
      * cbn [concat]. rewrite app_nil_r.
        rewrite decode_pixels_run_chunk by lia. cbn [decode_pixels]. reflexivity.
      * apply codec_inv_rewrite_prev. exact Hinv.
      * lia.
    + eexists. eexists. split; [reflexivity|]. cbn [e_prev e_run e_index].
      apply orb_false_iff in Hflush as [H62 _].
      split; [reflexivity|]. split; [lia|].
      intros t. exists 0%nat. eexists. eexists.
      split; [|split].
      * cbn [concat app decode_pixels]. reflexivity.
      * exact Hinv.
      * lia.
  - rewrite encode_pixel_neq by exact Heq. cbn [e_run e_index e_prev].
    pose proof Hinv as (HE & HD & H1 & H2).
    rewrite (snd_new_pixel_chunk E prev p) by exact HE.
    eexists. eexists. split; [reflexivity|]. cbn [e_prev e_run e_index].
    split; [reflexivity|].
    split; [destruct (run >? 0); lia|].
    intros t.
    destruct (run >? 0) eqn:Hpos.
    + exists (Z.to_nat run + 1)%nat. eexists. eexists. split; [|split].
      * cbn [app concat]. rewrite app_nil_r, <- app_assoc.
        rewrite decode_pixels_run_chunk by lia.
        rewrite (decode_pixels_new_pixel _ E _ prev p)
          by (try assumption; apply codec_inv_rewrite_prev; exact Hinv).
        cbn [decode_pixels]. reflexivity.
      * apply (codec_inv_store _ _ prev). apply codec_inv_rewrite_prev. exact Hinv.
      * lia.
    + exists 1%nat. eexists. eexists. split; [|split].
      * cbn [app concat]. rewrite app_nil_r.
        rewrite (decode_pixels_new_pixel _ E _ prev p) by assumption.
        cbn [decode_pixels]. reflexivity.
      * apply (codec_inv_store _ _ prev). exact Hinv.
      * lia.
Qed.

Section RasterDecode.
Variable fetch : Z -> Z -> option pixel.
Variables wm hm : Z.
Hypothesis Hfetch : forall x y, exists p, fetch x y = Some p /\ wf_pixel p.

(** The same through a row of the raster loops ... *)
Lemma decode_encode_row y : forall cols x st out,
  wf_pixel (e_prev st) -> 0 <= e_run st < 62 ->
  exists st' cs,
    encode_row fetch wm hm cols x y st out = Some (st', out ++ cs) /\
    wf_pixel (e_prev st') /\ 0 <= e_run st' < 62 /\
    forall D t, codec_inv (e_index st) D (e_prev st) ->
      exists m ps D',
        decode_pixels m (mkDec (concat cs ++ t) D (e_prev st) 0)
          = (ps, StepOk (mkDec t D' (e_prev st') 0)) /\
        codec_inv (e_index st') D' (e_prev st') /\
        Z.of_nat m + e_run st' = e_run st + Z.of_nat cols.
Proof.
  induction cols as [| cols IH]; intros x st out Hprev Hrun.
  - exists st, []. cbn [encode_row]. rewrite app_nil_r.
    split; [reflexivity|]. split; [exact Hprev|]. split; [exact Hrun|].
    intros D t Hinv. exists 0%nat. eexists. exists D.
    split; [reflexivity|]. split; [exact Hinv | lia].
  - cbn [encode_row]. destruct (Hfetch x y) as (p & -> & Hp).
    destruct st as [E prev run]. cbn [e_prev e_run e_index] in *.
    set (last := (x =? wm) && (y =? hm)).
    assert (Hstep : forall D, codec_inv E D prev ->
      exists cs st',
        encode_pixel (mkEnc E prev run) p last = (cs, st') /\
        e_prev st' = p /\ 0 <= e_run st' < 62 /\
        forall t, exists m ps D',
          decode_pixels m (mkDec (concat cs ++ t) D prev 0)
            = (ps, StepOk (mkDec t D' p 0)) /\
          codec_inv (e_index st') D' p /\
          Z.of_nat m + e_run st' = run + 1).
    { intros D Hinv. apply decode_encode_pixel; assumption. }
    destruct (encode_pixel (mkEnc E prev run) p last) as [cs1 st1] eqn:Hpx.
    assert (Hst1 : e_prev st1 = p /\ 0 <= e_run st1 < 62).
    { destruct (pixel_eqb p prev) eqn:Heq.
      - rewrite encode_pixel_eq in Hpx by exact Heq. cbn [e_run e_index e_prev] in Hpx.
        destruct ((run + 1 =? 62) || last) eqn:Hflush; injection Hpx as <- <-;
          cbn [e_prev e_run]; (split; [reflexivity|]); [lia|].
        apply orb_false_iff in Hflush as [H62 _]. lia.
      - rewrite encode_pixel_neq in Hpx by exact Heq. cbn [e_run e_index e_prev] in Hpx.
        injection Hpx as <- <-. cbn [e_prev e_run]. split; [reflexivity|].
        destruct (run >? 0); lia. }
    destruct Hst1 as [Hp1 Hr1].
    destruct (IH (x + 1) st1 (out ++ cs1)) as (st' & cs2 & Hrow & Hprev' & Hrun' & Hdec).
    { rewrite Hp1. exact Hp. }
    { exact Hr1. }
    exists st', (cs1 ++ cs2). rewrite app_assoc.
    split; [exact Hrow|]. split; [exact Hprev'|]. split; [exact Hrun'|].
    intros D t Hinv.
    destruct (Hstep D Hinv) as (cs & st0 & Hcs & _ & _ & Hd1).
    injection Hcs as <- <-.
    destruct (Hd1 (concat cs2 ++ t)) as (m1 & ps1 & D1 & Hdec1 & Hinv1 & Hm1).
    rewrite <- Hp1 in Hinv1, Hdec1.
    destruct (Hdec D1 t Hinv1) as (m2 & ps2 & D2 & Hdec2 & Hinv2 & Hm2).
    exists (m1 + m2)%nat, (ps1 ++ ps2), D2.
    split; [|split].
    + rewrite concat_app, <- app_assoc.
      apply (decode_pixels_seq _ _ _ _ _ _ _ Hdec1 Hdec2).
    + exact Hinv2.
    + lia.
Qed.

(** ... and through all of them. *)
Lemma decode_encode_rows x0 cols : forall rows y st out,
  wf_pixel (e_prev st) -> 0 <= e_run st < 62 ->
  exists st' cs,
    encode_rows fetch wm hm rows y x0 cols st out = Some (st', out ++ cs) /\
    wf_pixel (e_prev st') /\ 0 <= e_run st' < 62 /\
    forall D t, codec_inv (e_index st) D (e_prev st) ->
      exists m ps D',
        decode_pixels m (mkDec (concat cs ++ t) D (e_prev st) 0)
          = (ps, StepOk (mkDec t D' (e_prev st') 0)) /\
        codec_inv (e_index st') D' (e_prev st') /\
        Z.of_nat m + e_run st' = e_run st + Z.of_nat rows * Z.of_nat cols.
Proof.
  induction rows as [| rows IH]; intros y st out Hprev Hrun.
  - exists st, []. cbn [encode_rows]. rewrite app_nil_r.
    split; [reflexivity|]. split; [exact Hprev|]. split; [exact Hrun|].
    intros D t Hinv. exists 0%nat. eexists. exists D.
    split; [reflexivity|]. split; [exact Hinv | lia].
  - cbn [encode_rows].
    destruct (decode_encode_row y cols x0 st out Hprev Hrun)
      as (st1 & cs1 & Hrow & Hprev1 & Hrun1 & Hdec1).
    rewrite Hrow.
    destruct (IH (y + 1) st1 (out ++ cs1) Hprev1 Hrun1)
      as (st' & cs2 & Hrows & Hprev' & Hrun' & Hdec2).
    exists st', (cs1 ++ cs2). rewrite app_assoc.
    split; [exact Hrows|]. split; [exact Hprev'|]. split; [exact Hrun'|].
    intros D t Hinv.
    destruct (Hdec1 D (concat cs2 ++ t) Hinv) as (m1 & ps1 & D1 & Hd1 & Hinv1 & Hm1).
    destruct (Hdec2 D1 t Hinv1) as (m2 & ps2 & D2 & Hd2 & Hinv2 & Hm2).
    exists (m1 + m2)%nat, (ps1 ++ ps2), D2.
    split; [|split].
    + rewrite concat_app, <- app_assoc.
      apply (decode_pixels_seq _ _ _ _ _ _ _ Hd1 Hd2).
    + exact Hinv2.
    + lia.
Qed.
End RasterDecode.

(** The stream of an image with any bounds: the header, chunks and the end
    marker, and every cut inside the chunks makes the decoder's iterations
    fail. *)
Lemma image_Encode_any_bounds img w h :
  QoiImage.MaxX (QoiImage.Bounds img) - QoiImage.MinX (QoiImage.Bounds img) = w ->
  QoiImage.MaxY (QoiImage.Bounds img) - QoiImage.MinY (QoiImage.Bounds img) = h ->
  1 <= w -> 1 <= h -> w * h < qoiPixelsMax ->
  (forall x y, wf_color (QoiImage.At img x y)) ->
  exists body,
    QoiImage.Encode img =
      Returned (inr (header_bytes w h (if QoiImage.isOpaqueImage img then 3 else 4)
                     ++ body ++ padding)) /\
    forall k, (k < length body)%nat ->
      is_failure (snd (decode_pixels (Z.to_nat (w * h)) (dec_init (firstn k body)))) = true.
Proof.
  intros Hdx Hdy Hw Hh Hmax Hwf.
  pose proof Hmax as Hmax'. unfold qoiPixelsMax in Hmax'.
  unfold QoiImage.Encode. cbv zeta. rewrite Hdx, Hdy.
  rewrite (i64_small w), (i64_small h) by nia.
  rewrite (i64_small (w * h)) by nia.
  replace (w * h =? 0) with false by nia.
  replace (w * h >=? qoiPixelsMax) with false by (unfold qoiPixelsMax; lia).
  set (fetch := fun x y : Z =>
         Some (mkpx (QoiImage.cR (QoiImage.At img x y)) (QoiImage.cG (QoiImage.At img x y))
                    (QoiImage.cB (QoiImage.At img x y)) (QoiImage.cA (QoiImage.At img x y)))).
  destruct (decode_encode_rows fetch (i64 (w - 1)) (i64 (h - 1))
              ltac:(intros x y; eexists; split; [reflexivity | apply (Hwf x y)])
              (QoiImage.MinX (QoiImage.Bounds img)) (Z.to_nat w) (Z.to_nat h)
              (QoiImage.MinY (QoiImage.Bounds img)) enc_init [])
    as (st' & cs & Henc & _ & Hrun & Hdec).
  { unfold enc_init, start_pixel, wf_pixel, is_byte. cbn. lia. }
  { cbn. lia. }
  rewrite Henc. cbn [app].
  exists (concat cs). split.
  - destruct (QoiImage.isOpaqueImage img); reflexivity.
  - intros k Hk.
    destruct (Hdec new_index [] codec_inv_init) as (m & ps & D' & Hd & _ & Hm).
    cbn [enc_init e_prev e_run e_index] in Hd, Hm.
    destruct (decode_pixels_prefix _ _ _ _ Hd) as (c & Hc & Hfail).
    cbn [d_rd] in Hc. rewrite !app_nil_r in Hc. subst c.
    specialize (Hfail k Hk). unfold set_rd in Hfail. cbn [d_index d_px d_run] in Hfail.
    replace (Z.to_nat (w * h)) with (m + (Z.to_nat (w * h) - m))%nat by nia.
    unfold dec_init. rewrite decode_pixels_stops by exact Hfail. exact Hfail.
Qed.

(** X17.  The image decoders report a truncated stream, whatever the bounds
    of the image.  Take an image of [color.NRGBA] pixels with any bounds of
    width and height at least 1 and fewer than 400,000,000 pixels, and cut
    the stream the image-based [Encode] returns for it anywhere before its
    8-byte end marker: [Decode] returns a non-nil error, and so does
    [DecodeIntoBuffer], whatever buffer it is given. *)
Theorem image_decoders_truncated :
  forall (img : QoiImage.image_Image) (w h : Z) (stream dest : list Z) (k : nat),
  QoiImage.MaxX (QoiImage.Bounds img) - QoiImage.MinX (QoiImage.Bounds img) = w ->
  QoiImage.MaxY (QoiImage.Bounds img) - QoiImage.MinY (QoiImage.Bounds img) = h ->
  1 <= w -> 1 <= h -> w * h < qoiPixelsMax ->
  (forall x y, wf_color (QoiImage.At img x y)) ->
  QoiImage.Encode img = Returned (inr stream) ->
  (k + 8 < length stream)%nat ->
  (exists res, QoiImage.Decode (firstn k stream) = Returned res /\
               QoiImage.error res <> None) /\
  (exists res, QoiImage.DecodeIntoBuffer (firstn k stream) dest = Returned res /\
               QoiImage.error res <> None).
Proof.
  intros img w h stream dest k Hdx Hdy Hw Hh Hmax Hwf Henc Hk.
  pose proof Hmax as Hmax'. unfold qoiPixelsMax in Hmax'.
  destruct (image_Encode_any_bounds img w h Hdx Hdy Hw Hh Hmax Hwf)
    as (body & Hstream & Hcutfail).
  rewrite Hstream in Henc.
  set (c := if QoiImage.isOpaqueImage img then 3 else 4) in *.
  assert (Hc : c = 3 \/ c = 4) by (subst c; destruct (QoiImage.isOpaqueImage img); auto).
  assert (Hs : stream = header_bytes w h c ++ body ++ padding) by congruence.
  subst stream. clear Henc Hstream.
  rewrite !length_app in Hk. change (length padding) with 8%nat in Hk.
  rewrite header_bytes_length in Hk.
  destruct (Nat.lt_ge_cases k 14) as [Hshort | Hlong].
  - (* the cut is inside the header *)
    destruct (DecodeHeader_short (firstn k (header_bytes w h c ++ body ++ padding)))
      as (e & He & _).
    { rewrite length_firstn. lia. }
    split; eexists.
    + unfold QoiImage.Decode. rewrite He. split; [reflexivity|]. discriminate.
    + unfold QoiImage.DecodeIntoBuffer. rewrite He. split; [reflexivity|]. discriminate.
  - (* the cut is inside the chunks *)
    assert (Hcut : firstn k (header_bytes w h c ++ body ++ padding)
                   = header_bytes w h c ++ firstn (k - 14) body).
    { rewrite firstn_app, header_bytes_length.
      rewrite (firstn_all2 (header_bytes w h c)) by (rewrite header_bytes_length; lia).
      rewrite firstn_app.
      replace (k - 14 - length body)%nat with 0%nat by lia.
      rewrite firstn_O, app_nil_r. reflexivity. }
    rewrite Hcut.
    assert (Hhdr : DecodeHeader (header_bytes w h c ++ firstn (k - 14) body)
                   = inr (mkHeader qoiMagic w h c 0, firstn (k - 14) body)).
    { rewrite DecodeHeader_header_bytes by exact Hc.
      rewrite (u32_small w), (u32_small h) by nia. reflexivity. }
    pose proof (Hcutfail (k - 14)%nat ltac:(lia)) as Hfail.
    set (dp := decode_pixels (Z.to_nat (w * h)) (dec_init (firstn (k - 14) body))) in *.
    split.
    + unfold QoiImage.Decode. rewrite Hhdr.
      cbn [width height channels colorspace QoiImage.Channels QoiImage.Width
           QoiImage.Height QoiImage.Colorspace].
      rewrite (u32_small (w * h)), (u32_small c), (u32_small (w * h * c)) by (lia || nia).
      destruct (decodeBody_pixels (firstn (k - 14) body)
                  (repeat 0 (Z.to_nat (w * h * c))) c (i64 (w * c)) Hc) as (Hbody & _).
      { rewrite repeat_length. nia. }
      cbv zeta in Hbody. rewrite repeat_length in Hbody.
      replace (Z.of_nat (Z.to_nat (w * h * c)) / c) with (w * h) in Hbody
        by (rewrite Z2Nat.id by nia; symmetry; apply Z.div_mul; lia).
      fold dp in Hbody. rewrite Hbody.
      unfold body_result. cbv zeta.
      destruct (snd dp) as [| e | st']; [| | discriminate];
        eexists; (split; [reflexivity|]); discriminate.
    + destruct (Z_lt_le_dec (Z.of_nat (length dest)) (w * h * c)) as [Hsmall | Hfit].
      * unfold QoiImage.DecodeIntoBuffer. rewrite Hhdr. cbv zeta.
        cbn [width height channels].
        rewrite (u32_small (w * h)) by nia.
        replace (w * h =? 0) with false by nia.
        rewrite i64_small by nia.
        replace (w * h * c >? Z.of_nat (length dest)) with true
          by (symmetry; apply Z.gtb_lt; lia).
        eexists. split; [reflexivity|]. discriminate.
      * destruct (DecodeIntoBuffer_body _ dest _ _ Hhdr) as (e & rest' & Hbr & Hdec & _).
        { cbn [width height]. rewrite u32_small by nia. nia. }
        { cbn [width height channels]. rewrite u32_small by nia. lia. }
        cbv zeta in Hbr, Hdec. cbn [width height channels colorspace] in Hbr, Hdec.
        rewrite (u32_small (w * h)) in Hbr, Hdec by nia.
        fold dp in Hbr, Hdec.
        eexists. split; [exact Hdec|]. cbn [QoiImage.error].
        unfold body_result in Hbr. cbv zeta in Hbr.
        destruct (snd dp) as [| e' | st']; [| | discriminate]; congruence.
Qed.

(** The theorem at a 2x2 image with the bounds (1,1)-(3,3), whose stream is
    cut after 17 bytes. *)
Lemma image_decoders_truncated_witness :
  (exists res,
     QoiImage.Decode
       (firstn 17 (header_bytes 2 2 3 ++ [169; 136; 122; 60; 63] ++ padding)) = Returned res /\
     QoiImage.error res <> None) /\
  (exists res,
     QoiImage.DecodeIntoBuffer
       (firstn 17 (header_bytes 2 2 3 ++ [169; 136; 122; 60; 63] ++ padding))
       (repeat 0 12) = Returned res /\
     QoiImage.error res <> None).
Proof.
  apply (image_decoders_truncated
           (QoiImage.mkSource (QoiImage.mkRect 1 1 3 3)
              (fun x y => QoiImage.mkNRGBA (9 + Z.b2z (x =? 2)) 9 9 255) None) 2 2).
  - reflexivity.
  - reflexivity.
  - lia.
  - lia.
  - unfold qoiPixelsMax. lia.
  - intros x y. unfold wf_color, is_byte. cbn [QoiImage.At QoiImage.cR QoiImage.cG
      QoiImage.cB QoiImage.cA].
    destruct (x =? 2); cbn; lia.
  - vm_compute. reflexivity.
  - cbn. lia.
Defined.

(** ** Bounds that do not start at the origin *)

(** A row of pixels that all equal the previous pixel, none of them taken for
    the last pixel of the image, only counts up the run. *)
Lemma encode_row_counts fetch wm hm y : forall cols x r out,
  (forall x', x <= x' < x + Z.of_nat cols ->
     fetch x' y = Some start_pixel /\ (x' =? wm) && (y =? hm) = false) ->
  0 <= r -> r + Z.of_nat cols < 62 ->
  encode_row fetch wm hm cols x y (mkEnc new_index start_pixel r) out =
    Some (mkEnc new_index start_pixel (r + Z.of_nat cols), out).
Proof.
  induction cols as [| cols IH]; intros x r out Hpx Hr Hlt.
  - cbn. rewrite Z.add_0_r. reflexivity.
  - cbn [encode_row].
    destruct (Hpx x ltac:(lia)) as [Hf Hl]. rewrite Hf, Hl.
    unfold encode_pixel. cbn [e_index e_prev e_run].
    rewrite pixel_eqb_refl.
    replace (r + 1 =? 62) with false by lia. cbn [orb].
    rewrite app_nil_r, IH; [| intros x' Hx'; apply Hpx; lia | lia | lia].
    do 3 f_equal. lia.
Qed.

Lemma encode_rows_counts fetch wm hm x0 cols : forall rows y r out,
  (forall x' y', x0 <= x' < x0 + Z.of_nat cols -> y <= y' < y + Z.of_nat rows ->
     fetch x' y' = Some start_pixel /\ (x' =? wm) && (y' =? hm) = false) ->
  0 <= r -> r + Z.of_nat rows * Z.of_nat cols < 62 ->
  encode_rows fetch wm hm rows y x0 cols (mkEnc new_index start_pixel r) out =
    Some (mkEnc new_index start_pixel (r + Z.of_nat rows * Z.of_nat cols), out).
Proof.
  induction rows as [| rows IH]; intros y r out Hpx Hr Hlt.
  - cbn. rewrite Z.add_0_r. reflexivity.
  - cbn [encode_rows].
    rewrite encode_row_counts; [| intros x' Hx'; apply Hpx; lia | lia | nia].
    rewrite IH; [| intros x' y' Hx' Hy'; apply Hpx; lia | lia | nia].
    do 3 f_equal. nia.
Qed.

(** X18.  The image-based [Encode] recognises the last pixel by comparing the
    absolute coordinates with [width - 1] and [height - 1], so for bounds that
    do not contain that point a trailing run is never written.  For an image
    of fewer than 62 pixels, all (0,0,0,255), with such bounds, the stream is
    the header followed directly by the end marker, with no chunk at all; and
    when the image has more than 8 pixels, [Decode] of that stream returns
    "unexpected EOF after 8 pixels". *)
Theorem image_Encode_offset_bounds : forall (img : QoiImage.image_Image) (x0 y0 w h : Z),
  QoiImage.Bounds img = QoiImage.mkRect x0 y0 (x0 + w) (y0 + h) ->
  1 <= w -> 1 <= h -> w * h < 62 ->
  x0 < 0 \/ w <= x0 \/ y0 < 0 \/ h <= y0 ->
  QoiImage.Opaque img = None ->
  (forall x y, x0 <= x < x0 + w -> y0 <= y < y0 + h ->
               QoiImage.At img x y = QoiImage.mkNRGBA 0 0 0 255) ->
  QoiImage.Encode img = Returned (inr (header_bytes w h 3 ++ padding)) /\
  (8 < w * h ->
   exists res,
     QoiImage.Decode (header_bytes w h 3 ++ padding) = Returned res /\
     QoiImage.error res = Some (ErrUnexpectedEOFAfter 8 (w * h))).
Proof.
  intros img x0 y0 w h Hb Hw Hh Hn Hoff Hop Hpx. split.
  - assert (Hopq : QoiImage.isOpaqueImage img = true).
    { apply isOpaqueImage_true; [| rewrite Hop; discriminate].
      rewrite Hb. cbn [QoiImage.MinX QoiImage.MinY QoiImage.MaxX QoiImage.MaxY].
      intros x y Hx Hy. rewrite Hpx by assumption. reflexivity. }
    unfold QoiImage.Encode. rewrite Hb, Hopq. cbv zeta.
    cbn [QoiImage.MinX QoiImage.MinY QoiImage.MaxX QoiImage.MaxY negb].
    rewrite !Z.add_simpl_l.
    rewrite (i64_small w), (i64_small h) by nia.
    rewrite (i64_small (w * h)) by nia.
    replace (w * h =? 0) with false by nia.
    replace (w * h >=? qoiPixelsMax) with false by (unfold qoiPixelsMax; lia).
    rewrite (i64_small (w - 1)), (i64_small (h - 1)) by nia.
    unfold enc_init.
    rewrite encode_rows_counts.
    + cbn [concat app]. reflexivity.
    + intros x y Hx Hy. split.
      * rewrite Hpx by lia. reflexivity.
      * apply andb_false_iff.
        destruct (Z.eq_dec x (w - 1)) as [-> | Hne]; [right | left]; lia.
    + lia.
    + rewrite !Z2Nat.id by lia. lia.
  - intros Hbig.
    assert (Hhdr : DecodeHeader (header_bytes w h 3 ++ padding)
                   = inr (mkHeader qoiMagic w h 3 0, padding)).
    { rewrite DecodeHeader_header_bytes by (left; reflexivity).
      rewrite (u32_small w), (u32_small h) by nia. reflexivity. }
    unfold QoiImage.Decode. rewrite Hhdr.
    cbn [width height channels colorspace QoiImage.Channels QoiImage.Width
         QoiImage.Height QoiImage.Colorspace].
    rewrite (u32_small (w * h)), (u32_small 3), (u32_small (w * h * 3)) by (lia || nia).
    destruct (decodeBody_pixels padding (repeat 0 (Z.to_nat (w * h * 3))) 3 (i64 (w * 3)))
      as (Hbody & _).
    { left. reflexivity. }
    { rewrite repeat_length. nia. }
    cbv zeta in Hbody. rewrite repeat_length in Hbody.
    replace (Z.of_nat (Z.to_nat (w * h * 3)) / 3) with (w * h) in Hbody
      by (rewrite Z2Nat.id by nia; symmetry; apply Z.div_mul; lia).
    rewrite Hbody.
    replace (Z.to_nat (w * h)) with (9 + (Z.to_nat (w * h) - 9))%nat by lia.
    rewrite decode_pixels_stops by (vm_compute; reflexivity).
    replace (decode_pixels 9 (dec_init padding))
      with (repeat zero_pixel 8, StepEOF) by (vm_compute; reflexivity).
    unfold body_result. cbn [fst snd]. cbv zeta. rewrite repeat_length.
    eexists. split; reflexivity.
Qed.

(** The theorem at the 3x3 black image with bounds (3,0)-(6,3). *)
Lemma image_Encode_offset_bounds_witness :
  QoiImage.Encode
    (QoiImage.mkSource (QoiImage.mkRect 3 0 (3 + 3) (0 + 3))
       (fun _ _ => QoiImage.mkNRGBA 0 0 0 255) None)
    = Returned (inr (header_bytes 3 3 3 ++ padding)) /\
  (8 < 3 * 3 ->
   exists res,
     QoiImage.Decode (header_bytes 3 3 3 ++ padding) = Returned res /\
     QoiImage.error res = Some (ErrUnexpectedEOFAfter 8 (3 * 3))).
Proof.
  apply (image_Encode_offset_bounds
           (QoiImage.mkSource (QoiImage.mkRect 3 0 (3 + 3) (0 + 3))
              (fun _ _ => QoiImage.mkNRGBA 0 0 0 255) None) 3 0 3 3).
  - reflexivity.
  - lia.
  - lia.
  - lia.
  - right. left. lia.
  - reflexivity.
  - intros. reflexivity.
Defined.

(** ** The buffer is only written *)

(** X19.  [Decode] never reads [dest]: for two buffers of the same length it
    returns the same values (byte count, width, height, alpha flag and error),
    leaves the same bytes in the reader, and has stored the same
    [bytesWritten] bytes. *)
Theorem Decode_never_reads_dest : forall (reader dest1 dest2 : list Z),
  length dest1 = length dest2 ->
  exists out1 out2,
    Qoi.Decode reader dest1 = Returned out1 /\
    Qoi.Decode reader dest2 = Returned out2 /\
    Qoi.ret out1 = Qoi.ret out2 /\
    Qoi.reader_after out1 = Qoi.reader_after out2 /\
    firstn (Z.to_nat (Qoi.bytesWritten (Qoi.ret out1))) (Qoi.dest_after out1)
      = firstn (Z.to_nat (Qoi.bytesWritten (Qoi.ret out1))) (Qoi.dest_after out2).
Proof.
  intros reader dest1 dest2 Hlen.
  destruct (DecodeHeader reader) as [e | [header rest]] eqn:Hhdr.
  { eexists _, _.
    split; [unfold Qoi.Decode; rewrite Hhdr; reflexivity|].
    split; [unfold Qoi.Decode; rewrite Hhdr; reflexivity|].
    cbn. auto. }
  destruct (Z.eq_dec (u32 (width header * height header)) 0) as [H0 | Hn0].
  { eexists _, _.
    split; [unfold Qoi.Decode; rewrite Hhdr; cbv zeta; rewrite H0; reflexivity|].
    split; [unfold Qoi.Decode; rewrite Hhdr; cbv zeta; rewrite H0; reflexivity|].
    cbn. auto. }
  pose proof (DecodeHeader_channels _ _ _ Hhdr) as Hc.
  destruct (Z_lt_le_dec (u32 (Z.of_nat (length dest1)) / u32 (channels header))
                        (u32 (width header * height header))) as [Hsmall | Hcap].
  { eexists _, _.
    split; [|split].
    - unfold Qoi.Decode. rewrite Hhdr. cbv zeta.
      replace (u32 (width header * height header) =? 0) with false by lia.
      replace (u32 (width header * height header)
                 >? u32 (Z.of_nat (length dest1)) / u32 (channels header)) with true
        by (symmetry; apply Z.gtb_lt; exact Hsmall).
      reflexivity.
    - unfold Qoi.Decode. rewrite Hhdr. cbv zeta. rewrite <- Hlen.
      replace (u32 (width header * height header) =? 0) with false by lia.
      replace (u32 (width header * height header)
                 >? u32 (Z.of_nat (length dest1)) / u32 (channels header)) with true
        by (symmetry; apply Z.gtb_lt; exact Hsmall).
      reflexivity.
    - cbn. auto. }
  destruct (Decode_body reader dest1 header rest Hhdr Hn0 Hcap) as (Hd1 & Hps & Hfit).
  destruct (Decode_body reader dest2 header rest Hhdr Hn0 ltac:(rewrite <- Hlen; exact Hcap))
    as (Hd2 & _ & _).
  cbv zeta in Hd1, Hd2, Hps, Hfit.
  set (numPixels := u32 (width header * height header)) in *.
  set (dp := decode_pixels (Z.to_nat numPixels) (dec_init rest)) in *.
  eexists _, _. split; [exact Hd1|]. split; [exact Hd2|].
  pose proof (Z.mod_le (Z.of_nat (length dest1)) (2 ^ 32) ltac:(lia) ltac:(lia)) as Hle.
  fold (u32 (Z.of_nat (length dest1))) in Hle.
  pose proof (u32_range (Z.of_nat (length dest1))) as Hld.
  assert (Hcu : u32 (channels header) = channels header) by (apply u32_small; lia).
  assert (Hbw : u32 ((0 + Z.of_nat (length (fst dp))) * u32 (channels header))
                = Z.of_nat (length (fst dp) * Z.to_nat (channels header))).
  { rewrite Hcu, u32_small; nia. }
  destruct (stored_prefix (channels header) (fst dp) dest1 ltac:(lia) ltac:(nia))
    as (_ & _ & Hf1).
  destruct (stored_prefix (channels header) (fst dp) dest2 ltac:(lia) ltac:(nia))
    as (_ & _ & Hf2).
  unfold loop_result. cbv zeta.
  destruct (snd dp) as [| e | st']; cbn [Qoi.ret Qoi.reader_after Qoi.dest_after
    Qoi.bytesWritten Qoi.fail app];
    rewrite Hbw, Nat2Z.id, Hf1, Hf2; auto.
Qed.

(** The theorem at a 1x1 stream and two 3-byte buffers. *)
Lemma Decode_never_reads_dest_witness :
  exists out1 out2,
    Qoi.Decode black_1x1 [1; 2; 3] = Returned out1 /\
    Qoi.Decode black_1x1 [4; 5; 6] = Returned out2 /\
    Qoi.ret out1 = Qoi.ret out2 /\
    Qoi.reader_after out1 = Qoi.reader_after out2 /\
    firstn (Z.to_nat (Qoi.bytesWritten (Qoi.ret out1))) (Qoi.dest_after out1)
      = firstn (Z.to_nat (Qoi.bytesWritten (Qoi.ret out1))) (Qoi.dest_after out2).
Proof.
  apply (Decode_never_reads_dest black_1x1 [1; 2; 3] [4; 5; 6]).
  reflexivity.
Defined.

(** * The older codec *)

(** ** Its decoder *)

Lemma legacy_copy_px px pixels :
  (4 <= length pixels)%nat ->
  copy_px 4 px pixels = Some (px_bytes px, skipn 4 pixels).
Proof.
  intros H. unfold copy_px. change (Z.to_nat 4) with 4%nat. cbv zeta.
  replace (length pixels <? 4)%nat with false by (symmetry; apply Nat.ltb_ge; exact H).
  reflexivity.
Qed.

(** The loop never panics: it returns the image, whose [Pix] keeps its
    length, or a reader's error. *)
Lemma legacy_decode_loop_total img : forall fuel st written pixels k,
  length pixels = (4 * k)%nat ->
  exists res,
    Legacy.decode_loop img fuel st written pixels = Returned res /\
    ((exists e, res = (None, Some (Legacy.ErrRead e))) \/
     (exists pix, res = (Some (Legacy.mkRGBA pix (Legacy.Stride img) (Legacy.Rect img)), None) /\
                  length pix = (length written + length pixels)%nat)).
Proof.
  induction fuel as [| fuel IH]; intros st written pixels k Hk.
  - eexists. split; [reflexivity|]. right. eexists. split; [reflexivity|].
    apply length_app.
  - cbn [Legacy.decode_loop].
    destruct pixels as [| p0 pixels'] eqn:Hp.
    { eexists. split; [reflexivity|]. right. eexists. split; [reflexivity|].
      apply length_app. }
    rewrite <- Hp in *. cbn [is_nil]. replace (is_nil pixels) with false by (subst; reflexivity).
    destruct (Legacy.decode_step st) as [| e | st'].
    + eexists. split; [reflexivity|]. right. eexists. split; [reflexivity|].
      apply length_app.
    + eexists. split; [reflexivity|]. left. eexists. reflexivity.
    + assert (Hlen : (4 <= length pixels)%nat).
      { destruct k; [subst; cbn in Hk; lia | lia]. }
      rewrite legacy_copy_px by exact Hlen.
      destruct (IH st' (written ++ px_bytes (d_px st')) (skipn 4 pixels) (k - 1)%nat)
        as (res & Hres & Hshape).
      { rewrite length_skipn. lia. }
      exists res. split; [exact Hres|].
      destruct Hshape as [He | (pix & -> & Hpix)]; [left; exact He|].
      right. eexists. split; [reflexivity|].
      rewrite Hpix, length_app, length_skipn. cbn [px_bytes length]. lia.
Qed.

Lemma read_le16 b0 b1 rest :
  0 <= b0 < 256 ->
  Legacy.read_le_ignoring 2 (b0 :: b1 :: rest) = (b0 + 256 * b1, rest).
Proof.
  intros Hb. unfold Legacy.read_le_ignoring, ReadFull.
  cbn [length Nat.ltb Nat.leb firstn skipn fold_right].
  rewrite Z.shiftl_0_l, Z.lor_0_r.
  rewrite lor_shiftl_add by lia. f_equal. lia.
Qed.

(** X20.  The older [Decode] never panics.  It returns either an image with
    a nil error or a nil image with an error, and the error is "bad header"
    exactly when the stream has four bytes that are not the magic.  The image
    it returns has the rectangle [image.Rect(0, 0, width, height)] for the
    width and the height read from the header (two bytes each, little
    endian, after the magic; 0 when they could not be read), stride [4 * Dx]
    and [4 * Dx * Dy] bytes: with the four header bytes [w0 w1 h0 h1] it is
    the image (0,0)-(w0 + 256*w1, h0 + 256*h1), with 4 bytes a pixel. *)
Theorem legacy_Decode_total : forall (r : list Z),
  exists res,
    Legacy.Decode r = Returned res /\
    (fst res = None <-> snd res <> None) /\
    (snd res = Some Legacy.ErrBadHeader <->
     (4 <= length r)%nat /\ firstn 4 r <> qoiMagic) /\
    (forall img, fst res = Some img ->
       let width := fst (Legacy.read_le_ignoring 2 (skipn 4 r)) in
       let height :=
         fst (Legacy.read_le_ignoring 2 (snd (Legacy.read_le_ignoring 2 (skipn 4 r)))) in
       let dx := QoiImage.MaxX (Legacy.Rect img) - QoiImage.MinX (Legacy.Rect img) in
       let dy := QoiImage.MaxY (Legacy.Rect img) - QoiImage.MinY (Legacy.Rect img) in
       Legacy.Rect img = image_Rect 0 0 width height /\
       0 <= dx /\ 0 <= dy /\
       Legacy.Stride img = 4 * dx /\
       Z.of_nat (length (Legacy.Pix img)) = 4 * dx * dy) /\
    (forall img w0 w1 h0 h1 rest,
       fst res = Some img ->
       skipn 4 r = w0 :: w1 :: h0 :: h1 :: rest ->
       is_byte w0 -> is_byte w1 -> is_byte h0 -> is_byte h1 ->
       Legacy.Rect img = QoiImage.mkRect 0 0 (w0 + 256 * w1) (h0 + 256 * h1) /\
       Legacy.Stride img = 4 * (w0 + 256 * w1) /\
       Z.of_nat (length (Legacy.Pix img)) = 4 * (w0 + 256 * w1) * (h0 + 256 * h1)).
Proof.
  intros r. unfold Legacy.Decode.
  destruct (ReadFull 4 r) as [e | [header r1]] eqn:Hrd.
  { eexists. split; [reflexivity|]. cbn [fst snd].
    assert (Hshort : (length r < 4)%nat).
    { unfold ReadFull in Hrd. destruct (length r <? 4)%nat eqn:E; [|discriminate].
      apply Nat.ltb_lt. exact E. }
    split; [split; [discriminate | reflexivity]|].
    split; [|split; discriminate].
    split; [intros H; destruct r; discriminate | intros [H _]; lia]. }
  assert (Hlong : (4 <= length r)%nat /\ header = firstn 4 r /\ r1 = skipn 4 r).
  { unfold ReadFull in Hrd. destruct (length r <? 4)%nat eqn:E.
    - destruct r; discriminate.
    - apply Nat.ltb_ge in E. split; [exact E|]. split; congruence. }
  destruct Hlong as (Hlen & -> & ->).
  destruct (list_eqb (firstn 4 r) qoiMagic) eqn:Hmagic; cbn [negb].
  2:{ eexists. split; [reflexivity|]. cbn [fst snd].
      split; [split; [discriminate | reflexivity]|].
      split; [|split; discriminate].
      split; [|reflexivity]. intros _. split; [exact Hlen|].
      intros Heq. unfold list_eqb in Hmagic.
      destruct (list_eq_dec Z.eq_dec (firstn 4 r) qoiMagic); [discriminate | contradiction]. }
  assert (Hm : firstn 4 r = qoiMagic).
  { unfold list_eqb in Hmagic.
    destruct (list_eq_dec Z.eq_dec (firstn 4 r) qoiMagic); [assumption | discriminate]. }
  destruct (Legacy.read_le_ignoring 2 (skipn 4 r)) as [width r2] eqn:Ew.
  cbn [fst snd].
  destruct (Legacy.read_le_ignoring 2 r2) as [height r3] eqn:Eh.
  destruct (Legacy.read_le_ignoring 4 r3) as [size r4].
  cbn [fst snd].
  set (rect := image_Rect 0 0 width height).
  assert (Hrect : 0 <= QoiImage.MaxX rect - QoiImage.MinX rect /\
                  0 <= QoiImage.MaxY rect - QoiImage.MinY rect).
  { subst rect. unfold image_Rect.
    destruct (0 >? width) eqn:Ew', (0 >? height) eqn:Eh'; cbn; lia. }
  set (dx := QoiImage.MaxX rect - QoiImage.MinX rect) in *.
  set (dy := QoiImage.MaxY rect - QoiImage.MinY rect) in *.
  assert (Hpix : length (Legacy.Pix (Legacy.NewRGBA rect)) = (4 * Z.to_nat (dx * dy))%nat).
  { unfold Legacy.NewRGBA. cbn [Legacy.Pix]. rewrite repeat_length. fold dx dy. nia. }
  destruct (legacy_decode_loop_total (Legacy.NewRGBA rect)
              (length (Legacy.Pix (Legacy.NewRGBA rect))) (dec_init r4) []
              (Legacy.Pix (Legacy.NewRGBA rect)) _ Hpix) as (res & Hres & Hshape).
  exists res. split; [exact Hres|].
  destruct Hshape as [(e & ->) | (pix & -> & Hlenpix)]; cbn [fst snd].
  - split; [split; [discriminate | reflexivity]|].
    split; [|split; discriminate].
    split; [discriminate | intros [_ H]; contradiction].
  - split; [split; [discriminate | intros H; contradiction]|].
    split; [split; [discriminate | intros [_ H]; contradiction]|].
    assert (Hsize : Z.of_nat (length pix) = 4 * dx * dy)
      by (rewrite Hlenpix, Hpix; cbn [length]; nia).
    split.
    + intros img Himg. injection Himg as <-.
      cbn [Legacy.Rect Legacy.Stride Legacy.Pix Legacy.NewRGBA]. fold dx dy.
      cbv zeta.
      split; [reflexivity|].
      split; [apply Hrect|]. split; [apply Hrect|]. split; [reflexivity|].
      exact Hsize.
    + intros img w0 w1 h0 h1 rest Himg Hskip Hw0 Hw1 Hh0 Hh1.
      injection Himg as <-.
      unfold is_byte in Hw0, Hw1, Hh0, Hh1.
      rewrite Hskip, read_le16 in Ew by lia.
      assert (Hwv : width = w0 + 256 * w1 /\ r2 = h0 :: h1 :: rest)
        by (split; congruence).
      destruct Hwv as [Hwv ->].
      rewrite read_le16 in Eh by lia.
      assert (Hhv : height = h0 + 256 * h1) by congruence.
      assert (Hr : rect = QoiImage.mkRect 0 0 (w0 + 256 * w1) (h0 + 256 * h1)).
      { unfold rect, image_Rect. rewrite Hwv, Hhv.
        replace (0 >? w0 + 256 * w1) with false by lia.
        replace (0 >? h0 + 256 * h1) with false by lia. reflexivity. }
      unfold Legacy.NewRGBA. cbv zeta.
      cbn [Legacy.Rect Legacy.Stride Legacy.Pix].
      rewrite Hsize. unfold dx, dy. rewrite Hr.
      cbn [QoiImage.MaxX QoiImage.MinX QoiImage.MaxY QoiImage.MinY].
      rewrite !Z.sub_0_r. repeat split; reflexivity.
Qed.

Lemma read_le_ignoring_drains tail :
  (length tail <= 4)%nat -> snd (Legacy.read_le_ignoring 4 tail) = [].
Proof.
  intros H. unfold Legacy.read_le_ignoring, ReadFull.
  destruct (length tail <? 4)%nat eqn:E; [destruct tail; reflexivity|].
  apply Nat.ltb_ge in E. cbn [snd].
  apply skipn_all2. lia.
Qed.

(** X21.  The older [Decode] takes the end of the stream where a chunk
    should start for the end of the image: a stream that stops after the
    width and height (with all, part or nothing of the size field) is decoded
    without error into an image of the announced size whose bytes are all 0. *)
Theorem legacy_Decode_without_chunks : forall (w0 w1 h0 h1 : Z) (tail : list Z),
  is_byte w0 -> is_byte w1 -> is_byte h0 -> is_byte h1 ->
  (length tail <= 4)%nat ->
  let w := w0 + 256 * w1 in
  let h := h0 + 256 * h1 in
  Legacy.Decode (qoiMagic ++ [w0; w1; h0; h1] ++ tail) =
    Returned (Some (Legacy.mkRGBA (repeat 0 (Z.to_nat (4 * w * h))) (4 * w)
                                  (QoiImage.mkRect 0 0 w h)),
              None).
Proof.
  intros w0 w1 h0 h1 tail Hw0 Hw1 Hh0 Hh1 Htail w h. unfold is_byte in *.
  unfold Legacy.Decode.
  change (ReadFull 4 (qoiMagic ++ [w0; w1; h0; h1] ++ tail))
    with (@inr io_error _ (qoiMagic, w0 :: w1 :: h0 :: h1 :: tail)).
  change (negb (list_eqb qoiMagic qoiMagic)) with false. cbv iota.
  rewrite read_le16 by lia. rewrite read_le16 by lia. fold w h.
  pose proof (read_le_ignoring_drains tail Htail) as Hr4.
  destruct (Legacy.read_le_ignoring 4 tail) as [size r4]. cbn [snd] in Hr4. subst r4.
  assert (Hrect : image_Rect 0 0 w h = QoiImage.mkRect 0 0 w h).
  { unfold image_Rect. replace (0 >? w) with false by lia.
    replace (0 >? h) with false by lia. reflexivity. }
  rewrite Hrect. unfold Legacy.NewRGBA.
  cbn [QoiImage.MinX QoiImage.MinY QoiImage.MaxX QoiImage.MaxY Legacy.Pix].
  rewrite !Z.sub_0_r.
  set (pix := repeat 0 (Z.to_nat (4 * w * h))).
  destruct (length pix) as [| fuel]; cbn [Legacy.decode_loop].
  - reflexivity.
  - destruct (is_nil pix); reflexivity.
Qed.

(** The theorem at a 2x1 header with no size field. *)
Lemma legacy_Decode_without_chunks_witness :
  Legacy.Decode (qoiMagic ++ [2; 0; 1; 0] ++ []) =
    Returned (Some (Legacy.mkRGBA (repeat 0 (Z.to_nat (4 * (2 + 256 * 0) * (1 + 256 * 0))))
                                  (4 * (2 + 256 * 0))
                                  (QoiImage.mkRect 0 0 (2 + 256 * 0) (1 + 256 * 0))),
              None).
Proof.
  apply (legacy_Decode_without_chunks 2 0 1 0 []); unfold is_byte; cbn; lia.
Defined.

(** ** Its encoder *)

Lemma legacy_encode_row_some m maxX maxY y : forall cols x st out,
  (forall x', x <= x' < x + Z.of_nat cols -> Legacy.At m x' y <> None) ->
  exists st' bytes,
    Legacy.encode_row m maxX maxY cols x y st out = Some (st', out ++ bytes).
Proof.
  induction cols as [| cols IH]; intros x st out Hat.
  - exists st, []. cbn. rewrite app_nil_r. reflexivity.
  - cbn [Legacy.encode_row].
    destruct (Legacy.At m x y) as [px |] eqn:E; [| exfalso; apply (Hat x); [lia | exact E]].
    destruct (Legacy.encode_pixel st px _) as [bytes st1].
    destruct (IH (x + 1) st1 (out ++ bytes)) as (st' & bytes' & H).
    { intros x' Hx'. apply Hat. lia. }
    exists st', (bytes ++ bytes'). rewrite H, app_assoc. reflexivity.
Qed.

Lemma legacy_encode_rows_some m maxX maxY x0 cols : forall rows y st out,
  (forall x' y', x0 <= x' < x0 + Z.of_nat cols -> y <= y' < y + Z.of_nat rows ->
                 Legacy.At m x' y' <> None) ->
  exists st' bytes,
    Legacy.encode_rows m maxX maxY rows y x0 cols st out = Some (st', out ++ bytes).
Proof.
  induction rows as [| rows IH]; intros y st out Hat.
  - exists st, []. cbn. rewrite app_nil_r. reflexivity.
  - cbn [Legacy.encode_rows].
    destruct (legacy_encode_row_some m maxX maxY y cols x0 st out) as (st1 & b1 & H1).
    { intros x' Hx'. apply Hat; lia. }
    rewrite H1.
    destruct (IH (y + 1) st1 (out ++ b1)) as (st' & b2 & H2).
    { intros x' y' Hx' Hy'. apply Hat; lia. }
    exists st', (b1 ++ b2). rewrite H2, app_assoc. reflexivity.
Qed.

(** X22.  The older [Encode] never returns an error.  For an image whose
    pixels inside the bounds are [color.RGBA] values it returns the magic, the
    width and the height of the bounds modulo 2^16 in little-endian order, a
    size field whose first two bytes hold the number of chunk bytes plus 4,
    modulo 2^16, and whose other two bytes are 0, the chunks, and four 0
    bytes.  For an image whose first pixel is of another colour type (an NRGBA
    image, say) it panics. *)
Theorem legacy_Encode_outcome : forall (m : Legacy.source),
  let w := QoiImage.MaxX (Legacy.Bounds m) - QoiImage.MinX (Legacy.Bounds m) in
  let h := QoiImage.MaxY (Legacy.Bounds m) - QoiImage.MinY (Legacy.Bounds m) in
  0 <= w -> 0 <= h -> w * h < 2 ^ 63 ->
  ((forall x y,
      QoiImage.MinX (Legacy.Bounds m) <= x < QoiImage.MaxX (Legacy.Bounds m) ->
      QoiImage.MinY (Legacy.Bounds m) <= y < QoiImage.MaxY (Legacy.Bounds m) ->
      Legacy.At m x y <> None) ->
   exists chunks,
     Legacy.Encode m =
       Returned (qoiMagic ++ Legacy.le_put_uint16 (Legacy.u16 w)
                          ++ Legacy.le_put_uint16 (Legacy.u16 h)
                          ++ Legacy.le_put_uint16
                               (Legacy.u16 (Z.of_nat (length chunks) + 4))
                          ++ [0; 0] ++ chunks ++ [0; 0; 0; 0])) /\
  (1 <= w -> 1 <= h ->
   Legacy.At m (QoiImage.MinX (Legacy.Bounds m)) (QoiImage.MinY (Legacy.Bounds m)) = None ->
   Legacy.Encode m = Panicked).
Proof.
  intros m w h Hw Hh Hwh.
  assert (Hw63 : w < 2 ^ 63 \/ h = 0) by nia.
  assert (Hh63 : h < 2 ^ 63 \/ w = 0) by nia.
  assert (Hgrow : (Z.quot (i64 (i64 w * i64 h)) 2 <? 0) = false).
  { apply Z.ltb_ge.
    assert (Hp : i64 (i64 w * i64 h) = w * h \/ i64 (i64 w * i64 h) = 0).
    { destruct (Z.eq_dec h 0) as [-> | Hh0].
      - right. change (i64 0) with 0. rewrite Z.mul_0_r. reflexivity.
      - destruct (Z.eq_dec w 0) as [-> | Hw0].
        + right. change (i64 0) with 0. rewrite Z.mul_0_l. reflexivity.
        + left. rewrite (i64_small w), (i64_small h) by lia. apply i64_small. lia. }
    destruct Hp as [-> | ->].
    - apply Z.quot_pos; lia.
    - cbn. lia. }
  split.
  - intros Hat. unfold Legacy.Encode. cbv zeta. fold w h. rewrite Hgrow.
    set (header := qoiMagic ++ Legacy.le_put_uint16 (Legacy.u16 w)
                     ++ Legacy.le_put_uint16 (Legacy.u16 h) ++ Legacy.le_put_uint32 0).
    destruct (legacy_encode_rows_some m (QoiImage.MaxX (Legacy.Bounds m))
                (QoiImage.MaxY (Legacy.Bounds m)) (QoiImage.MinX (Legacy.Bounds m))
                (Z.to_nat w) (Z.to_nat h) (QoiImage.MinY (Legacy.Bounds m))
                enc_init header) as (st' & chunks & Hrows).
    { intros x y Hx Hy. apply Hat; lia. }
    rewrite Hrows. exists chunks. f_equal.
    unfold Legacy.fix_size.
    rewrite !length_app. subst header.
    cbn [qoiMagic Legacy.le_put_uint16 Legacy.le_put_uint32 app length firstn skipn].
    replace (Z.of_nat (12 + length chunks + 4) - 12) with (Z.of_nat (length chunks) + 4)
      by lia.
    reflexivity.
  - intros Hw1 Hh1 Hnone. unfold Legacy.Encode. cbv zeta. fold w h. rewrite Hgrow.
    destruct (Z.to_nat h) as [| rows] eqn:Er; [lia|].
    destruct (Z.to_nat w) as [| cols] eqn:Ec; [lia|].
    cbn [Legacy.encode_rows Legacy.encode_row]. rewrite Hnone. reflexivity.
Qed.

(** The theorem at a 1x1 image with one RGBA pixel. *)
Lemma legacy_Encode_outcome_witness :
  exists chunks,
    Legacy.Encode (Legacy.mkSource (QoiImage.mkRect 0 0 1 1)
                                   (fun _ _ => Some (mkpx 9 9 9 255))) =
      Returned (qoiMagic ++ Legacy.le_put_uint16 (Legacy.u16 (1 - 0))
                         ++ Legacy.le_put_uint16 (Legacy.u16 (1 - 0))
                         ++ Legacy.le_put_uint16
                              (Legacy.u16 (Z.of_nat (length chunks) + 4))
                         ++ [0; 0] ++ chunks ++ [0; 0; 0; 0]).
Proof.
  destruct (legacy_Encode_outcome
              (Legacy.mkSource (QoiImage.mkRect 0 0 1 1)
                               (fun _ _ => Some (mkpx 9 9 9 255)))) as [H _].
  - cbn. lia.
  - cbn. lia.
  - cbn. lia.
  - apply H. intros x y _ _. discriminate.
Defined.

(** ** What the older codec loses *)

Lemma RGBA16_mul v : 0 <= v < 256 -> Legacy.RGBA16 v = 257 * v.
Proof.
  intros H. unfold Legacy.RGBA16. rewrite lor_shiftl_add by lia. lia.
Qed.

(** The encoder's channel difference [(int(px_r) - int(px_prev_r)) >> 8] is
    the difference of the two bytes when the channel does not decrease, and
    one less when it does. *)
Lemma legacy_channel_difference v v' :
  is_byte v -> is_byte v' ->
  Z.shiftr (Legacy.RGBA16 v - Legacy.RGBA16 v') 8 =
    if v' <=? v then v - v' else v - v' - 1.
Proof.
  unfold is_byte. intros Hv Hv'.
  rewrite !RGBA16_mul by lia. rewrite Z.shiftr_div_pow2 by lia.
  change (2 ^ 8) with 256.
  destruct (v' <=? v) eqn:E.
  - apply Z.leb_le in E. symmetry. apply (Z.div_unique _ _ _ (v - v')); lia.
  - apply Z.leb_gt in E. symmetry. apply (Z.div_unique _ _ _ (256 + (v - v'))); lia.
Qed.

Lemma legacy_roundtrip_is_true src pix :
  legacy_roundtrip_is src pix = true ->
  exists stream img,
    Legacy.Encode src = Returned stream /\
    Legacy.Decode stream = Returned (Some img, None) /\
    Legacy.Pix img = pix.
Proof.
  unfold legacy_roundtrip_is.
  destruct (Legacy.Encode src) as [stream |] eqn:Henc; [|discriminate].
  destruct (Legacy.Decode stream) as [[[img |] [e |]] |] eqn:Hdec; try discriminate.
  intros H. exists stream, img.
  split; [reflexivity|]. split; [exact Hdec|].
  unfold list_eqb in H.
  destruct (list_eq_dec Z.eq_dec (Legacy.Pix img) pix) as [Heq | Hne];
    [exact Heq | discriminate].
Qed.

(** X23.  The older codec is not lossless.  Its encoder takes the difference
    of two channels as [(int(px_r) - int(px_prev_r)) >> 8] on the 16-bit
    values of [RGBA()], which is the difference of the bytes when the channel
    does not decrease and one less when it does; a difference chunk then
    restores a byte that is off by one.  For every 1x1 image whose pixel is
    (v, v, v, a) with [0 <= v <= 16] and [240 < a < 255], encoding and
    decoding return, without error, the pixel (v, v, v, a - 1). *)
Theorem legacy_alpha_off_by_one :
  (forall v v', is_byte v -> is_byte v' ->
     Z.shiftr (Legacy.RGBA16 v - Legacy.RGBA16 v') 8 =
       if v' <=? v then v - v' else v - v' - 1) /\
  (forall v a, 0 <= v <= 16 -> 240 < a < 255 ->
     exists stream img,
       Legacy.Encode (legacy_single (mkpx v v v a)) = Returned stream /\
       Legacy.Decode stream = Returned (Some img, None) /\
       Legacy.Pix img = [v; v; v; a - 1]).
Proof.
  split; [exact legacy_channel_difference|].
  intros v a Hv Ha.
  apply legacy_roundtrip_is_true.
  assert (Hall : alpha_loss_check = true) by (vm_compute; reflexivity).
  unfold alpha_loss_check in Hall.
  pose proof (forall_range_spec _ _ _ Hall v ltac:(lia)) as Hv'.
  cbv beta in Hv'.
  exact (forall_range_spec _ _ _ Hv' a ltac:(lia)).
Qed.

(** The theorem at the pixel (3, 3, 3, 250): it comes back with alpha 249. *)
Lemma legacy_alpha_off_by_one_witness :
  exists stream img,
    Legacy.Encode (legacy_single (mkpx 3 3 3 250)) = Returned stream /\
    Legacy.Decode stream = Returned (Some img, None) /\
    Legacy.Pix img = [3; 3; 3; 250 - 1].
Proof.
  destruct legacy_alpha_off_by_one as [_ H].
  apply (H 3 250); lia.
Defined.

(** ** Runs in the older codec *)

Lemma legacy_encode_row_app m maxX maxY y : forall a b x st out,
  Legacy.encode_row m maxX maxY (a + b) x y st out =
    match Legacy.encode_row m maxX maxY a x y st out with
    | None => None
    | Some (st', out') => Legacy.encode_row m maxX maxY b (x + Z.of_nat a) y st' out'
    end.
Proof.
  induction a as [| a IH]; intros b x st out.
  - cbn. rewrite Z.add_0_r. reflexivity.
  - cbn [Nat.add Legacy.encode_row].
    destruct (Legacy.At m x y) as [px |]; [|reflexivity].
    destruct (Legacy.encode_pixel st px _) as [bytes st1].
    rewrite IH. replace (x + 1 + Z.of_nat a) with (x + Z.of_nat (S a)) by lia.
    reflexivity.
Qed.

Lemma legacy_encode_rows_app m maxX maxY x0 cols : forall a b y st out,
  Legacy.encode_rows m maxX maxY (a + b) y x0 cols st out =
    match Legacy.encode_rows m maxX maxY a y x0 cols st out with
    | None => None
    | Some (st', out') => Legacy.encode_rows m maxX maxY b (y + Z.of_nat a) x0 cols st' out'
    end.
Proof.
  induction a as [| a IH]; intros b y st out.
  - cbn. rewrite Z.add_0_r. reflexivity.
  - cbn [Nat.add Legacy.encode_rows].
    destruct (Legacy.encode_row m maxX maxY cols x0 y st out) as [[st1 out1] |];
      [|reflexivity].
    rewrite IH. replace (y + 1 + Z.of_nat a) with (y + Z.of_nat (S a)) by lia.
    reflexivity.
Qed.

(** A pixel equal to the previous one, not the last of the image, with the
    run below its ceiling: the run is counted and nothing is written. *)
Lemma legacy_encode_pixel_count idx r :
  0 <= r -> r + 1 < 8224 ->
  Legacy.encode_pixel (mkEnc idx start_pixel r) start_pixel false =
    ([], mkEnc idx start_pixel (r + 1)).
Proof.
  intros Hr Hlt. unfold Legacy.encode_pixel. cbn [e_prev e_run e_index].
  rewrite pixel_eqb_refl. cbv zeta. cbn [negb orb].
  replace (r + 1 =? 8224) with false by lia.
  rewrite andb_false_r. reflexivity.
Qed.

(** The last pixel of the image flushes the run. *)
Lemma legacy_encode_pixel_last idx r :
  0 <= r ->
  Legacy.encode_pixel (mkEnc idx start_pixel r) start_pixel true =
    (Legacy.run_chunk (r + 1), mkEnc idx start_pixel 0).
Proof.
  intros Hr. unfold Legacy.encode_pixel. cbn [e_prev e_run e_index].
  rewrite pixel_eqb_refl. cbv zeta. cbn [negb].
  replace (r + 1 >? 0) with true by (symmetry; apply Z.gtb_lt; lia).
  rewrite orb_true_r. reflexivity.
Qed.

Lemma legacy_encode_row_counts m maxX maxY y : forall cols x idx r out,
  (forall x', x <= x' < x + Z.of_nat cols ->
     Legacy.At m x' y = Some start_pixel /\
     (x' =? i64 (maxX - 1)) && (y =? i64 (maxY - 1)) = false) ->
  0 <= r -> r + Z.of_nat cols < 8224 ->
  Legacy.encode_row m maxX maxY cols x y (mkEnc idx start_pixel r) out =
    Some (mkEnc idx start_pixel (r + Z.of_nat cols), out).
Proof.
  induction cols as [| cols IH]; intros x idx r out Hpx Hr Hlt.
  - cbn. rewrite Z.add_0_r. reflexivity.
  - cbn [Legacy.encode_row].
    destruct (Hpx x ltac:(lia)) as [Hf Hl]. rewrite Hf, Hl.
    rewrite legacy_encode_pixel_count by lia.
    rewrite app_nil_r, IH; [| intros x' Hx'; apply Hpx; lia | lia | lia].
    do 3 f_equal. lia.
Qed.

Lemma legacy_encode_rows_counts m maxX maxY x0 cols : forall rows y idx r out,
  (forall x' y', x0 <= x' < x0 + Z.of_nat cols -> y <= y' < y + Z.of_nat rows ->
     Legacy.At m x' y' = Some start_pixel /\
     (x' =? i64 (maxX - 1)) && (y' =? i64 (maxY - 1)) = false) ->
  0 <= r -> r + Z.of_nat rows * Z.of_nat cols < 8224 ->
  Legacy.encode_rows m maxX maxY rows y x0 cols (mkEnc idx start_pixel r) out =
    Some (mkEnc idx start_pixel (r + Z.of_nat rows * Z.of_nat cols), out).
Proof.
  induction rows as [| rows IH]; intros y idx r out Hpx Hr Hlt.
  - cbn. rewrite Z.add_0_r. reflexivity.
  - cbn [Legacy.encode_rows].
    rewrite legacy_encode_row_counts; [| intros x' Hx'; apply Hpx; lia | lia | nia].
    rewrite IH; [| intros x' y' Hx' Hy'; apply Hpx; lia | lia | nia].
    do 3 f_equal. nia.
Qed.

(** What [fix_size] makes of the buffer. *)
Lemma legacy_fix_size a b chunks :
  Legacy.fix_size
    ((qoiMagic ++ Legacy.le_put_uint16 a ++ Legacy.le_put_uint16 b ++ Legacy.le_put_uint32 0)
       ++ chunks ++ Legacy.le_put_uint32 0) =
    qoiMagic ++ Legacy.le_put_uint16 a ++ Legacy.le_put_uint16 b
      ++ (Legacy.le_put_uint16 (Legacy.u16 (Z.of_nat (length chunks) + 4)) ++ [0; 0])
      ++ chunks ++ [0; 0; 0; 0].
Proof.
  unfold Legacy.fix_size.
  match goal with
  | |- context [Z.of_nat (length ?l) - 12] =>
      replace (Z.of_nat (length l) - 12) with (Z.of_nat (length chunks) + 4)
        by (rewrite !length_app; cbn [qoiMagic Legacy.le_put_uint16 Legacy.le_put_uint32
                                       length]; lia)
  end.
  reflexivity.
Qed.

(** The stream of an image of [w * h <= 8224] pixels that all equal the
    encoder's start colour (0,0,0,255): one run chunk. *)
Lemma legacy_Encode_uniform m w h :
  Legacy.Bounds m = QoiImage.mkRect 0 0 w h ->
  1 <= w -> 1 <= h -> w * h <= 8224 ->
  (forall x y, 0 <= x < w -> 0 <= y < h -> Legacy.At m x y = Some start_pixel) ->
  Legacy.Encode m =
    Returned (qoiMagic ++ Legacy.le_put_uint16 (Legacy.u16 w)
                       ++ Legacy.le_put_uint16 (Legacy.u16 h)
                       ++ (Legacy.le_put_uint16
                             (Legacy.u16 (Z.of_nat (length (Legacy.run_chunk (w * h))) + 4))
                           ++ [0; 0])
                       ++ Legacy.run_chunk (w * h) ++ [0; 0; 0; 0]).
Proof.
  intros Hb Hw Hh Hn Hpx. unfold Legacy.Encode. rewrite Hb. cbv zeta.
  cbn [QoiImage.MinX QoiImage.MinY QoiImage.MaxX QoiImage.MaxY].
  rewrite !Z.sub_0_r.
  rewrite (i64_small w), (i64_small h), (i64_small (w * h)) by nia.
  replace (Z.quot (w * h) 2 <? 0) with false
    by (symmetry; apply Z.ltb_ge; apply Z.quot_pos; nia).
  set (header := qoiMagic ++ Legacy.le_put_uint16 (Legacy.u16 w)
                   ++ Legacy.le_put_uint16 (Legacy.u16 h) ++ Legacy.le_put_uint32 0).
  (* all rows but the last, then the last row but its last pixel, then that pixel *)
  replace (Z.to_nat h) with (Z.to_nat (h - 1) + 1)%nat by lia.
  rewrite legacy_encode_rows_app.
  unfold enc_init.
  rewrite legacy_encode_rows_counts.
  2:{ intros x y Hx Hy. split; [apply Hpx; lia|].
      rewrite (i64_small (h - 1)) by nia.
      apply andb_false_iff. right. lia. }
  2:{ lia. }
  2:{ rewrite !Z2Nat.id by lia. nia. }
  cbn [Legacy.encode_rows].
  replace (Z.to_nat w) with (Z.to_nat (w - 1) + 1)%nat by lia.
  rewrite legacy_encode_row_app.
  rewrite legacy_encode_row_counts.
  2:{ intros x Hx. split; [apply Hpx; lia|].
      rewrite (i64_small (w - 1)) by nia.
      apply andb_false_iff. left. lia. }
  2:{ rewrite !Z2Nat.id by lia. nia. }
  2:{ rewrite !Z2Nat.id by lia. nia. }
  cbn [Legacy.encode_row].
  rewrite Hpx by lia.
  rewrite (i64_small (w - 1)), (i64_small (h - 1)) by nia.
  replace (0 + Z.of_nat (Z.to_nat (w - 1)) =? w - 1) with true
    by (symmetry; apply Z.eqb_eq; lia).
  replace (0 + Z.of_nat (Z.to_nat (h - 1)) =? h - 1) with true
    by (symmetry; apply Z.eqb_eq; lia).
  cbn [andb].
  rewrite legacy_encode_pixel_last
    by (rewrite ?Nat2Z.inj_add, !Z2Nat.id by lia; nia).
  match goal with
  | |- context [Legacy.run_chunk ?e] =>
      replace e with (w * h) by (rewrite ?Nat2Z.inj_add, !Z2Nat.id by lia; nia)
  end.
  cbn [Legacy.encode_row Legacy.encode_rows].
  rewrite <- app_assoc.
  f_equal. subst header. apply legacy_fix_size.
Qed.

(** The decoder on a run chunk: of the two bytes of a long run only the
    second counts, its first byte's [(b1 & 0x1f) << 8] being 0 in a [byte]. *)
Lemma legacy_decode_run_chunk n t idx px :
  1 <= n <= 8224 ->
  Legacy.decode_step (mkDec (Legacy.run_chunk n ++ t) idx px 0) =
    StepOk (mkDec t
              (index_set idx
                 (Legacy.QOI_COLOR_HASH (px0 px) (px1 px) (px2 px) (px3 px) mod 64) px)
              px ((n - 1) mod 256)).
Proof.
  intros Hn. unfold Legacy.decode_step. cbn [d_run d_rd d_index d_px].
  change (0 >? 0) with false. cbv iota.
  unfold Legacy.run_chunk.
  destruct (n <? 33) eqn:E.
  - apply Z.ltb_lt in E.
    assert (Hc : forall_range 0 32 (fun k =>
              negb (Z.land (Z.lor 64 (u8 k)) 192 =? 0)
              && (Z.land (Z.lor 64 (u8 k)) 224 =? 64)
              && (Z.land (Z.lor 64 (u8 k)) 31 =? k)) = true)
      by (vm_compute; reflexivity).
    pose proof (forall_range_spec _ _ _ Hc (n - 1) ltac:(lia)) as Hk. cbv beta in Hk.
    apply andb_true_iff in Hk as [Hk H3]. apply andb_true_iff in Hk as [H1 H2].
    apply negb_true_iff in H1. apply Z.eqb_eq in H3.
    cbn [app Legacy.ReadByte]. unfold Legacy.dispatch.
    change Legacy.QOI_MASK_2 with 192. change Legacy.QOI_MASK_3 with 224.
    change Legacy.QOI_INDEX with 0. change Legacy.QOI_RUN_8 with 64.
    rewrite H1, H2, H3. cbv zeta.
    rewrite (Z.mod_small (n - 1)) by lia. reflexivity.
  - apply Z.ltb_ge in E.
    set (hi := Z.shiftr (n - 33) 8).
    assert (Hhi : 0 <= hi < 32).
    { subst hi. rewrite Z.shiftr_div_pow2 by lia. change (2 ^ 8) with 256.
      split; [apply Z.div_pos; lia | apply Z.div_lt_upper_bound; lia]. }
    assert (Hc : forall_range 0 32 (fun k =>
              negb (Z.land (Z.lor 96 (u8 k)) 192 =? 0)
              && negb (Z.land (Z.lor 96 (u8 k)) 224 =? 64)
              && (Z.land (Z.lor 96 (u8 k)) 224 =? 96)
              && (u8 (Z.shiftl (Z.land (Z.lor 96 (u8 k)) 31) 8) =? 0)) = true)
      by (vm_compute; reflexivity).
    pose proof (forall_range_spec _ _ _ Hc hi ltac:(lia)) as Hk. cbv beta in Hk.
    apply andb_true_iff in Hk as [Hk H4]. apply andb_true_iff in Hk as [Hk H3].
    apply andb_true_iff in Hk as [H1 H2].
    apply negb_true_iff in H1, H2. apply Z.eqb_eq in H4.
    cbn [app Legacy.ReadByte]. unfold Legacy.dispatch.
    change Legacy.QOI_MASK_2 with 192. change Legacy.QOI_MASK_3 with 224.
    change Legacy.QOI_INDEX with 0. change Legacy.QOI_RUN_8 with 64.
    change Legacy.QOI_RUN_16 with 96.
    rewrite H1, H2, H3. cbn [Legacy.ReadByte]. rewrite H4, Z.lor_0_l. cbv zeta.
    do 2 f_equal.
    change 255 with (Z.ones 8). rewrite Z.land_ones by lia. change (2 ^ 8) with 256.
    unfold u8. rewrite Z.mod_mod by lia. rewrite Zplus_mod_idemp_l.
    f_equal. lia.
Qed.

Lemma repeat_zeros_S j : repeat 0 (4 * S j) = 0 :: 0 :: 0 :: 0 :: repeat 0 (4 * j).
Proof. replace (4 * S j)%nat with (4 + 4 * j)%nat by lia. reflexivity. Qed.

(** The iterations that only count down a run. *)
Lemma legacy_loop_run img : forall R fuel rd idx written j,
  (R <= j)%nat -> (R <= fuel)%nat ->
  Legacy.decode_loop img fuel (mkDec rd idx start_pixel (Z.of_nat R)) written
                     (repeat 0 (4 * j)) =
    Legacy.decode_loop img (fuel - R) (mkDec rd idx start_pixel 0)
                       (written ++ flat_map px_bytes (repeat start_pixel R))
                       (repeat 0 (4 * (j - R))).
Proof.
  induction R as [| R IH]; intros fuel rd idx written j Hj Hf.
  - cbn [repeat flat_map]. rewrite app_nil_r, !Nat.sub_0_r. reflexivity.
  - destruct fuel as [| fuel]; [lia|]. destruct j as [| j]; [lia|].
    cbn [Legacy.decode_loop]. rewrite repeat_zeros_S. cbn [is_nil].
    unfold Legacy.decode_step. cbn [d_run d_rd d_index d_px].
    replace (Z.of_nat (S R) >? 0) with true by (symmetry; apply Z.gtb_lt; lia).
    cbv iota. cbn [d_px].
    rewrite legacy_copy_px by (cbn [length]; lia).
    cbn [skipn].
    replace (Z.of_nat (S R) - 1) with (Z.of_nat R) by lia.
    rewrite IH by lia.
    cbn [Nat.sub repeat flat_map]. rewrite <- app_assoc. reflexivity.
Qed.

Lemma index_get_set_zero idx :
  index_get (index_set idx 0 zero_pixel) 0 = zero_pixel.
Proof. destruct idx; reflexivity. Qed.

(** After the run the decoder takes the zero bytes that end the stream for
    chunks: each stores a pixel (0,0,0,0). *)
Lemma legacy_loop_zeros img : forall fuel k idx px written j,
  index_get idx 0 = zero_pixel ->
  Legacy.decode_loop img fuel (mkDec (repeat 0 k) idx px 0) written (repeat 0 (4 * j)) =
    Returned (Some (Legacy.finished img written (repeat 0 (4 * j))), None).
Proof.
  induction fuel as [| fuel IH]; intros k idx px written j Hidx; [reflexivity|].
  cbn [Legacy.decode_loop].
  destruct j as [| j]; [reflexivity|].
  rewrite repeat_zeros_S. cbn [is_nil].
  unfold Legacy.decode_step. cbn [d_run d_rd d_index d_px].
  change (0 >? 0) with false. cbv iota.
  destruct k as [| k]; [reflexivity|].
  cbn [repeat Legacy.ReadByte].
  change (Legacy.dispatch 0 (repeat 0 k) idx px 0)
    with (@inr io_error _ (repeat 0 k, index_get idx 0, 0)).
  rewrite Hidx. cbv zeta. cbn [px0 px1 px2 px3 zero_pixel].
  change (Legacy.QOI_COLOR_HASH 0 0 0 0 mod 64) with 0.
  rewrite legacy_copy_px by (cbn [length]; lia).
  cbn [skipn d_px].
  rewrite IH by apply index_get_set_zero.
  unfold Legacy.finished. rewrite <- app_assoc. reflexivity.
Qed.

Lemma le16_value w :
  0 <= w < 65536 -> u8 w + 256 * u8 (Z.shiftr w 8) = w.
Proof.
  intros H. unfold u8. rewrite Z.shiftr_div_pow2 by lia. change (2 ^ 8) with 256.
  rewrite (Z.mod_small (w / 256)).
  - symmetry. rewrite Z.add_comm. apply Z.div_mod. lia.
  - split; [apply Z.div_pos; lia | apply Z.div_lt_upper_bound; lia].
Qed.

(** X24.  Long runs do not survive the older codec.  For an image of
    [n = w * h <= 8224] pixels that all have the encoder's start colour
    (0,0,0,255), [Encode] writes one run chunk, and [Decode] of the stream
    returns, without error, an image of the right size whose first
    [(n - 1) mod 256 + 1] pixels are (0,0,0,255) and whose other bytes are all
    0: the image itself up to 256 pixels, and a different one beyond (of a
    run of 257 pixels a single one is left). *)
Theorem legacy_uniform_roundtrip : forall (m : Legacy.source) (w h : Z),
  Legacy.Bounds m = QoiImage.mkRect 0 0 w h ->
  1 <= w -> 1 <= h -> w * h <= 8224 ->
  (forall x y, 0 <= x < w -> 0 <= y < h -> Legacy.At m x y = Some start_pixel) ->
  let n := w * h in
  let kept := (n - 1) mod 256 + 1 in
  exists stream,
    Legacy.Encode m = Returned stream /\
    Legacy.Decode stream =
      Returned (Some (Legacy.mkRGBA
                        (flat_map px_bytes (repeat start_pixel (Z.to_nat kept))
                           ++ repeat 0 (Z.to_nat (4 * (n - kept))))
                        (4 * w) (QoiImage.mkRect 0 0 w h)),
                None).
Proof.
  intros m w h Hb Hw Hh Hn Hpx n kept.
  eexists. split; [apply (legacy_Encode_uniform m w h); assumption|].
  fold n.
  assert (Hw16 : 0 <= w < 65536) by nia.
  assert (Hh16 : 0 <= h < 65536) by nia.
  assert (Hn1 : 1 <= n <= 8224) by (subst n; nia).
  pose proof (Z.mod_pos_bound (n - 1) 256 ltac:(lia)) as Hmod.
  pose proof (Z.mod_le (n - 1) 256 ltac:(lia) ltac:(lia)) as Hle.
  unfold Legacy.Decode.
  change (ReadFull 4 (qoiMagic ++ ?x)) with (@inr io_error _ (qoiMagic, x)).
  cbv beta iota.
  change (negb (list_eqb qoiMagic qoiMagic)) with false. cbv iota.
  unfold Legacy.u16 at 1 2. rewrite (Z.mod_small w), (Z.mod_small h) by lia.
  cbn [Legacy.le_put_uint16 app].
  rewrite read_le16 by apply u8_range. rewrite read_le16 by apply u8_range.
  rewrite !le16_value by lia.
  match goal with
  | |- context [Legacy.read_le_ignoring 4 (?s0 :: ?s1 :: ?s2 :: ?s3 :: ?rest)] =>
      change (Legacy.read_le_ignoring 4 (s0 :: s1 :: s2 :: s3 :: rest))
        with (fold_right (fun x acc => Z.lor x (Z.shiftl acc 8)) 0 [s0; s1; s2; s3], rest)
  end.
  cbv iota.
  assert (Hrect : image_Rect 0 0 w h = QoiImage.mkRect 0 0 w h).
  { unfold image_Rect. replace (0 >? w) with false by lia.
    replace (0 >? h) with false by lia. reflexivity. }
  rewrite Hrect.
  unfold Legacy.NewRGBA.
  cbn [QoiImage.MinX QoiImage.MinY QoiImage.MaxX QoiImage.MaxY Legacy.Pix].
  rewrite !Z.sub_0_r.
  replace (Z.to_nat (4 * w * h)) with (4 * S (Z.to_nat (n - 1)))%nat by (subst n; nia).
  set (img := Legacy.mkRGBA (repeat 0 (4 * S (Z.to_nat (n - 1)))) (4 * w)
                            (QoiImage.mkRect 0 0 w h)).
  rewrite repeat_length.
  (* the first iteration reads the run chunk *)
  replace (4 * S (Z.to_nat (n - 1)))%nat with (S (3 + 4 * Z.to_nat (n - 1)))%nat at 1 by lia.
  cbn [Legacy.decode_loop]. rewrite repeat_zeros_S. cbn [is_nil].
  unfold dec_init. rewrite legacy_decode_run_chunk by exact Hn1.
  rewrite legacy_copy_px by (cbn [length]; lia).
  cbn [skipn d_px app].
  (* then the run is counted down *)
  replace ((n - 1) mod 256) with (Z.of_nat (Z.to_nat ((n - 1) mod 256))) by lia.
  rewrite legacy_loop_run by lia.
  (* and the four zero bytes are taken for chunks *)
  change [0; 0; 0; 0] with (repeat 0 4).
  rewrite legacy_loop_zeros by (vm_compute; reflexivity).
  unfold Legacy.finished, img. cbn [Legacy.Stride Legacy.Rect].
  subst kept.
  replace (Z.to_nat ((n - 1) mod 256 + 1)) with (S (Z.to_nat ((n - 1) mod 256))) by lia.
  replace (Z.to_nat (4 * (n - ((n - 1) mod 256 + 1))))
    with (4 * (Z.to_nat (n - 1) - Z.to_nat ((n - 1) mod 256)))%nat by lia.
  cbn [repeat flat_map]. rewrite <- !app_assoc. reflexivity.
Qed.

(** The theorem at a 257x1 image: one pixel is left of the run. *)
Lemma legacy_uniform_roundtrip_witness :
  exists stream,
    Legacy.Encode (Legacy.mkSource (QoiImage.mkRect 0 0 257 1)
                                   (fun _ _ => Some start_pixel)) = Returned stream /\
    Legacy.Decode stream =
      Returned (Some (Legacy.mkRGBA
                        (flat_map px_bytes
                           (repeat start_pixel (Z.to_nat ((257 * 1 - 1) mod 256 + 1)))
                           ++ repeat 0 (Z.to_nat (4 * (257 * 1 - ((257 * 1 - 1) mod 256 + 1)))))
                        (4 * 257) (QoiImage.mkRect 0 0 257 1)),
                None).
Proof.
  apply (legacy_uniform_roundtrip
           (Legacy.mkSource (QoiImage.mkRect 0 0 257 1) (fun _ _ => Some start_pixel))
           257 1).
  - reflexivity.
  - lia.
  - lia.
  - lia.
  - intros. reflexivity.
Defined.
